(** * CST visitor and stream composer of the yaml library

    A shallow embedding of
      - [visit], [visit.itemAtPath], [visit.parentCollection] and [_visit]
        (the CST visitor), and
      - [getErrorPos], [parsePrelude], [Composer] and [composeDoc]
        (the stream composer and the document assembler), and
      - [getTags], [boolStringify] and [float.resolve]
        (the tag registry, the boolean tags of YAML 1.1 and the float tag),
    together with the properties stated about them. *)

From Stdlib Require Import List ZArith Lia Bool String Ascii Arith.
Import ListNotations.
Local Open Scope Z_scope.

Set Implicit Arguments.
Set Warnings "-register-all".

(** ** Results of JavaScript calls *)

(** What a JavaScript exception carries, as far as the code here can raise. *)
Inductive JsError : Type :=
| TypeError                      (* property access on [undefined] *)
| Error (message : string).      (* [new Error(message)] *)

(** A call returns, throws, or (in the embedding) runs out of fuel. *)
Inductive Outcome (A : Type) : Type :=
| Returned (a : A)
| Threw (e : JsError)
| OutOfFuel.
Arguments Threw {A} e.
Arguments OutOfFuel {A}.

(** [SourceToken] of the CST: [{ type, offset, indent, source }]. *)
Record SourceToken : Type := mkSourceToken {
  st_type : string;
  st_offset : Z;
  st_indent : Z;
  st_source : string
}.

(** ** The concrete syntax tree, as the visitor sees it *)

Module Cst.

(** A token either has an [items] array (block-map, block-seq,
    flow-collection) or it has none (scalars, source tokens, errors).
    A collection item is [{ start, key?, sep?, value? }]; [None] in [key]
    stands for both an absent and a [null] key, which the code tests alike
    ([token && 'items' in token]). *)
Inductive Token : Type :=
| Leaf (type : string) (source : string)
| Coll (type : string) (items : list Item)
with Item : Type :=
| MkItem (start : list SourceToken) (key : option Token)
         (sep : list SourceToken) (value : option Token).

Definition start (it : Item) := let 'MkItem s _ _ _ := it in s.
Definition key (it : Item) := let 'MkItem _ k _ _ := it in k.
Definition sep (it : Item) := let 'MkItem _ _ s _ := it in s.
Definition value (it : Item) := let 'MkItem _ _ _ v := it in v.

(** CST document: [{ type: 'document', offset, start, value?, end? }]. *)
Record Document : Type := mkDocument {
  doc_offset : Z;
  doc_start : list SourceToken;
  doc_value : option Token;
  doc_end : option (list SourceToken)
}.

(** The roots [visit] accepts: [Document | CollectionItem]. *)
Inductive Root : Type :=
| RDoc (d : Document)
| RItem (it : Item).

Inductive Field : Type := FKey | FValue.

(** [VisitPath = readonly ['key' | 'value', number][]]; numbers are modelled
    as integers. *)
Definition VisitPath : Type := list (Field * Z).

Definition Field_eqb (a b : Field) : bool :=
  match a, b with
  | FKey, FKey | FValue, FValue => true
  | _, _ => false
  end.

Definition step_eqb (a b : Field * Z) : bool :=
  Field_eqb (fst a) (fst b) && (snd a =? snd b).

Fixpoint path_eqb (p q : VisitPath) : bool :=
  match p, q with
  | [], [] => true
  | a :: p', b :: q' => step_eqb a b && path_eqb p' q'
  | _, _ => false
  end.

(** [item[field]] on a collection item. *)
Definition get_field (it : Item) (f : Field) : option Token :=
  match f with FKey => key it | FValue => value it end.

(** The same item after its [field] token has been mutated in place. *)
Definition set_field (it : Item) (f : Field) (t : Token) : Item :=
  match f with
  | FKey => MkItem (start it) (Some t) (sep it) (value it)
  | FValue => MkItem (start it) (key it) (sep it) (Some t)
  end.

(** [items[i]]: [undefined] outside the array. *)
Definition items_get (items : list Item) (i : Z) : option Item :=
  if i <? 0 then None else nth_error items (Z.to_nat i).

(** [items[i]] after the object found there has been mutated in place. *)
Fixpoint list_set (items : list Item) (n : nat) (x : Item) : list Item :=
  match items, n with
  | [], _ => []
  | _ :: r, O => x :: r
  | y :: r, S n' => y :: list_set r n' x
  end.

Definition items_put (items : list Item) (i : Z) (x : option Item) : list Item :=
  match x with
  | Some x' => if i <? 0 then items else list_set items (Z.to_nat i) x'
  | None => items
  end.

Fixpoint list_delete (items : list Item) (n : nat) : list Item :=
  match items, n with
  | [], _ => []
  | _ :: r, O => r
  | y :: r, S n' => y :: list_delete r n'
  end.

(** [items.splice(i, 1)]: a negative start counts from the end and is
    clamped at 0. *)
Definition splice1 (items : list Item) (i : Z) : list Item :=
  let len := Z.of_nat (List.length items) in
  let from := if i <? 0 then Z.max (len + i) 0 else Z.min i len in
  list_delete items (Z.to_nat from).

(** *** visit.itemAtPath *)

(** [item?.[field]] where [item] is the root (possibly a document, which has
    a [value] and no [key]), an item, or [undefined]. *)
Definition root_field (item : option Root) (f : Field) : option Token :=
  match item with
  | None => None
  | Some (RItem it) => get_field it f
  | Some (RDoc d) => match f with FKey => None | FValue => doc_value d end
  end.

Fixpoint itemAtPath_from (item : option Root) (path : VisitPath) : option Root :=
  match path with
  | [] => item
  | (field, index) :: rest =>
      match root_field item field with
      | Some (Coll _ items) =>
          itemAtPath_from (option_map RItem (items_get items index)) rest
      | _ => None
      end
  end.

Definition itemAtPath (cst : Root) (path : VisitPath) : option Root :=
  itemAtPath_from (Some cst) path.

(** *** visit.parentCollection *)

Definition parentCollection (cst : Root) (path : VisitPath) : Outcome Token :=
  let parent := itemAtPath cst (removelast path) in
  match last (map Some path) None with
  | None => Threw TypeError            (* [path[path.length - 1][0]] *)
  | Some (field, _) =>
      match root_field parent field with
      | Some (Coll ty items) => Returned (Coll ty items)
      | _ => Threw (Error "Parent collection not found")
      end
  end.

(** *** The visitor protocol *)

Inductive Sym : Type :=
| BREAK
| SKIP
| REMOVE
| OtherSymbol (description : string).

Inductive Phase : Type :=
| Entry       (* the visitor called on entering an item *)
| AfterKey    (* a next visitor called after the key's items *)
| Exit.       (* a next visitor called on leaving the item *)

(** One call of a visitor function, as recorded by the embedding. *)
Record Call : Type := mkCall {
  c_phase : Phase;
  c_path : VisitPath;
  c_item : option Item
}.

Section Visitor.

(** The visitor is a closure: [St] is whatever state it captures. It is
    handed the item (or [undefined], which a numeric control can make the
    loop reach) and the path, and it does not itself edit the tree. *)
Variable St : Type.

Inductive Ctrl : Type :=
| CUndef
| CSym (s : Sym)
| CNum (n : Z)
| CFun (f : St -> option Item -> VisitPath -> Ctrl * St).

Definition Visitor : Type := St -> option Item -> VisitPath -> Ctrl * St.

Record World : Type := mkWorld {
  vstate : St;
  calls : list Call
}.

Definition invoke (ph : Phase) (f : Visitor) (item : option Item)
    (path : VisitPath) (w : World) : Ctrl * World :=
  let '(c, s) := f (vstate w) item path in
  (c, mkWorld s (calls w ++ [mkCall ph path item])).

Definition is_symbol (c : Ctrl) : bool :=
  match c with CSym _ => true | _ => false end.

(** How the loop over [token.items] ended. *)
Inductive LoopExit : Type := LBreak | LDone.

(** How the body of [for (const field of ['key', 'value'])] ended. *)
Inductive FieldExit : Type :=
| FBreak (it : Item) (w : World)                   (* [return BREAK] *)
| FNext (ctrl : Ctrl) (it : Item) (w : World).

(** One round of the [for (const field ...)] loop, given the loop over the
    items. *)
Definition visit_field
    (loop : Field -> list Item -> Z -> World -> Outcome (LoopExit * list Item * World))
    (path : VisitPath) (it : Item) (field : Field) (ctrl : Ctrl) (w : World)
    : Outcome FieldExit :=
  match get_field it field with
  | Some (Coll ty items) =>
      match loop field items 0 w with
      | Returned (LBreak, items', w') =>
          Returned (FBreak (set_field it field (Coll ty items')) w')
      | Returned (LDone, items', w') =>
          let it' := set_field it field (Coll ty items') in
          match ctrl, field with
          | CFun f, FKey =>
              let '(c, w'') := invoke AfterKey f (Some it') path w' in
              Returned (FNext c it' w'')
          | _, _ => Returned (FNext ctrl it' w')
          end
      | Threw e => Threw e
      | OutOfFuel => OutOfFuel
      end
  | _ => Returned (FNext ctrl it w)
  end.

(** [_visit(path, item, visitor)] and its inner loop
    [for (let i = 0; i < token.items.length; ++i)], entered at index [i].
    The result carries the control value, the item as the call left it and
    the visitor's state and calls. *)
Fixpoint _visit (fuel : nat) (path : VisitPath) (item : option Item)
    (visitor : Visitor) (w : World) {struct fuel}
    : Outcome (Ctrl * option Item * World) :=
  match fuel with
  | O => OutOfFuel
  | S fuel' =>
      let '(ctrl, w0) := invoke Entry visitor item path w in
      if is_symbol ctrl then Returned (ctrl, item, w0) else
      match item with
      | None => Threw TypeError                      (* [item[field]] *)
      | Some it =>
          match visit_field (visit_items fuel' path visitor) path it FKey ctrl w0 with
          | Returned (FBreak it1 w1) => Returned (CSym BREAK, Some it1, w1)
          | Returned (FNext ctrl1 it1 w1) =>
              match visit_field (visit_items fuel' path visitor) path it1 FValue ctrl1 w1 with
              | Returned (FBreak it2 w2) => Returned (CSym BREAK, Some it2, w2)
              | Returned (FNext ctrl2 it2 w2) =>
                  match ctrl2 with
                  | CFun f =>
                      let '(c, w3) := invoke Exit f (Some it2) path w2 in
                      Returned (c, Some it2, w3)
                  | _ => Returned (ctrl2, Some it2, w2)
                  end
              | Threw e => Threw e
              | OutOfFuel => OutOfFuel
              end
          | Threw e => Threw e
          | OutOfFuel => OutOfFuel
          end
      end
  end
with visit_items (fuel : nat) (path : VisitPath) (visitor : Visitor)
    (field : Field) (items : list Item) (i : Z) (w : World) {struct fuel}
    : Outcome (LoopExit * list Item * World) :=
  match fuel with
  | O => OutOfFuel
  | S fuel' =>
      if i <? Z.of_nat (List.length items) then
        match _visit fuel' (path ++ [(field, i)]) (items_get items i) visitor w with
        | Returned (ci, child, w') =>
            let items' := items_put items i child in
            match ci with
            | CNum n =>
                visit_items fuel' path visitor field items' ((n - 1) + 1) w'
            | CSym BREAK => Returned (LBreak, items', w')
            | CSym REMOVE =>
                visit_items fuel' path visitor field (splice1 items' i) ((i - 1) + 1) w'
            | _ => visit_items fuel' path visitor field items' (i + 1) w'
            end
        | Threw e => Threw e
        | OutOfFuel => OutOfFuel
        end
      else Returned (LDone, items, w)
  end.

(** What [visit] leaves behind: the root after the walk, the visitor's state
    and calls, and the value the call itself returns. *)
Record Visited : Type := mkVisited {
  v_root : Root;
  v_world : World;
  v_returned : Ctrl
}.

(** [visit(cst, visitor)]: a document is replaced by
    [{ start: cst.start, value: cst.value }], whose [value] token is the
    document's own, so the walk's edits show in the document. The function
    has no [return]. *)
Definition unwrap (cst : Root) : Item :=
  match cst with
  | RDoc d => MkItem (doc_start d) None [] (doc_value d)
  | RItem it => it
  end.

Definition rewrap (cst : Root) (it : Item) : Root :=
  match cst with
  | RDoc d => RDoc (mkDocument (doc_offset d) (doc_start d) (value it) (doc_end d))
  | RItem _ => RItem it
  end.

Definition visit (fuel : nat) (cst : Root) (visitor : Visitor) (w : World)
    : Outcome Visited :=
  match _visit fuel [] (Some (unwrap cst)) visitor w with
  | Returned (_, Some it, w') => Returned (mkVisited (rewrap cst it) w' CUndef)
  | Returned (_, None, w') => Returned (mkVisited cst w' CUndef)
  | Threw e => Threw e
  | OutOfFuel => OutOfFuel
  end.

End Visitor.

Arguments CUndef {St}.
Arguments CSym {St} s.
Arguments CNum {St} n.

(** *** The items of a tree, in the order the walk is meant to enter them *)

(** Every item below (and including) [it], each with its path from the
    root: the item itself, then the items of its [key] collection in index
    order, each followed by its own descendants, then those of its [value]
    collection. *)
Fixpoint preorder (path : VisitPath) (it : Item) {struct it}
    : list (VisitPath * Item) :=
  match it with
  | MkItem _ k _ v =>
      (path, it)
        :: match k with Some t => preorder_token path FKey t | None => [] end
        ++ match v with Some t => preorder_token path FValue t | None => [] end
  end
with preorder_token (path : VisitPath) (field : Field) (t : Token) {struct t}
    : list (VisitPath * Item) :=
  match t with
  | Leaf _ _ => []
  | Coll _ items =>
      (fix go (l : list Item) (i : Z) : list (VisitPath * Item) :=
         match l with
         | [] => []
         | x :: r => preorder (path ++ [(field, i)]) x ++ go r (i + 1)
         end) items 0
  end.

Fixpoint preorder_items (path : VisitPath) (field : Field) (l : list Item)
    (i : Z) : list (VisitPath * Item) :=
  match l with
  | [] => []
  | x :: r => preorder (path ++ [(field, i)]) x ++ preorder_items path field r (i + 1)
  end.

Definition preorder_field (path : VisitPath) (field : Field) (t : option Token)
    : list (VisitPath * Item) :=
  match t with
  | Some (Coll _ items) => preorder_items path field items 0
  | _ => []
  end.

(** The items of a collection token, none for any other token. *)
Definition children (t : option Token) : list Item :=
  match t with
  | Some (Coll _ l) => l
  | _ => []
  end.

(** Number of items and collections in a tree; twice this is fuel enough
    for a walk that removes and jumps nowhere. *)
Fixpoint size (it : Item) : nat :=
  match it with
  | MkItem _ k _ v =>
      S (match k with Some t => size_token t | None => O end
         + match v with Some t => size_token t | None => O end)
  end
with size_token (t : Token) : nat :=
  match t with
  | Leaf _ _ => O
  | Coll _ items =>
      S ((fix go (l : list Item) : nat :=
            match l with
            | [] => O
            | x :: r => (size x + go r)%nat
            end) items)
  end.

Fixpoint size_items (l : list Item) : nat :=
  match l with
  | [] => O
  | x :: r => (size x + size_items r)%nat
  end.

Definition size_field (t : option Token) : nat :=
  match t with
  | Some (Coll _ items) => S (size_items items)
  | _ => O
  end.

Definition entry_calls (l : list (VisitPath * Item)) : list Call :=
  map (fun pi => mkCall Entry (fst pi) (Some (snd pi))) l.

(** *** Notions used to state the properties of the walk *)

(** [x] is the item found by following [p] down from [it]. *)
Definition reaches (it : Item) (p : VisitPath) (x : Item) : Prop :=
  itemAtPath_from (Some (RItem it)) p = Some (RItem x).

(** The collection in field [f] of the item that [Q] leads to. *)
Definition collectionAt (it : Item) (Q : VisitPath) (f : Field) : option Token :=
  root_field (itemAtPath_from (Some (RItem it)) Q) f.

(** The listing holds the items that paths reach, each under its path. *)
Definition listed (it : Item) : Prop :=
  forall cur q x,
    In (q, x) (preorder cur it) <-> exists p, q = cur ++ p /\ reaches it p x.

(** No path occurs twice in the listing. *)
Definition once (it : Item) : Prop :=
  forall cur, NoDup (map fst (preorder cur it)).

(** [Inv] is kept by the visitor's state, and while it holds the visitor
    answers [undefined] at [path] and everywhere below it. *)
Definition quiet_below (St : Type) (visitor : Visitor St) (Inv : St -> Prop)
    (path : VisitPath) : Prop :=
  forall s item q,
    Inv s ->
    fst (visitor s item (path ++ q)) = CUndef
    /\ Inv (snd (visitor s item (path ++ q))).

(** Where the visitor is quiet, the walk of [it] enters the items of the
    listing in turn, leaves [it] as it was and returns [undefined]. *)
Definition quiet_walk (St : Type) (visitor : Visitor St) (Inv : St -> Prop)
    (it : Item) : Prop :=
  forall fuel path w,
    quiet_below visitor Inv path -> Inv (vstate w) ->
    (2 * size it <= fuel)%nat ->
    exists w',
      _visit fuel path (Some it) visitor w = Returned (CUndef, Some it, w')
      /\ calls w' = calls w ++ entry_calls (preorder path it)
      /\ Inv (vstate w').

(** The visitor that answers [undefined] whatever it is shown. *)
Definition never_steers : Visitor unit := fun s _ _ => (CUndef, s).

(** The visitor that answers [REMOVE] the first time it is called with the
    path [P], and [undefined] at every other call; its state tells whether
    it has done so. *)
Definition remove_once (P : VisitPath) : Visitor bool :=
  fun fired _ path =>
    if negb fired && path_eqb path P then (CSym REMOVE, true)
    else (CUndef, fired).

(** [log] is the listing [before] up to its entry [(P, x)], and then the
    listing [after] from its entry [(P, y)] on, the two listings having the
    same paths up to there. (The items may differ there: [before] shows an
    ancestor of [x] as it was when the walk entered it, [after] as the walk
    left it.) *)
Definition spliced (P : VisitPath) (x y : Item)
    (before log after : list (VisitPath * Item)) : Prop :=
  exists L1 L1' L2 R,
    log = L1 ++ (P, x) :: (P, y) :: L2
    /\ after = L1' ++ (P, y) :: L2
    /\ map fst L1' = map fst L1
    /\ before = L1 ++ (P, x) :: R.

(** A next visitor that answers [BREAK], and a visitor that hands it out
    at the root and answers [undefined] elsewhere. *)
Definition breaks : Visitor unit := fun s _ _ => (CSym BREAK, s).

Definition breaks_after_key : Visitor unit :=
  fun s _ path =>
    match path with
    | [] => (CFun breaks, s)
    | _ => (CUndef, s)
    end.

(** The visitor that answers the symbol [s] whenever it is called with the
    path [P], and [undefined] with any other path. *)
Definition answer_at (P : VisitPath) (s : Sym) : Visitor unit :=
  fun st _ path => if path_eqb path P then (CSym s, st) else (CUndef, st).

(** What the loop over the items does with the control value of a child
    that is neither a number nor a function nor [REMOVE]: it stops at
    [BREAK] and goes on to the next index otherwise. *)
Definition loop_effect (St : Type) (ci : Ctrl St) : option LoopExit :=
  match ci with
  | CSym BREAK => Some LBreak
  | CUndef | CSym SKIP | CSym (OtherSymbol _) => Some LDone
  | _ => None
  end.

(** The control that the walk of an item returns when the visitor answers
    the symbol [s] at the end of [P] below the item, [ex] being what that
    symbol does to a loop. *)
Definition walk_ctrl (P : VisitPath) (s : Sym) (ex : LoopExit) : Ctrl unit :=
  match P with
  | [] => CSym s
  | _ => match ex with LBreak => CSym BREAK | LDone => CUndef end
  end.

(** The visitor that answers [undefined] at the root and the number [n]
    everywhere else. *)
Definition answers_number (n : Z) : Visitor unit :=
  fun st _ path =>
    match path with
    | [] => (CUndef, st)
    | _ => (CNum n, st)
    end.

(** The visitor that answers [undefined] at the root and the number 0
    everywhere else. *)
Definition back_to_start : Visitor unit :=
  fun st _ path =>
    match path with
    | [] => (CUndef, st)
    | _ => (CNum 0, st)
    end.

(** A small tree to run the walk on: a flow pair whose key is a flow
    sequence of two scalars and whose value is a block sequence of one
    scalar. *)
Definition leaf_item (s : string) : Item :=
  MkItem [] None [] (Some (Leaf "scalar" s)).

Definition sample_item : Item :=
  MkItem []
    (Some (Coll "flow-collection" [leaf_item "a"; leaf_item "b"]))
    []
    (Some (Coll "block-seq" [leaf_item "c"])).

End Cst.

(** ** The stream composer and the document assembler *)

Module Compose.

Local Open Scope string_scope.
Local Open Scope list_scope.
Local Infix "+++" := String.append (at level 60, right associativity).

(** [YAMLParseError] and [YAMLWarning]: [{ name, code, message, pos }];
    [ErrorCode] is a union of string literals. *)
Inductive ErrorName : Type := YAMLParseError | YAMLWarning.

Record YAMLError : Type := mkYAMLError {
  e_name : ErrorName;
  e_pos : Z * Z;
  e_code : string;
  e_message : string
}.

(** [ErrorSource]: a number, a pair, a [Range], or [{ offset, source? }]. *)
Inductive ErrorSource : Type :=
| SrcNumber (n : Z)
| SrcPair (a b : Z)
| SrcRange (a b c : Z)
| SrcToken (offset : Z) (source : option string).

Definition getErrorPos (src : ErrorSource) : Z * Z :=
  match src with
  | SrcNumber n => (n, n + 1)
  | SrcPair a b => (a, b)
  | SrcRange a b _ => (a, b)
  | SrcToken offset source =>
      (offset,
       offset + match source with
                | Some s => Z.of_nat (String.length s)
                | None => 1
                end)
  end.

(** One call of a [ComposeErrorHandler]. *)
Record Report : Type := mkReport {
  r_source : ErrorSource;
  r_code : string;
  r_message : string;
  r_warning : bool
}.

(** A string used as a condition: [''] is falsy, and so are [null] and
    [undefined]. *)
Definition truthy (s : option string) : bool :=
  match s with
  | Some (String _ _) => true
  | _ => false
  end.

(** [!x] for a value that is an object or [null]. *)
Definition is_null (A : Type) (x : option A) : bool :=
  match x with None => true | Some _ => false end.

Definition or_empty (s : option string) : string :=
  match s with Some x => x | None => "" end.

Definition newline : string := String (ascii_of_nat 10) "".

(** *** parsePrelude *)

(** The loop of [parsePrelude] from index [i] on, [prelude] being what is
    left of the array from there. *)
Fixpoint parsePrelude_from (prelude : list string) (comment : string)
    (atComment afterEmptyLine : bool) : string * bool :=
  match prelude with
  | [] => (comment, afterEmptyLine)
  | source :: rest =>
      match source with
      | String "#" tail =>
          parsePrelude_from rest
            (comment
               +++ (match comment with
                    | "" => ""
                    | _ => if afterEmptyLine then newline +++ newline else newline
                    end)
               +++ (match tail with "" => " " | _ => tail end))
            true false
      | String "%" _ =>
          match rest with
          | String "#" _ :: _ => parsePrelude_from rest comment false afterEmptyLine
          | _ :: rest' => parsePrelude_from rest' comment false afterEmptyLine
          | [] => (comment, afterEmptyLine)
          end
      | _ =>
          parsePrelude_from rest comment false
            (if atComment then afterEmptyLine else true)
      end
  end.

Definition parsePrelude (prelude : list string) : string * bool :=
  parsePrelude_from prelude "" false false.

(** *** Composed nodes and documents *)

Definition Range : Type := (Z * Z * Z)%type.

(** The part of a parsed node that the composer reads and writes: its
    [range] and [commentBefore], and for a collection its [flow] flag and
    [items], which are pairs or nodes. *)
Inductive Node : Type :=
| Scalar (commentBefore : option string) (range : Range) (source : string)
| Collection (commentBefore : option string) (range : Range) (flow : bool)
             (items : list NodeItem)
with NodeItem : Type :=
| PairItem (key : Node) (value : option Node)
| NodeItem_ (n : Node).

Definition node_range (n : Node) : Range :=
  match n with Scalar _ r _ => r | Collection _ r _ _ => r end.

Definition node_commentBefore (n : Node) : option string :=
  match n with Scalar cb _ _ => cb | Collection cb _ _ _ => cb end.

Definition set_node_commentBefore (n : Node) (cb : option string) : Node :=
  match n with
  | Scalar _ r s => Scalar cb r s
  | Collection _ r f l => Collection cb r f l
  end.

(** [cb ? `${comment}\n${cb}` : comment] *)
Definition prepend_comment (comment : string) (cb : option string) : string :=
  if truthy cb then comment +++ newline +++ or_empty cb else comment.

(** [let it = dc.items[0]; if (isPair(it)) it = it.key;
     it.commentBefore = ...] *)
Definition decorate_first (comment : string) (it : NodeItem) : NodeItem :=
  match it with
  | PairItem k v =>
      PairItem (set_node_commentBefore k
                  (Some (prepend_comment comment (node_commentBefore k)))) v
  | NodeItem_ n =>
      NodeItem_ (set_node_commentBefore n
                   (Some (prepend_comment comment (node_commentBefore n))))
  end.

Definition third (r : Range) : Z := snd r.

Section Composer.

(** What the composer takes from the rest of the library. [Directives] is
    the stream's directive state and [Options] the parse options;
    [strict] reads [options.strict]. A function that is handed [onError]
    is modelled by the list of calls it makes to it, in order. *)
Variable Directives : Type.
Variable Options : Type.
Variable strict : Options -> bool.

(** [directives.add(line, onError)]: the new state and the
    [(offset, message, warning)] calls. *)
Variable Directives_add : Directives -> string -> Directives * list (Z * string * bool).

(** [directives.atDocument()]: the document's view and the stream's state
    after it. *)
Variable atDocument : Directives -> Directives * Directives.

(** The directives of one document, with its [docStart] and [docEnd]
    marks. *)
Record DocDirectives : Type := mkDocDirectives {
  dd_view : Directives;
  docStart : bool;
  docEnd : bool
}.

Record Doc : Type := mkDoc {
  contents : option Node;
  comment : option string;
  commentBefore : option string;
  directives : DocDirectives;
  options : Options;
  range : option Range;
  errors : list YAMLError;
  warnings : list YAMLError
}.

(** Modelled from the spec: the [Document] class is not among the sources.
    [new Document(undefined, opts)] is a shell: no contents, no comments,
    no range yet, empty error and warning lists, the given options and the
    directive view the stream hands out for a document. *)
Definition Document_new (opts : Options) (dirs : Directives) : Doc * Directives :=
  let '(view, dirs') := atDocument dirs in
  (mkDoc None None None (mkDocDirectives view false false) opts None [] [],
   dirs').

(** What [resolveProps] is asked and what it answers, as far as
    [composeDoc] reads it. *)
Inductive NextToken : Type :=
| NextValue (t : Cst.Token)
| NextSource (s : SourceToken).

Record PropsQuery : Type := mkPropsQuery {
  q_indicator : string;
  q_next : option NextToken;
  q_offset : Z;
  q_parentIndent : Z;
  q_startOnNewline : bool
}.

Variable Props : Type.
Variable found : Props -> bool.
Variable hasNewline : Props -> bool.
Variable props_end : Props -> Z.
Variable resolveProps : list SourceToken -> PropsQuery -> Props * list Report.

Record ComposeContext : Type := mkComposeContext {
  atRoot : bool;
  ctx_directives : DocDirectives;
  ctx_options : Options
}.

Variable composeNode : ComposeContext -> Cst.Token -> Props -> Node * list Report.
Variable composeEmptyNode :
  ComposeContext -> Z -> list SourceToken -> Props -> Node * list Report.

Record ResolvedEnd : Type := mkResolvedEnd {
  re_comment : string;
  re_offset : Z
}.

Variable resolveEnd :
  option (list SourceToken) -> Z -> bool -> ResolvedEnd * list Report.

Variable JSON_stringify : string -> string.

Definition set_docStart (d : Doc) : Doc :=
  mkDoc (contents d) (comment d) (commentBefore d)
        (mkDocDirectives (dd_view (directives d)) true (docEnd (directives d)))
        (options d) (range d) (errors d) (warnings d).

Definition set_docEnd (d : Doc) : Doc :=
  mkDoc (contents d) (comment d) (commentBefore d)
        (mkDocDirectives (dd_view (directives d)) (docStart (directives d)) true)
        (options d) (range d) (errors d) (warnings d).

Definition set_contents (d : Doc) (n : option Node) : Doc :=
  mkDoc n (comment d) (commentBefore d) (directives d) (options d) (range d)
        (errors d) (warnings d).

Definition set_comment (d : Doc) (c : option string) : Doc :=
  mkDoc (contents d) c (commentBefore d) (directives d) (options d) (range d)
        (errors d) (warnings d).

Definition set_commentBefore (d : Doc) (c : option string) : Doc :=
  mkDoc (contents d) (comment d) c (directives d) (options d) (range d)
        (errors d) (warnings d).

Definition set_range (d : Doc) (r : option Range) : Doc :=
  mkDoc (contents d) (comment d) (commentBefore d) (directives d) (options d) r
        (errors d) (warnings d).

Definition set_errors (d : Doc) (es ws : list YAMLError) : Doc :=
  mkDoc (contents d) (comment d) (commentBefore d) (directives d) (options d)
        (range d) es ws.

Definition token_type (t : Cst.Token) : string :=
  match t with Cst.Leaf ty _ => ty | Cst.Coll ty _ => ty end.

Definition is_block_collection (t : Cst.Token) : bool :=
  String.eqb (token_type t) "block-map" || String.eqb (token_type t) "block-seq".

(** *** composeDoc *)

(** What [composeDoc] asks of [resolveProps]:
    [{ indicator: 'doc-start', next: value ?? end?.[0], offset, onError,
       parentIndent: 0, startOnNewline: true }]. *)
Definition doc_start_query (cst : Cst.Document) : PropsQuery :=
  mkPropsQuery "doc-start"
    match Cst.doc_value cst with
    | Some v => Some (NextValue v)
    | None =>
        match Cst.doc_end cst with
        | Some (e :: _) => Some (NextSource e)
        | _ => None
        end
    end
    (Cst.doc_offset cst) 0 true.

(** The document, the stream's directive state after [new Document], and the
    calls made to [onError], in order. *)
Definition composeDoc (opts : Options) (dirs : Directives) (cst : Cst.Document)
    : Doc * Directives * list Report :=
  let '(doc, dirs') := Document_new opts dirs in
  let '(props, r1) := resolveProps (Cst.doc_start cst) (doc_start_query cst) in
  let doc := if found props then set_docStart doc else doc in
  let r2 :=
    if found props
       && match Cst.doc_value cst with
          | Some v => is_block_collection v
          | None => false
          end
       && negb (hasNewline props)
    then [mkReport (SrcNumber (props_end props)) "MISSING_CHAR"
            "Block collection cannot start on same line with directives-end marker"
            false]
    else [] in
  let ctx := mkComposeContext true (directives doc) (options doc) in
  let '(node, r3) :=
    match Cst.doc_value cst with
    | Some v => composeNode ctx v props
    | None => composeEmptyNode ctx (props_end props) (Cst.doc_start cst) props
    end in
  let doc := set_contents doc (Some node) in
  let contentEnd := third (node_range node) in
  let '(re, r4) := resolveEnd (Cst.doc_end cst) contentEnd false in
  let doc :=
    if truthy (Some (re_comment re)) then set_comment doc (Some (re_comment re))
    else doc in
  let doc := set_range doc (Some (Cst.doc_offset cst, contentEnd, re_offset re)) in
  (doc, dirs', r1 ++ r2 ++ r3 ++ r4).

(** *** Composer *)

Record Composer : Type := mkComposer {
  c_directives : Directives;
  c_doc : option Doc;
  c_options : Options;
  c_atDirectives : bool;
  c_prelude : list string;
  c_errors : list YAMLError;
  c_warnings : list YAMLError
}.

(** [new Composer(options)], the stream's directives being
    [new Directives({ version: options.version || '1.2' })]. *)
Definition Composer_new (dirs : Directives) (opts : Options) : Composer :=
  mkComposer dirs None opts false [] [] [].

Definition push_error (c : Composer) (e : YAMLError) : Composer :=
  mkComposer (c_directives c) (c_doc c) (c_options c) (c_atDirectives c)
             (c_prelude c) (c_errors c ++ [e]) (c_warnings c).

Definition push_warning (c : Composer) (e : YAMLError) : Composer :=
  mkComposer (c_directives c) (c_doc c) (c_options c) (c_atDirectives c)
             (c_prelude c) (c_errors c) (c_warnings c ++ [e]).

Definition push_prelude (c : Composer) (s : string) : Composer :=
  mkComposer (c_directives c) (c_doc c) (c_options c) (c_atDirectives c)
             (c_prelude c ++ [s]) (c_errors c) (c_warnings c).

Definition onError (c : Composer) (r : Report) : Composer :=
  let pos := getErrorPos (r_source r) in
  if r_warning r
  then push_warning c (mkYAMLError YAMLWarning pos (r_code r) (r_message r))
  else push_error c (mkYAMLError YAMLParseError pos (r_code r) (r_message r)).

Definition onErrors (c : Composer) (rs : list Report) : Composer :=
  fold_left onError rs c.

(** [decorate(doc, afterDoc)]: the composer and the document after it. *)
Definition decorate (c : Composer) (doc : Doc) (afterDoc : bool)
    : Composer * Doc :=
  let '(cmt, afterEmptyLine) := parsePrelude (c_prelude c) in
  let doc :=
    if truthy (Some cmt) then
      if afterDoc then
        set_comment doc
          (Some (if truthy (comment doc)
                 then or_empty (comment doc) +++ newline +++ cmt
                 else cmt))
      else if afterEmptyLine || docStart (directives doc) || is_null (contents doc)
      then set_commentBefore doc (Some cmt)
      else
        match contents doc with
        | Some (Collection cb r false (it :: rest)) =>
            set_contents doc
              (Some (Collection cb r false (decorate_first cmt it :: rest)))
        | Some dc =>
            set_contents doc
              (Some (set_node_commentBefore dc
                       (Some (prepend_comment cmt (node_commentBefore dc)))))
        | None => doc                          (* [!dc] has been tested *)
        end
    else doc in
  let doc :=
    if afterDoc
    then set_errors doc (errors doc ++ c_errors c) (warnings doc ++ c_warnings c)
    else set_errors doc (c_errors c) (c_warnings c) in
  (mkComposer (c_directives c) (c_doc c) (c_options c) (c_atDirectives c) [] [] [],
   doc).

(** [streamInfo()] *)
Definition streamInfo (c : Composer)
    : string * Directives * list YAMLError * list YAMLError :=
  (fst (parsePrelude (c_prelude c)), c_directives c, c_errors c, c_warnings c).

(** The tokens [next] distinguishes by [token.type]. *)
Inductive Token : Type :=
| TDirective (offset : Z) (source : string)
| TDocument (d : Cst.Document)
| TSource (s : SourceToken)
| TError (offset : Z) (source : string) (message : string)
| TDocEnd (offset : Z) (source : string) (end_ : option (list SourceToken))
| TOther (type : string) (offset : Z) (source : option string).

Definition set_doc (c : Composer) (d : option Doc) : Composer :=
  mkComposer (c_directives c) d (c_options c) (c_atDirectives c)
             (c_prelude c) (c_errors c) (c_warnings c).

Definition set_atDirectives (c : Composer) (b : bool) : Composer :=
  mkComposer (c_directives c) (c_doc c) (c_options c) b
             (c_prelude c) (c_errors c) (c_warnings c).

Definition set_directives (c : Composer) (d : Directives) : Composer :=
  mkComposer d (c_doc c) (c_options c) (c_atDirectives c)
             (c_prelude c) (c_errors c) (c_warnings c).

Definition unsupported (c : Composer) (src : ErrorSource) (type : string)
    : Composer :=
  push_error c
    (mkYAMLError YAMLParseError (getErrorPos src) "UNEXPECTED_TOKEN"
       ("Unsupported token " +++ type)).

(** The calls [directives.add] makes to its callback, as [next] passes them
    on to [onError]: [pos = getErrorPos(token); pos[0] += offset]. *)
Definition directive_reports (offset : Z) (source : string)
    (cbs : list (Z * string * bool)) : list Report :=
  map (fun cb : Z * string * bool =>
         let '(off, message, warning) := cb in
         let pos := getErrorPos (SrcToken offset (Some source)) in
         mkReport (SrcPair (fst pos + off) (snd pos)) "BAD_DIRECTIVE"
                  message warning)
      cbs.

(** [*next(token)]: the composer after the token and the documents
    yielded, in order. (The [LOG_STREAM] dump of the token to the console
    is left out.) A buffered document has a range, which [composeDoc] sets;
    on one that had none, [this.doc.range[2] = end.offset] of the [doc-end]
    case would throw, and the result given here for it is not that of the
    code. *)
Definition next (c : Composer) (token : Token) : Composer * list Doc :=
  match token with
  | TDirective offset source =>
      let '(dirs, cbs) := Directives_add (c_directives c) source in
      let c := set_directives c dirs in
      let c := onErrors c (directive_reports offset source cbs) in
      (set_atDirectives (push_prelude c source) true, [])
  | TDocument d =>
      let '(doc, dirs, reports) := composeDoc (c_options c) (c_directives c) d in
      let c := onErrors (set_directives c dirs) reports in
      let c :=
        if c_atDirectives c && negb (docStart (directives doc))
        then onError c
               (mkReport (SrcToken (Cst.doc_offset d) None) "MISSING_CHAR"
                  "Missing directives-end/doc-start indicator line" false)
        else c in
      let '(c, doc) := decorate c doc false in
      (set_atDirectives (set_doc c (Some doc)) false,
       match c_doc c with Some old => [old] | None => [] end)
  | TSource s =>
      if String.eqb (st_type s) "byte-order-mark" || String.eqb (st_type s) "space"
      then (c, [])
      else if String.eqb (st_type s) "comment" || String.eqb (st_type s) "newline"
      then (push_prelude c (st_source s), [])
      else (unsupported c (SrcToken (st_offset s) (Some (st_source s))) (st_type s),
            [])
  | TError offset source message =>
      let msg :=
        if truthy (Some source)
        then message +++ ": " +++ JSON_stringify source
        else message in
      let error :=
        mkYAMLError YAMLParseError (getErrorPos (SrcToken offset (Some source)))
                    "UNEXPECTED_TOKEN" msg in
      match c_atDirectives c, c_doc c with
      | false, Some doc =>
          (set_doc c (Some (set_errors doc (errors doc ++ [error]) (warnings doc))),
           [])
      | _, _ => (push_error c error, [])
      end
  | TDocEnd offset source end_ =>
      match c_doc c with
      | None =>
          (push_error c
             (mkYAMLError YAMLParseError
                (getErrorPos (SrcToken offset (Some source))) "UNEXPECTED_TOKEN"
                "Unexpected doc-end without preceding document"),
           [])
      | Some doc =>
          let doc := set_docEnd doc in
          let '(e, reports) :=
            resolveEnd end_ (offset + Z.of_nat (String.length source))
                       (strict (options doc)) in
          let c := onErrors c reports in
          let '(c, doc) := decorate c doc true in
          let doc :=
            if truthy (Some (re_comment e))
            then set_comment doc
                   (Some (if truthy (comment doc)
                          then or_empty (comment doc) +++ newline +++ re_comment e
                          else re_comment e))
            else doc in
          let doc :=
            set_range doc
              (option_map (fun r : Range => (fst (fst r), snd (fst r), re_offset e))
                          (range doc)) in
          (set_doc c (Some doc), [])
      end
  | TOther type offset source => (unsupported c (SrcToken offset source) type, [])
  end.

(** [*end(forceDoc, endOffset)] *)
Definition end_ (c : Composer) (forceDoc : bool) (endOffset : Z)
    : Composer * list Doc :=
  match c_doc c with
  | Some doc =>
      let '(c, doc) := decorate c doc true in
      (set_doc c None, [doc])
  | None =>
      if forceDoc then
        let '(doc, dirs) := Document_new (c_options c) (c_directives c) in
        let c := set_directives c dirs in
        let c :=
          if c_atDirectives c
          then onError c
                 (mkReport (SrcNumber endOffset) "MISSING_CHAR"
                    "Missing directives-end indicator line" false)
          else c in
        let doc := set_range doc (Some (0, endOffset, endOffset)) in
        let '(c, doc) := decorate c doc false in
        (c, [doc])
      else (c, [])
  end.

(** [*compose(tokens, forceDoc, endOffset)] *)
Fixpoint compose_tokens (c : Composer) (tokens : list Token)
    : Composer * list Doc :=
  match tokens with
  | [] => (c, [])
  | token :: rest =>
      let '(c1, out1) := next c token in
      let '(c2, out2) := compose_tokens c1 rest in
      (c2, out1 ++ out2)
  end.

Definition compose (c : Composer) (tokens : list Token) (forceDoc : bool)
    (endOffset : Z) : Composer * list Doc :=
  let '(c1, out1) := compose_tokens c tokens in
  let '(c2, out2) := end_ c1 forceDoc endOffset in
  (c2, out1 ++ out2).

End Composer.

(** *** Notions used to state the properties of the composer *)

(** The errors and the warnings that a run of [onError] calls adds. *)
Definition error_of (r : Report) : YAMLError :=
  mkYAMLError (if r_warning r then YAMLWarning else YAMLParseError)
              (getErrorPos (r_source r)) (r_code r) (r_message r).

Definition errors_of (rs : list Report) : list YAMLError :=
  map error_of (filter (fun r => negb (r_warning r)) rs).

Definition warnings_of (rs : list Report) : list YAMLError :=
  map error_of (filter r_warning rs).

(** The error [next] reports for a document that follows a directive
    without a directives-end marker. *)
Definition missing_doc_start (offset : Z) : YAMLError :=
  mkYAMLError YAMLParseError (offset, offset + 1) "MISSING_CHAR"
              "Missing directives-end/doc-start indicator line".

(** The error [next] reports for a doc-end marker with no document before
    it. *)
Definition stray_doc_end (offset : Z) (source : string) : YAMLError :=
  mkYAMLError YAMLParseError (offset, offset + Z.of_nat (String.length source))
              "UNEXPECTED_TOKEN" "Unexpected doc-end without preceding document".

(** The report [composeDoc] makes for a block collection on the line of
    the directives-end marker. *)
Definition same_line_report (at_ : Z) : Report :=
  mkReport (SrcNumber at_) "MISSING_CHAR"
           "Block collection cannot start on same line with directives-end marker"
           false.

(** The text of a comment as the spec words it: the [#] marker stripped and
    one leading space, if there is one, dropped. *)
Definition marker_and_space_stripped (source : string) : string :=
  match source with
  | String "#" (String " " text) => text
  | String "#" text => text
  | _ => source
  end.

(** The text of a comment as [parsePrelude] keeps it: what follows the [#]
    marker, or one space when nothing does. *)
Definition text_after_marker (text : string) : string :=
  match text with "" => " " | _ => text end.

(** The prelude and the stream-level error and warning lists are empty. *)
Definition drained (Directives Options : Type)
    (c : Composer Directives Options) : Prop :=
  c_prelude c = [] /\ c_errors c = [] /\ c_warnings c = [].

(** A line of the prelude that is neither a comment nor a directive: the
    [default] case of [parsePrelude]. *)
Definition plain (s : string) : bool :=
  match s with
  | String "#" _ => false
  | String "%" _ => false
  | _ => true
  end.

(** A line that does not start with the comment marker. *)
Definition not_comment (s : string) : bool :=
  match s with
  | String "#" _ => false
  | _ => true
  end.

(** The comment lines with the given texts. *)
Definition comment_lines (texts : list string) : list string :=
  map (String "#") texts.

(** Directive lines, each with the line that follows it. *)
Definition directive_lines (ds : list (string * string)) : list string :=
  flat_map (fun d => [String "%" (fst d); snd d]) ds.

(** [old ? `${old}\n${added}` : added], for an [added] that is not empty;
    [old] as it is otherwise. *)
Definition append_comment (old : option string) (added : string)
    : option string :=
  if truthy (Some added)
  then Some (if truthy old then or_empty old +++ newline +++ added else added)
  else old.

(** The node with a comment put before it the way [decorate] does for the
    contents of a document: on the first item (or its key) of a block
    collection that has items, on the node itself otherwise. *)
Definition comment_on_contents (cmt : string) (dc : Node) : Node :=
  match dc with
  | Collection cb r false (it :: rest) =>
      Collection cb r false (decorate_first cmt it :: rest)
  | _ =>
      set_node_commentBefore dc
        (Some (prepend_comment cmt (node_commentBefore dc)))
  end.

(** The document spans among the tokens, in order. *)
Fixpoint doc_spans (tokens : list Token) : list Cst.Document :=
  match tokens with
  | [] => []
  | TDocument d :: rest => d :: doc_spans rest
  | _ :: rest => doc_spans rest
  end.

(** Where the range of a document starts. *)
Definition range_start (Directives Options : Type)
    (d : Doc Directives Options) : option Z :=
  option_map (fun r : Range => fst (fst r)) (range d).

(** The document the composer holds back, if any. *)
Definition buffered (Directives Options : Type)
    (c : Composer Directives Options) : list (Doc Directives Options) :=
  match c_doc c with Some d => [d] | None => [] end.

(** The tokens that [next] ignores or only puts in the prelude, and what
    they put there. *)
Definition prelude_only (t : Token) : bool :=
  match t with
  | TSource s =>
      String.eqb (st_type s) "byte-order-mark" || String.eqb (st_type s) "space"
      || String.eqb (st_type s) "comment" || String.eqb (st_type s) "newline"
  | _ => false
  end.

Fixpoint prelude_sources (tokens : list Token) : list string :=
  match tokens with
  | [] => []
  | TSource s :: rest =>
      if String.eqb (st_type s) "comment" || String.eqb (st_type s) "newline"
      then st_source s :: prelude_sources rest
      else prelude_sources rest
  | _ :: rest => prelude_sources rest
  end.

(** The error [end] reports for directives that no document follows. *)
Definition missing_directives_end (endOffset : Z) : YAMLError :=
  mkYAMLError YAMLParseError (endOffset, endOffset + 1) "MISSING_CHAR"
              "Missing directives-end indicator line".

(** The error [next] makes of an [error] token. *)
Definition unexpected_token (JSON_stringify : string -> string) (offset : Z)
    (source message : string) : YAMLError :=
  mkYAMLError YAMLParseError (offset, offset + Z.of_nat (String.length source))
    "UNEXPECTED_TOKEN"
    (if truthy (Some source)
     then message +++ ": " +++ JSON_stringify source
     else message).

(** *** A stand-in for the rest of the library, to run the composer on *)

Module Sample.

(** Directives are the directive lines seen; the options are the [strict]
    flag; the leading span has a marker if it has a [doc-start] token and a
    newline if it has a [newline] token; nodes are scalars; nothing
    reports an error. *)
Definition Directives_add (d : list string) (line : string)
    : list string * list (Z * string * bool) :=
  (d ++ [line], []).

Definition atDocument (d : list string) : list string * list string := (d, d).

Record Props : Type := mkProps {
  found : bool;
  hasNewline : bool;
  props_end : Z
}.

Definition has_type (ty : string) (s : SourceToken) : bool :=
  String.eqb (st_type s) ty.

Definition resolveProps (start : list SourceToken) (q : PropsQuery)
    : Props * list Report :=
  (mkProps (existsb (has_type "doc-start") start)
           (existsb (has_type "newline") start)
           (fold_left (fun o s => o + Z.of_nat (String.length (st_source s)))
                      start (q_offset q)),
   []).

Definition composeNode (ctx : ComposeContext (list string) bool)
    (t : Cst.Token) (p : Props) : Node * list Report :=
  (Scalar None (props_end p, props_end p + 1, props_end p + 1) (token_type t),
   []).

Definition composeEmptyNode (ctx : ComposeContext (list string) bool)
    (pos : Z) (start : list SourceToken) (p : Props) : Node * list Report :=
  (Scalar None (pos, pos, pos) "", []).

Definition resolveEnd (e : option (list SourceToken)) (offset : Z)
    (strict : bool) : ResolvedEnd * list Report :=
  (mkResolvedEnd "" offset, []).

(** [JSON.stringify] of a string: the string between double quotes, with
    the double quote, the backslash and the control characters escaped.
    Characters outside ASCII are kept as they are. *)
Definition double_quote : ascii := ascii_of_nat 34.

Definition backslash : ascii := ascii_of_nat 92.

Definition hex_digit (n : nat) : ascii :=
  nth n ["0"; "1"; "2"; "3"; "4"; "5"; "6"; "7"; "8"; "9";
         "a"; "b"; "c"; "d"; "e"; "f"]%char "0"%char.

Definition JSON_escape (a : ascii) : string :=
  let n := nat_of_ascii a in
  if Nat.eqb n 8 then String backslash "b"
  else if Nat.eqb n 9 then String backslash "t"
  else if Nat.eqb n 10 then String backslash "n"
  else if Nat.eqb n 12 then String backslash "f"
  else if Nat.eqb n 13 then String backslash "r"
  else if Nat.eqb n 34 then String backslash (String double_quote "")
  else if Nat.eqb n 92 then String backslash (String backslash "")
  else if Nat.ltb n 32
  then String backslash
         ("u00" +++ String (hex_digit (Nat.div n 16))
                      (String (hex_digit (Nat.modulo n 16)) ""))
  else String a "".

Fixpoint JSON_escape_all (s : string) : string :=
  match s with
  | EmptyString => ""
  | String a rest => JSON_escape a +++ JSON_escape_all rest
  end.

Definition JSON_stringify (s : string) : string :=
  String double_quote (JSON_escape_all s +++ String double_quote "").

Definition compose :=
  Compose.compose (fun o : bool => o) Directives_add atDocument
    found hasNewline props_end resolveProps composeNode composeEmptyNode
    resolveEnd JSON_stringify.

Definition next :=
  Compose.next (fun o : bool => o) Directives_add atDocument
    found hasNewline props_end resolveProps composeNode composeEmptyNode
    resolveEnd JSON_stringify.

Definition composeDoc :=
  Compose.composeDoc atDocument found hasNewline props_end resolveProps
    composeNode composeEmptyNode resolveEnd.

Definition fresh : Composer (list string) bool := Composer_new [] true.

(** A document span that holds a scalar with nothing before it. *)
Definition bare_document : Cst.Document :=
  Cst.mkDocument 16 [] (Some (Cst.Leaf "scalar" "b")) None.

(** A block map on the line of the marker. *)
Definition same_line_document : Cst.Document :=
  Cst.mkDocument 0 [mkSourceToken "doc-start" 0 0 "---"]
    (Some (Cst.Coll "block-map" [])) None.

(** A composer that has seen a comment and the newline after it. *)
Definition commented : Composer (list string) bool :=
  push_prelude (push_prelude fresh "# note") "".

(** A document that holds a scalar. *)
Definition scalar_doc : Doc (list string) bool :=
  set_contents (fst (Document_new atDocument true []))
               (Some (Scalar None (0, 1, 1) "x")).

(** The composer after a document span and a comment, and the document it
    has buffered. *)
Definition composed : Composer (list string) bool :=
  fst (next (fst (next fresh (TDocument bare_document)))
            (TSource (mkSourceToken "comment" 18 0 "# tail"))).

Definition buffered_doc : Doc (list string) bool :=
  match c_doc composed with Some d => d | None => scalar_doc end.

(** A comment, the newline after it and the indentation of the next
    line. *)
Definition comment_tokens : list Token :=
  [TSource (mkSourceToken "comment" 0 0 "# a");
   TSource (mkSourceToken "newline" 3 0 "");
   TSource (mkSourceToken "space" 4 0 "  ")].

End Sample.

End Compose.

(** ** The tag registry *)

Module Tags.

Local Open Scope string_scope.
Local Open Scope list_scope.
Local Infix "+++" := String.append (at level 60, right associativity).

(** The tag objects that [tags.ts] and the YAML 1.1 schema import, and the
    two schemas that [tags.ts] imports as arrays. [tags.ts] takes its
    float and integer tags from [core/], the YAML 1.1 schema takes its own
    from [yaml-1.1/]: these are different objects. The tags named [map],
    [seq], [string], [set], [float] and [int] in the source carry the
    suffix [Tag] here. *)
Record Imports (T : Type) : Type := mkImports {
  mapTag : T;
  nullTag : T;
  seqTag : T;
  stringTag : T;
  boolTag : T;
  floatTag : T;
  floatExp : T;
  floatNaN : T;
  intTag : T;
  intHex : T;
  intOct : T;
  core : list T;
  json : list T;
  binary : T;
  omap : T;
  pairs : T;
  setTag : T;
  floatTime : T;
  intTime : T;
  timestamp : T;
  trueTag : T;
  falseTag : T;
  intBin : T;
  yaml11_floatTag : T;
  yaml11_floatExp : T;
  yaml11_floatNaN : T;
  yaml11_intTag : T;
  yaml11_intHex : T;
  yaml11_intOct : T
}.

(** [map.get(key)] of a [Map] and [obj[key]] for the own properties of an
    object literal, both with distinct keys in insertion order. *)
Fixpoint lookup (V : Type) (k : string) (m : list (string * V)) : option V :=
  match m with
  | [] => None
  | (k', v) :: rest => if String.eqb k k' then Some v else lookup k rest
  end.

(** The double quote. *)
Definition quote : string := String (ascii_of_nat 34) "".

(** [JSON.stringify(key)] for a key that holds no character to escape,
    which is the case of every key of [schemas] and [tagsByName]. *)
Definition JSON_stringify (key : string) : string := quote +++ key +++ quote.

(** [keys.map(key => JSON.stringify(key)).join(', ')] *)
Definition listed_keys (keys : list string) : string :=
  String.concat ", " (map JSON_stringify keys).

Section Registry.

Variable T : Type.
Variable lib : Imports T.

(** Which property names the object literal [tagsByName] answers through
    its prototype with a value that is truthy ([constructor], [toString]
    and the like): [tagsByName[tag]] reads them when [tag] is no own
    key. *)
Variable inherited : string -> bool.

(** An element of a [Tags] array: a tag object or the identifier of one. *)
Inductive Tag : Type :=
| Obj (o : T)
| Name (id : string).

(** An element of the array that [getTags] returns: a tag object, or what
    the prototype of [tagsByName] holds under a name. *)
Inductive Entry : Type :=
| TagObject (o : T)
| Property (name : string).

(** [yaml-1.1/schema.ts] *)
Definition yaml11 : list T :=
  [mapTag lib; seqTag lib; stringTag lib; nullTag lib; trueTag lib;
   falseTag lib; intBin lib; yaml11_intOct lib; yaml11_intTag lib;
   yaml11_intHex lib; yaml11_floatNaN lib; yaml11_floatExp lib;
   yaml11_floatTag lib; binary lib; omap lib; pairs lib; setTag lib;
   intTime lib; floatTime lib; timestamp lib].

Definition schemas : list (string * list T) :=
  [("core", core lib);
   ("failsafe", [mapTag lib; seqTag lib; stringTag lib]);
   ("json", json lib);
   ("yaml11", yaml11);
   ("yaml-1.1", yaml11)].

Definition tagsByName : list (string * T) :=
  [("binary", binary lib);
   ("bool", boolTag lib);
   ("float", floatTag lib);
   ("floatExp", floatExp lib);
   ("floatNaN", floatNaN lib);
   ("floatTime", floatTime lib);
   ("int", intTag lib);
   ("intHex", intHex lib);
   ("intOct", intOct lib);
   ("intTime", intTime lib);
   ("map", mapTag lib);
   ("null", nullTag lib);
   ("omap", omap lib);
   ("pairs", pairs lib);
   ("seq", seqTag lib);
   ("set", setTag lib);
   ("timestamp", timestamp lib)].

(** [customTags]: [undefined] or [null], an array, or a function. The
    function is taken to return and not to change the array it is handed,
    which is a copy ([tags.slice()]). *)
Inductive CustomTags : Type :=
| NoCustomTags
| TagArray (tags : list Tag)
| TagFunction (f : list Tag -> list Tag).

Definition unknown_schema (schemaName : string) : string :=
  "Unknown schema " +++ quote +++ schemaName +++ quote +++ "; use one of "
  +++ listed_keys
        (filter (fun key => negb (String.eqb key "yaml11")) (map fst schemas))
  +++ " or define customTags array".

Definition unknown_custom_tag (tag : string) : string :=
  "Unknown custom tag " +++ quote +++ tag +++ quote +++ "; use one of "
  +++ listed_keys (map fst tagsByName).

(** The callback of [tags.map] at the end of [getTags]. *)
Definition resolve (tag : Tag) : Outcome Entry :=
  match tag with
  | Obj o => Returned (TagObject o)
  | Name id =>
      match lookup id tagsByName with
      | Some tagObj => Returned (TagObject tagObj)
      | None =>
          if inherited id then Returned (Property id)
          else Threw (Error (unknown_custom_tag id))
      end
  end.

(** [tags.map(...)]: in order, and no further than the first throw. *)
Fixpoint resolve_all (tags : list Tag) : Outcome (list Entry) :=
  match tags with
  | [] => Returned []
  | tag :: rest =>
      match resolve tag with
      | Returned e =>
          match resolve_all rest with
          | Returned es => Returned (e :: es)
          | Threw x => Threw x
          | OutOfFuel => OutOfFuel
          end
      | Threw x => Threw x
      | OutOfFuel => OutOfFuel
      end
  end.

(** [getTags(customTags, schemaName)]. An element of [customTags] is a
    tag object or a string and no array, so that [tags.concat(tag)] adds
    it as one element. *)
Definition getTags (customTags : CustomTags) (schemaName : string)
    : Outcome (list Entry) :=
  let found :=
    match lookup schemaName schemas with
    | Some tags => Returned (map Obj tags)
    | None =>
        match customTags with
        | TagArray _ => Returned []
        | _ => Threw (Error (unknown_schema schemaName))
        end
    end in
  match found with
  | Returned tags =>
      let tags :=
        match customTags with
        | TagArray custom => fold_left (fun tags tag => tags ++ [tag]) custom tags
        | TagFunction f => f tags
        | NoCustomTags => tags
        end in
      resolve_all tags
  | Threw e => Threw e
  | OutOfFuel => OutOfFuel
  end.

(** *** Notions used to state the properties of the registry *)

(** The tags of a schema, none for a name that is not a schema. *)
Definition schema_tags (schemaName : string) : list T :=
  match lookup schemaName schemas with Some tags => tags | None => [] end.

(** The elements that [getTags] resolves without throwing. *)
Definition accepted (tag : Tag) : bool :=
  match tag with
  | Obj _ => true
  | Name id =>
      match lookup id tagsByName with
      | Some _ => true
      | None => inherited id
      end
  end.

Definition is_array (customTags : CustomTags) : bool :=
  match customTags with TagArray _ => true | _ => false end.

End Registry.

(** A library whose tag objects are their names, on an engine whose
    [Object.prototype] has the standard properties. *)
Module Sample.

Definition lib : Imports string :=
  mkImports "map" "null" "seq" "string" "bool" "float" "floatExp" "floatNaN"
    "int" "intHex" "intOct"
    ["map"; "seq"; "string"; "null"; "bool"; "intOct"; "int"; "intHex";
     "floatNaN"; "floatExp"; "float"]
    ["map"; "seq"; "json string"; "json null"; "json bool"; "json int";
     "json float"]
    "binary" "omap" "pairs" "set" "floatTime" "intTime" "timestamp"
    "true" "false" "intBin" "yaml11 float" "yaml11 floatExp" "yaml11 floatNaN"
    "yaml11 int" "yaml11 intHex" "yaml11 intOct".

Definition Object_prototype (name : string) : bool :=
  existsb (String.eqb name)
    ["constructor"; "hasOwnProperty"; "isPrototypeOf"; "propertyIsEnumerable";
     "toLocaleString"; "toString"; "valueOf"; "__proto__";
     "__defineGetter__"; "__defineSetter__"; "__lookupGetter__";
     "__lookupSetter__"].

Definition getTags := getTags lib Object_prototype.

End Sample.

End Tags.

(** ** The boolean tags of YAML 1.1 *)

Module Bool11.

Local Open Scope string_scope.
Local Open Scope list_scope.

(** A regular expression [/^(?:a|b|...)$/] whose alternatives are single
    strings, as the list of the strings it matches. *)
Definition matches (alternatives : list string) (s : string) : bool :=
  existsb (String.eqb s) alternatives.

(** [trueTag.test]: [/^(?:Y|y|[Yy]es|YES|[Tt]rue|TRUE|[Oo]n|ON)$/] *)
Definition trueTag_test : string -> bool :=
  matches ["Y"; "y"; "Yes"; "yes"; "YES"; "True"; "true"; "TRUE";
           "On"; "on"; "ON"].

(** [falseTag.test]: [/^(?:N|n|[Nn]o|NO|[Ff]alse|FALSE|[Oo]ff|OFF)$/] *)
Definition falseTag_test : string -> bool :=
  matches ["N"; "n"; "No"; "no"; "NO"; "False"; "false"; "FALSE";
           "Off"; "off"; "OFF"].

(** [ctx.options], as far as [boolStringify] reads it. *)
Record Options : Type := mkOptions {
  trueStr : string;
  falseStr : string
}.

(** [boolStringify({ value, source }, ctx)], for the boolean [value] that
    [identify] lets through. *)
Definition boolStringify (value : bool) (source : option string)
    (options : Options) : string :=
  let test := if value then trueTag_test else falseTag_test in
  if Compose.truthy source && test (Compose.or_empty source)
  then Compose.or_empty source
  else if value then trueStr options else falseStr options.

(** The test of the tag for a value, and of the tag for the other value. *)
Definition test_for (value : bool) : string -> bool :=
  if value then trueTag_test else falseTag_test.

End Bool11.

(** ** The float tag of the core schema *)

Module Float.

Local Open Scope string_scope.

(** [str.indexOf(c)] for a single character: [-1] when there is none. *)
Fixpoint indexOf (c : ascii) (str : string) : Z :=
  match str with
  | EmptyString => -1
  | String a rest =>
      if Ascii.eqb a c then 0
      else let i := indexOf c rest in if Z.eqb i (-1) then -1 else i + 1
  end.

(** [str[str.length - 1]]: [undefined] for the empty string. *)
Fixpoint last_char (str : string) : option ascii :=
  match str with
  | EmptyString => None
  | String a EmptyString => Some a
  | String _ rest => last_char rest
  end.

Definition is_char (c : ascii) (x : option ascii) : bool :=
  match x with Some a => Ascii.eqb a c | None => false end.

Section Resolve.

Variable Number : Type.
Variable parseFloat : string -> Number.

(** A [Scalar] as [float.resolve] leaves it. *)
Record Scalar : Type := mkScalar {
  value : Number;
  minFractionDigits : option Z
}.

(** [float.resolve(str)] *)
Definition resolve (str : string) : Scalar :=
  let node := mkScalar (parseFloat str) None in
  let dot := indexOf "." str in
  if negb (Z.eqb dot (-1)) && is_char "0" (last_char str)
  then mkScalar (value node)
                (Some (Z.of_nat (String.length str) - dot - 1))
  else node.

End Resolve.

(** *** Notions used to state the properties of the float tag *)

(** No character of the string is the given one. *)
Fixpoint without (c : ascii) (str : string) : bool :=
  match str with
  | EmptyString => true
  | String a rest => negb (Ascii.eqb a c) && without c rest
  end.

End Float.

(** * Properties of the CST visitor *)

Section CstFacts.

Import Cst.

(** ** Induction over a tree, and the equations of the tree functions *)

Lemma Item_tree_ind (P : Item -> Prop) :
  (forall st k sp v,
      Forall P (children k) -> Forall P (children v) ->
      P (MkItem st k sp v)) ->
  forall it, P it.
Proof.
  intros H. fix IH 1. intros [st k sp v]. apply H.
  - destruct k as [[ty s|ty l]|]; simpl; try constructor.
    induction l as [|x r IHr]; constructor; [apply IH | exact IHr].
  - destruct v as [[ty s|ty l]|]; simpl; try constructor.
    induction l as [|x r IHr]; constructor; [apply IH | exact IHr].
Qed.

Lemma size_eq st k sp v :
  size (MkItem st k sp v) = S (size_field k + size_field v).
Proof.
  change (size (MkItem st k sp v))
    with (S (match k with Some t => size_token t | None => O end
             + match v with Some t => size_token t | None => O end)).
  destruct k as [[|ty l]|], v as [[|ty' l']|]; reflexivity.
Qed.

Lemma preorder_token_Coll path field ty l :
  preorder_token path field (Coll ty l) = preorder_items path field l 0.
Proof.
  simpl. generalize 0. induction l as [|x r IH]; intros i; simpl;
    [reflexivity | now rewrite IH].
Qed.

Lemma preorder_eq path st k sp v :
  preorder path (MkItem st k sp v)
  = (path, MkItem st k sp v)
      :: preorder_field path FKey k ++ preorder_field path FValue v.
Proof.
  change (preorder path (MkItem st k sp v))
    with ((path, MkItem st k sp v)
            :: match k with Some t => preorder_token path FKey t | None => [] end
            ++ match v with Some t => preorder_token path FValue t | None => [] end).
  f_equal. f_equal.
  - destruct k as [[|ty l]|]; try reflexivity. apply preorder_token_Coll.
  - destruct v as [[|ty l]|]; try reflexivity. apply preorder_token_Coll.
Qed.

Lemma items_get_app pre x r :
  items_get (pre ++ x :: r) (Z.of_nat (List.length pre)) = Some x.
Proof.
  unfold items_get.
  destruct (Z.ltb_spec (Z.of_nat (List.length pre)) 0) as [H|_]; [lia|].
  rewrite Nat2Z.id. induction pre; simpl; auto.
Qed.

Lemma list_set_app pre x y r :
  list_set (pre ++ x :: r) (List.length pre) y = pre ++ y :: r.
Proof. induction pre as [|a pre IH]; simpl; [reflexivity | now rewrite IH]. Qed.

Lemma list_delete_app pre x r :
  list_delete (pre ++ x :: r) (List.length pre) = pre ++ r.
Proof. induction pre as [|a pre IH]; simpl; [reflexivity | now rewrite IH]. Qed.

Lemma items_put_app pre x y r :
  items_put (pre ++ x :: r) (Z.of_nat (List.length pre)) (Some y) = pre ++ y :: r.
Proof.
  unfold items_put.
  destruct (Z.ltb_spec (Z.of_nat (List.length pre)) 0) as [H|_]; [lia|].
  rewrite Nat2Z.id. apply list_set_app.
Qed.

Lemma splice1_app pre x r :
  splice1 (pre ++ x :: r) (Z.of_nat (List.length pre)) = pre ++ r.
Proof.
  unfold splice1.
  destruct (Z.ltb_spec (Z.of_nat (List.length pre)) 0) as [H|_]; [lia|].
  rewrite Z.min_l by (rewrite length_app; simpl; lia).
  rewrite Nat2Z.id. apply list_delete_app.
Qed.

Lemma set_field_same it f ty l :
  get_field it f = Some (Coll ty l) -> set_field it f (Coll ty l) = it.
Proof. destruct it, f; simpl; intros ->; reflexivity. Qed.

Section Walk.

Variable St : Type.

Lemma _visit_S fuel path item (visitor : Visitor St) w :
  _visit (S fuel) path item visitor w
  = let '(ctrl, w0) := invoke Entry visitor item path w in
    if is_symbol ctrl then Returned (ctrl, item, w0) else
    match item with
    | None => Threw TypeError
    | Some it =>
        match visit_field (visit_items fuel path visitor) path it FKey ctrl w0 with
        | Returned (FBreak it1 w1) => Returned (CSym BREAK, Some it1, w1)
        | Returned (FNext ctrl1 it1 w1) =>
            match visit_field (visit_items fuel path visitor) path it1 FValue ctrl1 w1 with
            | Returned (FBreak it2 w2) => Returned (CSym BREAK, Some it2, w2)
            | Returned (FNext ctrl2 it2 w2) =>
                match ctrl2 with
                | CFun f =>
                    let '(c, w3) := invoke Exit f (Some it2) path w2 in
                    Returned (c, Some it2, w3)
                | _ => Returned (ctrl2, Some it2, w2)
                end
            | Threw e => Threw e
            | OutOfFuel => OutOfFuel
            end
        | Threw e => Threw e
        | OutOfFuel => OutOfFuel
        end
    end.
Proof. reflexivity. Qed.

Lemma visit_items_S fuel path (visitor : Visitor St) field items i w :
  visit_items (S fuel) path visitor field items i w
  = if i <? Z.of_nat (List.length items) then
      match _visit fuel (path ++ [(field, i)]) (items_get items i) visitor w with
      | Returned (ci, child, w') =>
          let items' := items_put items i child in
          match ci with
          | CNum n => visit_items fuel path visitor field items' ((n - 1) + 1) w'
          | CSym BREAK => Returned (LBreak, items', w')
          | CSym REMOVE =>
              visit_items fuel path visitor field (splice1 items' i) ((i - 1) + 1) w'
          | _ => visit_items fuel path visitor field items' (i + 1) w'
          end
      | Threw e => Threw e
      | OutOfFuel => OutOfFuel
      end
    else Returned (LDone, items, w).
Proof. reflexivity. Qed.

(** *** A walk on which the visitor stays quiet *)

Variable visitor : Visitor St.
Variable Inv : St -> Prop.

Local Abbreviation quiet_below := (quiet_below visitor Inv).
Local Abbreviation quiet_walk := (quiet_walk visitor Inv).

Lemma quiet_below_step path f i :
  quiet_below path -> quiet_below (path ++ [(f, i)]).
Proof.
  intros H s item q Hs. rewrite <- app_assoc. apply H, Hs.
Qed.

Lemma quiet_loop path field l :
  Forall quiet_walk l ->
  (forall j, quiet_below (path ++ [(field, j)])) ->
  forall pre fuel w,
    Inv (vstate w) -> (1 + 2 * size_items l <= fuel)%nat ->
    exists w',
      visit_items fuel path visitor field (pre ++ l) (Z.of_nat (List.length pre)) w
      = Returned (LDone, pre ++ l, w')
      /\ calls w' = calls w
                    ++ entry_calls (preorder_items path field l
                                      (Z.of_nat (List.length pre)))
      /\ Inv (vstate w').
Proof.
  intros Hall Hq. induction Hall as [|x r Hx Hr IH]; intros pre fuel w Hw Hf.
  - destruct fuel as [|fuel]; [simpl in Hf; lia|].
    rewrite visit_items_S, app_nil_r.
    destruct (Z.ltb_spec (Z.of_nat (List.length pre)) (Z.of_nat (List.length pre)));
      [lia|].
    exists w. simpl. rewrite app_nil_r. auto.
  - destruct fuel as [|fuel]; [simpl in Hf; lia|].
    rewrite visit_items_S.
    destruct (Z.ltb_spec (Z.of_nat (List.length pre))
                (Z.of_nat (List.length (pre ++ x :: r)))) as [_|H];
      [|rewrite length_app in H; simpl in H; lia].
    rewrite items_get_app.
    assert (Hx1 : x :: r = [x] ++ r) by reflexivity.
    destruct (Hx fuel (path ++ [(field, Z.of_nat (List.length pre))]) w)
      as (w1 & E1 & C1 & I1); [apply Hq | exact Hw | |].
    { simpl in Hf. destruct x; rewrite size_eq in *. lia. }
    rewrite E1. cbv zeta. rewrite items_put_app.
    destruct (IH (pre ++ [x]) fuel w1 I1) as (w2 & E2 & C2 & I2).
    { simpl in Hf. destruct x; rewrite size_eq in *. lia. }
    rewrite <- app_assoc, length_app in E2. simpl in E2.
    replace (Z.of_nat (List.length pre + 1)) with (Z.of_nat (List.length pre) + 1)
      in E2 by lia.
    exists w2. split; [exact E2|]. split; [|exact I2].
    rewrite C2, C1. simpl. unfold entry_calls. rewrite map_app, <- app_assoc.
    rewrite length_app. simpl.
    replace (Z.of_nat (List.length pre + 1)) with (Z.of_nat (List.length pre) + 1)
      by lia.
    reflexivity.
Qed.

Lemma quiet_field path it field ctrl fuel w :
  Forall quiet_walk (children (get_field it field)) ->
  (forall j, quiet_below (path ++ [(field, j)])) -> Inv (vstate w) ->
  (1 + 2 * size_field (get_field it field) <= fuel)%nat ->
  (field = FKey -> forall f, ctrl <> CFun f) ->
  exists w',
    visit_field (visit_items fuel path visitor) path it field ctrl w
    = Returned (FNext ctrl it w')
    /\ calls w' = calls w
                  ++ entry_calls (preorder_field path field (get_field it field))
    /\ Inv (vstate w').
Proof.
  intros Hall Hq Hw Hf Hc. unfold visit_field.
  destruct (get_field it field) as [[ty s|ty l]|] eqn:E.
  - exists w. simpl. rewrite app_nil_r. auto.
  - simpl in Hall, Hf.
    destruct (@quiet_loop path field l Hall Hq [] fuel w Hw) as (w' & E1 & C1 & I1);
      [lia|].
    simpl in E1. rewrite E1. rewrite (set_field_same _ _ E).
    exists w'. split; [|split; [exact C1 | exact I1]].
    destruct ctrl; try reflexivity. destruct field; [|reflexivity].
    exfalso. eapply Hc; reflexivity.
  - exists w. simpl. rewrite app_nil_r. auto.
Qed.

Lemma quiet_walk_all it : quiet_walk it.
Proof.
  induction it as [st k sp v IHk IHv] using Item_tree_ind.
  intros fuel path w Hq Hw Hf. rewrite size_eq in Hf.
  destruct fuel as [|fuel]; [lia|].
  rewrite _visit_S. unfold invoke.
  destruct (Hq (vstate w) (Some (MkItem st k sp v)) [] Hw) as [Hc Hi].
  rewrite app_nil_r in Hc, Hi.
  destruct (visitor (vstate w) (Some (MkItem st k sp v)) path) as [c s] eqn:Ev.
  simpl in Hc, Hi. subst c. simpl is_symbol. cbv iota.
  set (w0 := mkWorld s (calls w ++ [mkCall Entry path (Some (MkItem st k sp v))])).
  destruct (@quiet_field path (MkItem st k sp v) FKey CUndef fuel w0)
    as (w1 & E1 & C1 & I1);
    [exact IHk | intros j; apply quiet_below_step, Hq | exact Hi | simpl; lia
    | discriminate |].
  rewrite E1.
  destruct (@quiet_field path (MkItem st k sp v) FValue CUndef fuel w1)
    as (w2 & E2 & C2 & I2);
    [exact IHv | intros j; apply quiet_below_step, Hq | exact I1 | simpl; lia
    | discriminate |].
  rewrite E2.
  exists w2. split; [reflexivity|]. split; [|exact I2].
  rewrite C2, C1, preorder_eq. unfold entry_calls, w0.
  simpl. rewrite map_app, <- !app_assoc. reflexivity.
Qed.

Lemma quiet_walks l : Forall quiet_walk l.
Proof. apply Forall_forall. intros x _. apply quiet_walk_all. Qed.

(** A field below whose items the visitor is quiet. *)
Lemma quiet_children path it field ctrl fuel w :
  (forall j, quiet_below (path ++ [(field, j)])) -> Inv (vstate w) ->
  (1 + 2 * size_field (get_field it field) <= fuel)%nat ->
  (field = FKey -> forall f, ctrl <> CFun f) ->
  exists w',
    visit_field (visit_items fuel path visitor) path it field ctrl w
    = Returned (FNext ctrl it w')
    /\ calls w' = calls w
                  ++ entry_calls (preorder_field path field (get_field it field))
    /\ Inv (vstate w').
Proof. apply quiet_field, quiet_walks. Qed.

Lemma size_pos it : (1 <= size it)%nat.
Proof. destruct it. rewrite size_eq. lia. Qed.

Lemma length_le_size_items l : (List.length l <= size_items l)%nat.
Proof.
  induction l as [|x r IH]; simpl; [lia|]. pose proof (size_pos x). lia.
Qed.

Lemma size_items_app a b :
  size_items (a ++ b) = (size_items a + size_items b)%nat.
Proof. induction a as [|x r IH]; simpl; [reflexivity | rewrite IH; lia]. Qed.

Lemma preorder_items_app path field a b i :
  preorder_items path field (a ++ b) i
  = preorder_items path field a i
      ++ preorder_items path field b (i + Z.of_nat (List.length a)).
Proof.
  revert i. induction a as [|x r IH]; intros i; simpl.
  - now replace (i + 0) with i by lia.
  - rewrite IH, <- app_assoc.
    now replace (i + 1 + Z.of_nat (List.length r))
      with (i + Z.pos (Pos.of_succ_nat (List.length r))) by lia.
Qed.

(** The loop passing over a stretch [l] of items below which the visitor
    is quiet: it comes out at the item after [l], one unit of fuel spent
    on each. *)
Lemma quiet_prefix path field l :
  forall pre rest fuel w,
    (forall j, (List.length pre <= j < List.length pre + List.length l)%nat ->
               quiet_below (path ++ [(field, Z.of_nat j)])) ->
    Inv (vstate w) -> (1 + 2 * size_items l <= fuel)%nat ->
    exists w',
      visit_items fuel path visitor field (pre ++ l ++ rest)
                  (Z.of_nat (List.length pre)) w
      = visit_items (fuel - List.length l) path visitor field (pre ++ l ++ rest)
                    (Z.of_nat (List.length pre + List.length l)) w'
      /\ calls w' = calls w
                    ++ entry_calls (preorder_items path field l
                                      (Z.of_nat (List.length pre)))
      /\ Inv (vstate w').
Proof.
  induction l as [|x r IH]; intros pre rest fuel w Hq Hw Hf.
  - exists w. simpl. rewrite Nat.sub_0_r, Nat.add_0_r, app_nil_r. auto.
  - destruct fuel as [|fuel]; [simpl in Hf; lia|].
    change ((x :: r) ++ rest) with (x :: (r ++ rest)).
    rewrite visit_items_S.
    destruct (Z.ltb_spec (Z.of_nat (List.length pre))
                (Z.of_nat (List.length (pre ++ x :: r ++ rest)))) as [_|H];
      [|rewrite !length_app in H; simpl in H; rewrite length_app in H; lia].
    rewrite items_get_app.
    pose proof (size_pos x) as Hx. simpl in Hf.
    destruct (@quiet_walk_all x fuel
                (path ++ [(field, Z.of_nat (List.length pre))]) w)
      as (w1 & E1 & C1 & I1); [apply Hq; simpl; lia | exact Hw | lia |].
    rewrite E1. cbv zeta. rewrite items_put_app.
    destruct (IH (pre ++ [x]) rest fuel w1) as (w2 & E2 & C2 & I2);
      [ | exact I1 | lia | ].
    { intros j Hj. apply Hq. rewrite length_app in Hj. simpl in *. lia. }
    rewrite <- app_assoc, length_app in E2. simpl in E2.
    replace (Z.of_nat (List.length pre + 1)) with (Z.of_nat (List.length pre) + 1)
      in E2 by lia.
    exists w2. split; [|split; [|exact I2]].
    + simpl. rewrite E2. f_equal. lia.
    + rewrite C2, C1. simpl. unfold entry_calls. rewrite map_app, <- app_assoc.
      rewrite length_app. simpl.
      replace (Z.of_nat (List.length pre + 1))
        with (Z.of_nat (List.length pre) + 1) by lia.
      reflexivity.
Qed.

(** *** A next visitor called after the key *)

(** C3, amended. Let the entry visitor hand out a next visitor [k] for an
    item whose key is a collection, let the walk of the key's items come
    to its end, and let [k], called after it, answer a control [c] that is
    not a function (a symbol such as [BREAK], a number or [undefined]).
    Then [c] is kept as the control of the item and is not acted on
    before the value is walked: where the visitor is quiet below the
    item's value, every item below the value is entered after the call of
    [k], and only then does [_visit] return [c] for the item. If [c] is
    [BREAK], the loop of the parent that holds the item stops there. *)
Theorem next_visitor_control_after_key_is_deferred
    (fuel : nat) (path : VisitPath) (it : Item) (w : World St)
    (k : Visitor St) (s0 s1 : St) (ty : string) (ks ks' : list Item)
    (w1 : World St) (c : Ctrl St) :
  visitor (vstate w) (Some it) path = (CFun k, s0) ->
  get_field it FKey = Some (Coll ty ks) ->
  visit_items fuel path visitor FKey ks 0
    (mkWorld s0 (calls w ++ [mkCall Entry path (Some it)]))
  = Returned (LDone, ks', w1) ->
  k (vstate w1) (Some (set_field it FKey (Coll ty ks'))) path = (c, s1) ->
  (forall f, c <> CFun f) ->
  (forall j, quiet_below (path ++ [(FValue, j)])) ->
  Inv s1 ->
  (1 + 2 * size_field (get_field it FValue) <= fuel)%nat ->
  exists w',
    _visit (S fuel) path (Some it) visitor w
    = Returned (c, Some (set_field it FKey (Coll ty ks')), w')
    /\ calls w'
       = calls w1
           ++ mkCall AfterKey path (Some (set_field it FKey (Coll ty ks')))
           :: entry_calls (preorder_field path FValue (get_field it FValue))
    /\ (c = CSym BREAK ->
        forall parent field items i,
          path = parent ++ [(field, i)] ->
          i < Z.of_nat (List.length items) ->
          items_get items i = Some it ->
          visit_items (S (S fuel)) parent visitor field items i w
          = Returned (LBreak,
                      items_put items i (Some (set_field it FKey (Coll ty ks'))),
                      w')).
Proof.
  intros Hentry Hkey Hloop Hk Hc Hq Hs1 Hf.
  set (it1 := set_field it FKey (Coll ty ks')) in *.
  set (w2 := mkWorld s1 (calls w1 ++ [mkCall AfterKey path (Some it1)])).
  assert (Hval : get_field it1 FValue = get_field it FValue)
    by (destruct it; reflexivity).
  destruct (@quiet_children path it1 FValue c fuel w2 Hq Hs1)
    as (w' & E & C & _); [rewrite Hval; exact Hf | discriminate |].
  assert (Hrun : _visit (S fuel) path (Some it) visitor w
                 = Returned (c, Some it1, w')).
  { rewrite _visit_S. unfold invoke at 1. rewrite Hentry. simpl is_symbol.
    cbv iota. unfold visit_field at 1. rewrite Hkey, Hloop.
    fold it1. unfold invoke. rewrite Hk. fold w2. rewrite E.
    destruct c; try reflexivity. exfalso. eapply Hc; reflexivity. }
  exists w'. split; [exact Hrun|]. split.
  - rewrite C, Hval. unfold w2. simpl. rewrite <- app_assoc. reflexivity.
  - intros -> parent field items i -> Hi Hget.
    rewrite visit_items_S.
    destruct (Z.ltb_spec i (Z.of_nat (List.length items))) as [_|H]; [|lia].
    rewrite Hget, Hrun. reflexivity.
Qed.

End Walk.

(** ** Which items the listing holds, and how often *)

Lemma itemAtPath_from_None p : itemAtPath_from None p = None.
Proof. destruct p as [|[f i] p]; reflexivity. Qed.

Lemma reaches_nil it x : reaches it [] x <-> x = it.
Proof.
  unfold reaches. simpl. split; [intros H; inversion H; reflexivity | now intros ->].
Qed.

Lemma reaches_cons it f i p x :
  reaches it ((f, i) :: p) x
  <-> exists child,
        items_get (children (get_field it f)) i = Some child
        /\ reaches child p x.
Proof.
  unfold reaches. simpl.
  destruct (get_field it f) as [[ty s|ty l]|]; simpl.
  - split; [discriminate | intros (c & H & _)].
    unfold items_get in H. destruct (i <? 0); [discriminate|].
    destruct (Z.to_nat i); discriminate.
  - destruct (items_get l i) as [c|]; simpl.
    + split; [intros H; exists c; auto | intros (c' & E & H); now inversion E].
    + rewrite itemAtPath_from_None. split; [discriminate | intros (c & H & _); discriminate].
  - split; [discriminate | intros (c & H & _)].
    unfold items_get in H. destruct (i <? 0); [discriminate|].
    destruct (Z.to_nat i); discriminate.
Qed.

Lemma listed_items cur f l :
  Forall listed l ->
  forall i0 q x, 0 <= i0 ->
    In (q, x) (preorder_items cur f l i0)
    <-> exists j child p,
          nth_error l j = Some child
          /\ q = cur ++ (f, i0 + Z.of_nat j) :: p
          /\ reaches child p x.
Proof.
  induction 1 as [|a r Ha Hr IH]; intros i0 q x Hi; simpl.
  - split; [tauto | intros (j & c & p & H & _); destruct j; discriminate].
  - rewrite in_app_iff, (Ha (cur ++ [(f, i0)]) q x), (IH (i0 + 1) q x) by lia.
    split.
    + intros [(p & -> & H)|(j & c & p & Hn & -> & H)].
      * exists O, a, p. rewrite <- app_assoc. simpl.
        replace (i0 + 0) with i0 by lia. auto.
      * exists (S j), c, p. simpl.
        replace (i0 + Z.pos (Pos.of_succ_nat j)) with (i0 + 1 + Z.of_nat j) by lia.
        auto.
    + intros (j & c & p & Hn & -> & H). destruct j as [|j]; simpl in Hn.
      * inversion Hn; subst c. left. exists p. rewrite <- app_assoc. simpl.
        replace (i0 + 0) with i0 by lia. auto.
      * right. exists j, c, p.
        replace (i0 + 1 + Z.of_nat j) with (i0 + Z.of_nat (S j)) by lia.
        auto.
Qed.

Lemma items_get_nth l i child :
  items_get l i = Some child
  <-> exists j, i = Z.of_nat j /\ nth_error l j = Some child.
Proof.
  unfold items_get. destruct (Z.ltb_spec i 0).
  - split; [discriminate | intros (j & -> & _); lia].
  - split.
    + intros E. exists (Z.to_nat i). split; [lia | exact E].
    + intros (j & -> & E). now rewrite Nat2Z.id.
Qed.

Lemma listed_field cur f t :
  Forall listed (children t) ->
  forall q x,
    In (q, x) (preorder_field cur f t)
    <-> exists i child p,
          items_get (children t) i = Some child
          /\ q = cur ++ (f, i) :: p
          /\ reaches child p x.
Proof.
  intros Hall q x. destruct t as [[ty s|ty l]|]; simpl in *.
  - split; [tauto | intros (i & c & p & H & _)].
    apply items_get_nth in H as (j & _ & H). destruct j; discriminate.
  - rewrite (listed_items cur f Hall) by lia. split.
    + intros (j & c & p & Hn & -> & H). exists (Z.of_nat j), c, p.
      split; [apply items_get_nth; eauto | auto].
    + intros (i & c & p & Hn & -> & H). apply items_get_nth in Hn as (j & -> & Hn).
      exists j, c, p. auto.
  - split; [tauto | intros (i & c & p & H & _)].
    apply items_get_nth in H as (j & _ & H). destruct j; discriminate.
Qed.

Lemma listed_all it : listed it.
Proof.
  induction it as [st k sp v IHk IHv] using Item_tree_ind.
  intros cur q x. rewrite preorder_eq. simpl. rewrite in_app_iff.
  rewrite (listed_field cur FKey k IHk), (listed_field cur FValue v IHv).
  split.
  - intros [E|[(i & c & p & Hn & -> & H)|(i & c & p & Hn & -> & H)]].
    + inversion E; subst. exists []. rewrite app_nil_r. split; [reflexivity|].
      now apply reaches_nil.
    + exists ((FKey, i) :: p). split; [reflexivity|]. apply reaches_cons. eauto.
    + exists ((FValue, i) :: p). split; [reflexivity|]. apply reaches_cons. eauto.
  - intros (p & -> & H). destruct p as [|[f i] p].
    + apply reaches_nil in H. subst. left. now rewrite app_nil_r.
    + apply reaches_cons in H as (c & Hn & H). right.
      destruct f; [left | right]; exists i, c, p; auto.
Qed.

Lemma field_paths cur f t q :
  In q (map fst (preorder_field cur f t)) -> exists i p, q = cur ++ (f, i) :: p.
Proof.
  intros H. apply in_map_iff in H as ([q' x] & <- & H).
  apply listed_field in H as (i & c & p & _ & -> & _); [simpl; eauto|].
  apply Forall_forall. intros y _. apply listed_all.
Qed.

Lemma items_paths cur f l i0 q :
  0 <= i0 ->
  In q (map fst (preorder_items cur f l i0)) ->
  exists i p, i0 <= i /\ q = cur ++ (f, i) :: p.
Proof.
  intros Hi H. apply in_map_iff in H as ([q' x] & <- & H).
  apply listed_items in H as (j & c & p & _ & -> & _); [|  | exact Hi].
  - exists (i0 + Z.of_nat j), p. split; [lia | reflexivity].
  - apply Forall_forall. intros y _. apply listed_all.
Qed.

Lemma item_paths cur it q :
  In q (map fst (preorder cur it)) -> exists p, q = cur ++ p.
Proof.
  intros H. apply in_map_iff in H as ([q' x] & <- & H).
  apply listed_all in H as (p & -> & _). simpl. eauto.
Qed.

Lemma once_items cur f l :
  Forall once l ->
  forall i0, 0 <= i0 -> NoDup (map fst (preorder_items cur f l i0)).
Proof.
  induction 1 as [|a r Ha Hr IH]; intros i0 Hi; simpl; [constructor|].
  rewrite map_app. apply NoDup_app; [apply Ha | apply IH; lia |].
  intros q H1 H2.
  apply item_paths in H1 as (p1 & ->).
  apply items_paths in H2 as (i & p2 & Hle & E); [|lia].
  rewrite <- app_assoc in E. apply app_inv_head in E. simpl in E.
  inversion E. lia.
Qed.

Lemma once_field cur f t :
  Forall once (children t) -> NoDup (map fst (preorder_field cur f t)).
Proof.
  intros H. destruct t as [[ty s|ty l]|]; simpl; try constructor.
  apply once_items; [exact H | lia].
Qed.

Lemma once_all it : once it.
Proof.
  induction it as [st k sp v IHk IHv] using Item_tree_ind.
  intros cur. rewrite preorder_eq. simpl. constructor.
  - rewrite map_app, in_app_iff.
    intros [H|H]; apply field_paths in H as (i & p & E);
      rewrite <- (app_nil_r cur) in E at 1; apply app_inv_head in E; discriminate.
  - rewrite map_app. apply NoDup_app; [now apply once_field | now apply once_field |].
    intros q H1 H2. apply field_paths in H1 as (i & p & ->).
    apply field_paths in H2 as (i' & p' & E). apply app_inv_head in E.
    discriminate.
Qed.

(** ** A next visitor that answers BREAK after the key *)

(** C3, as stated, fails: the next visitor called after the key of the
    sample item answers [BREAK], and the item under the value is entered
    all the same, after that call. *)
Lemma break_after_key_still_enters_value :
  fst (breaks tt (Some sample_item) []) = CSym BREAK
  /\ visit 6 (RItem sample_item) breaks_after_key (mkWorld tt [])
     = Returned
         (mkVisited (RItem sample_item)
            (mkWorld tt
               [mkCall Entry [] (Some sample_item);
                mkCall Entry [(FKey, 0)] (Some (leaf_item "a"));
                mkCall Entry [(FKey, 1)] (Some (leaf_item "b"));
                mkCall AfterKey [] (Some sample_item);
                mkCall Entry [(FValue, 0)] (Some (leaf_item "c"))])
            CUndef).
Proof. split; reflexivity. Qed.

Lemma next_visitor_control_after_key_is_deferred_witness :
  exists w',
    _visit 6 [] (Some sample_item) breaks_after_key (mkWorld tt [])
    = Returned
        (CSym BREAK,
         Some (set_field sample_item FKey
                 (Coll "flow-collection" [leaf_item "a"; leaf_item "b"])),
         w')
    /\ calls w'
       = [mkCall Entry [] (Some sample_item);
          mkCall Entry [(FKey, 0)] (Some (leaf_item "a"));
          mkCall Entry [(FKey, 1)] (Some (leaf_item "b"))]
           ++ mkCall AfterKey []
                (Some (set_field sample_item FKey
                         (Coll "flow-collection" [leaf_item "a"; leaf_item "b"])))
           :: entry_calls
                (preorder_field [] FValue (get_field sample_item FValue))
    /\ (@CSym unit BREAK = CSym BREAK ->
        forall parent field items i,
          [] = parent ++ [(field, i)] ->
          i < Z.of_nat (List.length items) ->
          items_get items i = Some sample_item ->
          visit_items 7 parent breaks_after_key field items i (mkWorld tt [])
          = Returned
              (LBreak,
               items_put items i
                 (Some (set_field sample_item FKey
                          (Coll "flow-collection" [leaf_item "a"; leaf_item "b"]))),
               w')).
Proof.
  apply (@next_visitor_control_after_key_is_deferred unit breaks_after_key
           (fun _ => True) 5%nat [] sample_item (mkWorld tt []) breaks tt tt
           "flow-collection" [leaf_item "a"; leaf_item "b"]
           [leaf_item "a"; leaf_item "b"]
           (mkWorld tt
              [mkCall Entry [] (Some sample_item);
               mkCall Entry [(FKey, 0)] (Some (leaf_item "a"));
               mkCall Entry [(FKey, 1)] (Some (leaf_item "b"))])
           (CSym BREAK)).
  - reflexivity.
  - reflexivity.
  - reflexivity.
  - reflexivity.
  - intros f H. discriminate H.
  - intros j s item q _. simpl. auto.
  - exact I.
  - vm_compute. lia.
Defined.

(** ** The visitor that removes one item *)

Lemma Field_eqb_eq a b : Field_eqb a b = true <-> a = b.
Proof. destruct a, b; simpl; split; congruence. Qed.

Lemma path_eqb_eq p q : path_eqb p q = true <-> p = q.
Proof.
  revert q. induction p as [|[f i] p IH]; intros [|[g j] q]; simpl;
    try (split; congruence).
  unfold step_eqb. simpl. rewrite !andb_true_iff, Field_eqb_eq, Z.eqb_eq, IH.
  split; [intros [[-> ->] ->]; reflexivity | intros E; inversion E; auto].
Qed.

Lemma fired_quiet P path : quiet_below (remove_once P) (fun s => s = true) path.
Proof. intros s item q ->. split; reflexivity. Qed.

Lemma unfired_quiet P path :
  (forall q, path ++ q <> P) ->
  quiet_below (remove_once P) (fun s => s = false) path.
Proof.
  intros H s item q ->. unfold remove_once. simpl.
  destruct (path_eqb (path ++ q) P) eqn:E; [|split; reflexivity].
  apply path_eqb_eq in E. elim (H q E).
Qed.

Lemma remove_once_fires P item :
  remove_once P false item P = (CSym REMOVE, true).
Proof.
  unfold remove_once. simpl.
  now rewrite (proj2 (path_eqb_eq P P) eq_refl).
Qed.

Lemma remove_once_waits P item path :
  path <> P -> remove_once P false item path = (CUndef, false).
Proof.
  intros H. unfold remove_once. simpl.
  destruct (path_eqb path P) eqn:E; [|reflexivity].
  apply path_eqb_eq in E. contradiction.
Qed.

Lemma spliced_within P x y before log after A A' B B0 :
  spliced P x y before log after ->
  map fst A' = map fst A ->
  spliced P x y (A ++ before ++ B0) (A ++ log ++ B) (A' ++ after ++ B).
Proof.
  intros (L1 & L1' & L2 & R & -> & -> & E & ->) EA.
  exists (A ++ L1), (A' ++ L1'), (L2 ++ B), (R ++ B0).
  rewrite <- !app_assoc. simpl. rewrite !map_app, E, EA. auto.
Qed.

(** The loop over the items that hold [x] at index [length l1], [x] being
    the item to remove. *)
Lemma loop_remove_here path field l1 x y l2 :
  let P := path ++ [(field, Z.of_nat (List.length l1))] in
  spliced P x y
    (preorder_items path field (l1 ++ x :: y :: l2) 0)
    (preorder_items path field l1 0
       ++ (P, x) :: preorder_items path field (y :: l2) (Z.of_nat (List.length l1)))
    (preorder_items path field (l1 ++ y :: l2) 0)
  /\ forall fuel w,
       vstate w = false ->
       (1 + 2 * size_items (l1 ++ x :: y :: l2) <= fuel)%nat ->
       exists w',
         visit_items fuel path (remove_once P) field (l1 ++ x :: y :: l2) 0 w
         = Returned (LDone, l1 ++ y :: l2, w')
         /\ vstate w' = true
         /\ calls w'
            = calls w
                ++ entry_calls
                     (preorder_items path field l1 0
                        ++ (P, x)
                        :: preorder_items path field (y :: l2)
                             (Z.of_nat (List.length l1))).
Proof.
  intros P. split.
  - rewrite !preorder_items_app. simpl.
    destruct y as [st k sp v], x as [st' k' sp' v']. rewrite !preorder_eq. fold P.
    eexists _, _, _, _. split; [reflexivity|]. split; [reflexivity|].
    split; reflexivity.
  - intros fuel w Hw Hf.
    rewrite size_items_app in Hf. simpl in Hf.
    pose proof (length_le_size_items l1) as Hl1.
    pose proof (size_pos x) as Hx.
    destruct (@quiet_prefix bool (remove_once P) (fun s => s = false)
                path field l1 [] (x :: y :: l2) fuel w)
      as (w1 & E1 & C1 & I1); [ | exact Hw | lia | ].
    { intros j Hj. apply unfired_quiet. intros q E. unfold P in E.
      rewrite <- app_assoc in E. apply app_inv_head in E. simpl in E.
      inversion E. simpl in Hj. lia. }
    simpl in E1. rewrite E1. clear E1.
    destruct (fuel - List.length l1)%nat as [|f2] eqn:Ef; [lia|].
    rewrite visit_items_S.
    destruct (Z.ltb_spec (Z.of_nat (List.length l1))
                (Z.of_nat (List.length (l1 ++ x :: y :: l2)))) as [_|H];
      [|rewrite length_app in H; simpl in H; lia].
    rewrite items_get_app. fold P.
    destruct f2 as [|f3]; [lia|].
    rewrite _visit_S. unfold invoke. rewrite I1, remove_once_fires.
    simpl is_symbol. cbv iota zeta. rewrite items_put_app, splice1_app.
    replace (Z.of_nat (List.length l1) - 1 + 1) with (Z.of_nat (List.length l1))
      by lia.
    set (w2 := mkWorld true (calls w1 ++ [mkCall Entry P (Some x)])).
    destruct (@quiet_loop bool (remove_once P) (fun s => s = true)
                path field (y :: l2) (quiet_walks _ _ _)
                (fun j => fired_quiet P _) l1 (S f3) w2 eq_refl)
      as (w' & E2 & C2 & I2); [simpl in *; lia|].
    exists w'. split; [exact E2|]. split; [exact I2|].
    rewrite C2. unfold w2. simpl calls. rewrite C1.
    unfold entry_calls. rewrite !map_app. simpl. rewrite <- !app_assoc.
    reflexivity.
Qed.

(** The loop over the items that hold at index [length l1] an item [c]
    below which the removal takes place. *)
Lemma loop_descend path field l1 c c' r P x y logc :
  (forall j q, (j < List.length l1)%nat ->
               (path ++ [(field, Z.of_nat j)]) ++ q <> P) ->
  spliced P x y
    (preorder (path ++ [(field, Z.of_nat (List.length l1))]) c) logc
    (preorder (path ++ [(field, Z.of_nat (List.length l1))]) c') ->
  (forall fuel w,
      vstate w = false -> (2 * size c <= fuel)%nat ->
      exists w',
        _visit fuel (path ++ [(field, Z.of_nat (List.length l1))]) (Some c)
               (remove_once P) w
        = Returned (CUndef, Some c', w')
        /\ vstate w' = true
        /\ calls w' = calls w ++ entry_calls logc) ->
  spliced P x y
    (preorder_items path field (l1 ++ c :: r) 0)
    (preorder_items path field l1 0
       ++ logc ++ preorder_items path field r (Z.of_nat (List.length l1) + 1))
    (preorder_items path field (l1 ++ c' :: r) 0)
  /\ forall fuel w,
       vstate w = false ->
       (1 + 2 * size_items (l1 ++ c :: r) <= fuel)%nat ->
       exists w',
         visit_items fuel path (remove_once P) field (l1 ++ c :: r) 0 w
         = Returned (LDone, l1 ++ c' :: r, w')
         /\ vstate w' = true
         /\ calls w'
            = calls w
                ++ entry_calls
                     (preorder_items path field l1 0
                        ++ logc
                        ++ preorder_items path field r
                             (Z.of_nat (List.length l1) + 1)).
Proof.
  intros Hpre Hsp Hchild. split.
  - rewrite !preorder_items_app. simpl.
    apply spliced_within; [exact Hsp | reflexivity].
  - intros fuel w Hw Hf.
    rewrite size_items_app in Hf. simpl in Hf.
    pose proof (length_le_size_items l1) as Hl1.
    pose proof (size_pos c) as Hx.
    destruct (@quiet_prefix bool (remove_once P) (fun s => s = false)
                path field l1 [] (c :: r) fuel w)
      as (w1 & E1 & C1 & I1); [ | exact Hw | lia | ].
    { intros j Hj. apply unfired_quiet. intros q. apply Hpre. simpl in Hj. lia. }
    simpl in E1. rewrite E1. clear E1.
    destruct (fuel - List.length l1)%nat as [|f2] eqn:Ef; [lia|].
    rewrite visit_items_S.
    destruct (Z.ltb_spec (Z.of_nat (List.length l1))
                (Z.of_nat (List.length (l1 ++ c :: r)))) as [_|H];
      [|rewrite length_app in H; simpl in H; lia].
    rewrite items_get_app.
    destruct (Hchild f2 w1 I1) as (w2 & E2 & I2 & C2); [lia|].
    rewrite E2. cbv zeta iota. rewrite items_put_app.
    destruct (@quiet_loop bool (remove_once P) (fun s => s = true)
                path field r (quiet_walks _ _ _)
                (fun j => fired_quiet P _) (l1 ++ [c']) f2 w2 I2)
      as (w' & E3 & C3 & I3); [lia|].
    rewrite <- app_assoc, length_app in E3. simpl in E3.
    replace (Z.of_nat (List.length l1 + 1)) with (Z.of_nat (List.length l1) + 1)
      in E3 by lia.
    exists w'. split; [exact E3|]. split; [exact I3|].
    rewrite C3, C2, C1, length_app. simpl.
    replace (Z.of_nat (List.length l1 + 1)) with (Z.of_nat (List.length l1) + 1)
      by lia.
    unfold entry_calls. rewrite !map_app, <- !app_assoc. reflexivity.
Qed.

Lemma get_set_field it f t : get_field (set_field it f t) f = Some t.
Proof. destruct it, f; reflexivity. Qed.

(** The walk of an item, given what the loop over the items of its field
    [f0] does, the removal taking place in or below that field. *)
Lemma item_around_loop cur it f0 ty items items' P x y logl :
  get_field it f0 = Some (Coll ty items) ->
  (exists j tl, P = cur ++ (f0, j) :: tl) ->
  spliced P x y (preorder_items cur f0 items 0) logl
    (preorder_items cur f0 items' 0) ->
  (forall fuel w,
      vstate w = false -> (1 + 2 * size_items items <= fuel)%nat ->
      exists w',
        visit_items fuel cur (remove_once P) f0 items 0 w
        = Returned (LDone, items', w')
        /\ vstate w' = true
        /\ calls w' = calls w ++ entry_calls logl) ->
  exists log,
    spliced P x y (preorder cur it) log
      (preorder cur (set_field it f0 (Coll ty items')))
    /\ forall fuel w,
         vstate w = false -> (2 * size it <= fuel)%nat ->
         exists w',
           _visit fuel cur (Some it) (remove_once P) w
           = Returned (CUndef, Some (set_field it f0 (Coll ty items')), w')
           /\ vstate w' = true
           /\ calls w' = calls w ++ entry_calls log.
Proof.
  intros Hget (j & tl & HP) Hsp Hloop.
  assert (Hcur : cur <> P).
  { rewrite HP. intros E. rewrite <- (app_nil_r cur) in E at 1.
    apply app_inv_head in E. discriminate. }
  destruct it as [st k sp v]. destruct f0; simpl in Hget; subst.
  - (* the removal is in the key *)
    exists ([(cur, MkItem st (Some (Coll ty items)) sp v)]
              ++ logl ++ preorder_field cur FValue v).
    split.
    + simpl set_field. rewrite !preorder_eq.
      change (preorder_field cur FKey (Some (Coll ty items')))
        with (preorder_items cur FKey items' 0).
      change (preorder_field cur FKey (Some (Coll ty items)))
        with (preorder_items cur FKey items 0).
      apply (@spliced_within _ x y _ logl _ [_] [_]); [exact Hsp | reflexivity].
    + intros fuel w Hw Hf. rewrite size_eq in Hf. simpl in Hf.
      destruct fuel as [|f1]; [lia|].
      rewrite _visit_S. unfold invoke. rewrite Hw, remove_once_waits by exact Hcur.
      simpl is_symbol. cbv iota. unfold visit_field at 1. simpl get_field.
      cbv beta iota.
      match goal with
      | |- context [visit_items f1 ?c ?vis FKey items 0 ?w0] =>
          destruct (Hloop f1 w0 eq_refl) as (w1 & E1 & I1 & C1); [lia|]
      end.
      rewrite E1. simpl set_field.
      destruct (@quiet_children bool (remove_once (cur ++ (FKey, j) :: tl))
                  (fun s => s = true) cur
                  (MkItem st (Some (Coll ty items')) sp v) FValue CUndef f1 w1)
        as (w2 & E2 & C2 & I2);
        [intros; apply fired_quiet | exact I1 | simpl; lia | discriminate |].
      rewrite E2. exists w2. split; [reflexivity|]. split; [exact I2|].
      rewrite C2, C1. simpl. unfold entry_calls. rewrite !map_app.
      simpl. rewrite <- !app_assoc. reflexivity.
  - (* the removal is in the value *)
    exists (((cur, MkItem st k sp (Some (Coll ty items)))
               :: preorder_field cur FKey k) ++ logl ++ []).
    split.
    + simpl set_field. rewrite !preorder_eq.
      change (preorder_field cur FValue (Some (Coll ty items')))
        with (preorder_items cur FValue items' 0).
      change (preorder_field cur FValue (Some (Coll ty items)))
        with (preorder_items cur FValue items 0).
      rewrite <- (app_nil_r (preorder_items cur FValue items' 0)).
      rewrite <- (app_nil_r (preorder_items cur FValue items 0)).
      apply (@spliced_within _ x y _ logl _ (_ :: _) (_ :: _));
        [exact Hsp | reflexivity].
    + intros fuel w Hw Hf. rewrite size_eq in Hf. simpl in Hf.
      destruct fuel as [|f1]; [lia|].
      rewrite _visit_S. unfold invoke. rewrite Hw, remove_once_waits by exact Hcur.
      simpl is_symbol. cbv iota.
      match goal with
      | |- context [visit_field _ cur ?it0 FKey CUndef ?w0] =>
          destruct (@quiet_children bool (remove_once (cur ++ (FValue, j) :: tl))
                      (fun s => s = false) cur it0 FKey CUndef f1 w0)
            as (w1 & E1 & C1 & I1)
      end.
      { intros j'. apply unfired_quiet. intros q E.
        rewrite <- app_assoc in E. apply app_inv_head in E. discriminate. }
      { reflexivity. }
      { simpl. lia. }
      { discriminate. }
      rewrite E1. unfold visit_field. simpl get_field. cbv beta iota.
      destruct (Hloop f1 w1 I1) as (w2 & E2 & I2 & C2); [lia|].
      rewrite E2. simpl set_field.
      exists w2. split; [reflexivity|]. split; [exact I2|].
      rewrite C2, C1. simpl. unfold entry_calls. rewrite !map_app.
      simpl. rewrite <- !app_assoc, app_nil_r. reflexivity.
Qed.

Lemma items_get_split l i c :
  items_get l i = Some c ->
  exists l1 r, l = l1 ++ c :: r /\ Z.of_nat (List.length l1) = i.
Proof.
  intros H. apply items_get_nth in H as (j & -> & H).
  apply nth_error_split in H as (l1 & r & -> & <-). eauto.
Qed.

Lemma items_get_next l1 x r y :
  items_get (l1 ++ x :: r) (Z.of_nat (List.length l1) + 1) = Some y ->
  exists l2, r = y :: l2.
Proof.
  intros H. apply items_get_nth in H as (j & Ej & H).
  assert (j = S (List.length l1)) by lia. subst j.
  rewrite nth_error_app2 in H by lia.
  replace (S (List.length l1) - List.length l1)%nat with 1%nat in H by lia.
  destruct r as [|y' l2]; simpl in H; [discriminate|].
  inversion H. eauto.
Qed.

Lemma children_get it f i c :
  items_get (children (get_field it f)) i = Some c ->
  exists ty, get_field it f = Some (Coll ty (children (get_field it f))).
Proof.
  destruct (get_field it f) as [[ty s|ty l]|]; simpl; intros H;
    try (apply items_get_nth in H as (j & _ & H); destruct j; discriminate).
  eauto.
Qed.

(** The walk with the visitor that removes, once, the item at the end of
    [Q ++ [(f, i)]] below [it], which has a next sibling [y]. *)
Lemma remove_walk Q :
  forall it cur f i x y,
    reaches it (Q ++ [(f, i)]) x ->
    reaches it (Q ++ [(f, i + 1)]) y ->
    exists it' log ty l1 l2,
      spliced (cur ++ Q ++ [(f, i)]) x y (preorder cur it) log (preorder cur it')
      /\ collectionAt it Q f = Some (Coll ty (l1 ++ x :: y :: l2))
      /\ Z.of_nat (List.length l1) = i
      /\ collectionAt it' Q f = Some (Coll ty (l1 ++ y :: l2))
      /\ start it' = start it /\ sep it' = sep it
      /\ (key it = None -> key it' = None)
      /\ forall fuel w,
           vstate w = false -> (2 * size it <= fuel)%nat ->
           exists w',
             _visit fuel cur (Some it) (remove_once (cur ++ Q ++ [(f, i)])) w
             = Returned (CUndef, Some it', w')
             /\ vstate w' = true
             /\ calls w' = calls w ++ entry_calls log.
Proof.
  induction Q as [|[f0 j] Q IH]; intros it cur f i x y Hx Hy.
  - simpl in Hx, Hy.
    apply reaches_cons in Hx as (x' & Hgx & Hx). apply reaches_nil in Hx. subst x'.
    apply reaches_cons in Hy as (y' & Hgy & Hy). apply reaches_nil in Hy. subst y'.
    destruct (children_get _ _ _ Hgx) as (ty & Hf).
    destruct (items_get_split _ _ Hgx) as (l1 & r & El & Ei).
    rewrite El, <- Ei in Hgy. apply items_get_next in Hgy as (l2 & ->).
    rewrite El in Hf. subst i.
    destruct (@loop_remove_here cur f l1 x y l2) as (Hsp & Hrun).
    destruct (@item_around_loop cur it f ty _ _ _ x y _ Hf
                (ex_intro _ _ (ex_intro _ [] eq_refl)) Hsp Hrun)
      as (log & Hsp' & Hrun').
    exists (set_field it f (Coll ty (l1 ++ y :: l2))), log, ty, l1, l2.
    simpl app. split; [exact Hsp'|]. split; [exact Hf|]. split; [reflexivity|].
    split; [unfold collectionAt; simpl; apply get_set_field|].
    split; [destruct it, f; reflexivity|].
    split; [destruct it, f; reflexivity|].
    split; [|exact Hrun'].
    destruct it as [st k sp v], f; simpl in *; [|auto]. intros ->. discriminate.
  - simpl in Hx, Hy.
    apply reaches_cons in Hx as (c & Hgc & Hx).
    apply reaches_cons in Hy as (c2 & Hgc2 & Hy).
    rewrite Hgc in Hgc2. inversion Hgc2. subst c2. clear Hgc2.
    destruct (children_get _ _ _ Hgc) as (ty0 & Hf).
    destruct (items_get_split _ _ Hgc) as (l1 & r & El & Ej).
    rewrite El in Hf. subst j.
    destruct (IH c (cur ++ [(f0, Z.of_nat (List.length l1))]) f i x y Hx Hy)
      as (c' & logc & ty & m1 & m2 & Hsp & Hc & Hi & Hc' & _ & _ & _ & Hrun).
    assert (EP : (cur ++ [(f0, Z.of_nat (List.length l1))]) ++ Q ++ [(f, i)]
                 = cur ++ ((f0, Z.of_nat (List.length l1)) :: Q) ++ [(f, i)])
      by (rewrite <- app_assoc; reflexivity).
    rewrite EP in Hsp, Hrun.
    destruct (@loop_descend cur f0 l1 c c' r
                (cur ++ ((f0, Z.of_nat (List.length l1)) :: Q) ++ [(f, i)])
                x y logc) as (Hsp1 & Hrun1);
      [ | exact Hsp | exact Hrun | ].
    { intros j q Hj E. rewrite <- app_assoc in E. apply app_inv_head in E.
      simpl in E. inversion E. lia. }
    destruct (@item_around_loop cur it f0 ty0 _ _
                (cur ++ ((f0, Z.of_nat (List.length l1)) :: Q) ++ [(f, i)])
                x y _ Hf
                (ex_intro _ (Z.of_nat (List.length l1))
                   (ex_intro _ (Q ++ [(f, i)]) eq_refl)) Hsp1 Hrun1)
      as (log & Hsp' & Hrun').
    exists (set_field it f0 (Coll ty0 (l1 ++ c' :: r))), log, ty, m1, m2.
    split; [exact Hsp'|].
    split.
    { unfold collectionAt in *. simpl.
      rewrite Hf, items_get_app. exact Hc. }
    split; [exact Hi|].
    split.
    { unfold collectionAt in *. simpl. rewrite get_set_field, items_get_app.
      exact Hc'. }
    split; [destruct it, f0; reflexivity|].
    split; [destruct it, f0; reflexivity|].
    split; [|exact Hrun'].
    destruct it as [st k sp v], f0; simpl in *; [|auto]. intros ->. discriminate.
Qed.

(** ** A visitor that never steers the walk *)

Lemma rewrap_unwrap root : rewrap root (unwrap root) = root.
Proof. destruct root as [[o s v e]|it]; reflexivity. Qed.

Lemma root_field_unwrap root f :
  root_field (Some root) f = get_field (unwrap root) f.
Proof. destruct root as [d|it], f; reflexivity. Qed.

(** C1. A visitor that always returns [undefined] is called once on entry
    of every item of the tree and at no other time, in depth-first order
    with the items of an item's [key] collection before those of its
    [value] collection: the calls are the entry calls of [preorder], which
    lists exactly the items that a path reaches from the root, no path
    twice. The tree is left as it was and [visit] itself returns
    [undefined]. Twice the size of the tree is fuel enough. *)
Theorem visit_noop_enters_each_item_once
    (St : Type) (visitor : Visitor St) (root : Root) (w : World St)
    (fuel : nat) :
  (forall s item path, fst (visitor s item path) = CUndef) ->
  (2 * size (unwrap root) <= fuel)%nat ->
  exists w',
    visit fuel root visitor w = Returned (mkVisited root w' CUndef)
    /\ calls w' = calls w ++ entry_calls (preorder [] (unwrap root))
    /\ NoDup (map fst (preorder [] (unwrap root)))
    /\ (forall path it,
          In (path, it) (preorder [] (unwrap root))
          <-> itemAtPath (RItem (unwrap root)) path = Some (RItem it))
    /\ (forall path st k sp v,
          preorder path (MkItem st k sp v)
          = (path, MkItem st k sp v)
              :: preorder_field path FKey k ++ preorder_field path FValue v).
Proof.
  intros Hnoop Hfuel.
  destruct (@quiet_walk_all St visitor (fun _ => True) (unwrap root) fuel [] w)
    as (w' & E & C & _); auto.
  { intros s item q _. split; [apply Hnoop | exact I]. }
  exists w'. unfold visit. rewrite E, rewrap_unwrap.
  split; [reflexivity|]. split; [exact C|].
  split; [apply once_all|]. split; [|intros; apply preorder_eq].
  intros path it. rewrite (listed_all (unwrap root) [] path it). simpl.
  unfold itemAtPath, reaches. split.
  - intros (p & -> & H). exact H.
  - intros H. exists path. auto.
Qed.

Lemma visit_noop_enters_each_item_once_witness :
  exists w',
    visit 12 (RItem sample_item) never_steers (mkWorld tt [])
    = Returned (mkVisited (RItem sample_item) w' CUndef)
    /\ calls w' = [] ++ entry_calls (preorder [] sample_item)
    /\ NoDup (map fst (preorder [] sample_item))
    /\ (forall path it,
          In (path, it) (preorder [] sample_item)
          <-> itemAtPath (RItem sample_item) path = Some (RItem it))
    /\ (forall path st k sp v,
          preorder path (MkItem st k sp v)
          = (path, MkItem st k sp v)
              :: preorder_field path FKey k ++ preorder_field path FValue v).
Proof.
  apply (@visit_noop_enters_each_item_once unit never_steers (RItem sample_item)
           (mkWorld tt []) 12%nat).
  - intros s item path. reflexivity.
  - vm_compute. lia.
Defined.

(** ** itemAtPath and parentCollection *)

(** C10. The empty path resolves to the root that was given, a document
    included: it is handed back as it is, not as the item [visit] walks in
    its place. *)
Theorem itemAtPath_empty_path (root : Root) :
  itemAtPath root [] = Some root
  /\ forall d, itemAtPath (RDoc d) [] <> Some (RItem (unwrap (RDoc d))).
Proof. split; [reflexivity | intros d H; discriminate H]. Qed.

Lemma itemAtPath_from_app item p q :
  itemAtPath_from item (p ++ q) = itemAtPath_from (itemAtPath_from item p) q.
Proof.
  revert item. induction p as [|[f i] p IH]; intros item; simpl; [reflexivity|].
  destruct (root_field item f) as [[ty s|ty l]|];
    try (now rewrite itemAtPath_from_None).
  apply IH.
Qed.

Lemma last_step_app (init : VisitPath) (s : Field * Z) :
  last (map Some (init ++ [s])) None = Some s.
Proof. rewrite map_app. simpl. apply last_last. Qed.

(** With an empty path [parentCollection] has no last step to read. *)
Lemma parentCollection_nil root : parentCollection root [] = Threw TypeError.
Proof. reflexivity. Qed.

(** C4. The documentation of [parentCollection] says that its throw should
    never happen if the item itself exists, and the read of the field of
    the parent is guarded ([parent?.[field]]). At the empty path the item
    exists, [itemAtPath] returns the root, and [parentCollection] throws
    all the same: a [TypeError], on the unguarded read of the last step of
    a path that has none ([path[path.length - 1][0]]). *)
Lemma parentCollection_root_throws :
  itemAtPath (RItem sample_item) [] = Some (RItem sample_item)
  /\ parentCollection (RItem sample_item) [] = Threw TypeError.
Proof. split; reflexivity. Qed.

(** Away from the empty path [parentCollection] does what its
    documentation says: when [itemAtPath] finds an item at a path that is
    not empty, the call returns the collection the item sits in. *)
Lemma parentCollection_of_found_item (root : Root) (path : VisitPath)
    (x : Root) :
  itemAtPath root path = Some x ->
  path <> [] ->
  exists ty items, parentCollection root path = Returned (Coll ty items).
Proof.
  intros H Hne.
  destruct (exists_last Hne) as (init & [f i] & ->).
  unfold parentCollection. rewrite removelast_last, last_step_app.
  unfold itemAtPath in *. rewrite itemAtPath_from_app in H. simpl in H.
  destruct (root_field (itemAtPath_from (Some root) init) f)
    as [[ty s|ty l]|]; try discriminate. eauto.
Qed.

Lemma parentCollection_of_found_item_witness :
  exists ty items,
    parentCollection (RItem sample_item) [(FKey, 1)]
    = Returned (Coll ty items).
Proof.
  apply (@parentCollection_of_found_item (RItem sample_item) [(FKey, 1)]
           (RItem (leaf_item "b"))).
  - reflexivity.
  - discriminate.
Defined.

(** ** Removing an item that has a next sibling *)

Lemma itemAtPath_unwrap root s path :
  itemAtPath root (s :: path) = itemAtPath (RItem (unwrap root)) (s :: path).
Proof.
  unfold itemAtPath. destruct s as [f i]. cbn [itemAtPath_from].
  rewrite (root_field_unwrap root f). reflexivity.
Qed.

Lemma root_field_collectionAt root Q f :
  root_field (itemAtPath root Q) f = collectionAt (unwrap root) Q f.
Proof.
  unfold collectionAt. destruct Q as [|s Q].
  - apply root_field_unwrap.
  - now rewrite itemAtPath_unwrap.
Qed.

Lemma parentCollection_collectionAt root Q f i ty items :
  collectionAt (unwrap root) Q f = Some (Coll ty items) ->
  parentCollection root (Q ++ [(f, i)]) = Returned (Coll ty items).
Proof.
  intros H. unfold parentCollection.
  now rewrite removelast_last, last_step_app, root_field_collectionAt, H.
Qed.

Lemma unwrap_rewrap root it' :
  start it' = start (unwrap root) -> sep it' = sep (unwrap root) ->
  (key (unwrap root) = None -> key it' = None) ->
  unwrap (rewrap root it') = it'.
Proof.
  destruct root as [d|it]; [|reflexivity].
  destruct it' as [st k sp v]. simpl. intros -> -> H. now rewrite H.
Qed.

(** C2. Let [x] be the item at [P = Q ++ [(f, i)]] and [y] the sibling that
    follows it, and let the visitor answer [REMOVE] the first time it is
    called with the path [P] and [undefined] at every other call. Then the
    walk ends, and after it the parent collection of [P] holds its former
    items but for [x], so that [y] now sits at index [i]. The calls are the
    entry calls of the listing of the tree as it was, up to the entry of
    [x], and then those of the listing of the tree as the walk left it,
    from the entry of [y] on; the two listings have the same paths up to
    there, and no other call is made with the path [P]: [y] is entered
    once, straight after [x], and so is every other item that is left. *)
Theorem remove_then_next_sibling_entered_once
    (root : Root) (Q : VisitPath) (f : Field) (i : Z) (x y : Item) :
  itemAtPath root (Q ++ [(f, i)]) = Some (RItem x) ->
  itemAtPath root (Q ++ [(f, i + 1)]) = Some (RItem y) ->
  exists root' ty l1 l2 L1 L1' L2 R,
    parentCollection root (Q ++ [(f, i)])
    = Returned (Coll ty (l1 ++ x :: y :: l2))
    /\ Z.of_nat (List.length l1) = i
    /\ parentCollection root' (Q ++ [(f, i)]) = Returned (Coll ty (l1 ++ y :: l2))
    /\ preorder [] (unwrap root) = L1 ++ (Q ++ [(f, i)], x) :: R
    /\ preorder [] (unwrap root') = L1' ++ (Q ++ [(f, i)], y) :: L2
    /\ map fst L1' = map fst L1
    /\ ~ In (Q ++ [(f, i)]) (map fst L1)
    /\ ~ In (Q ++ [(f, i)]) (map fst L2)
    /\ forall fuel w,
         vstate w = false -> (2 * size (unwrap root) <= fuel)%nat ->
         exists w',
           visit fuel root (remove_once (Q ++ [(f, i)])) w
           = Returned (mkVisited root' w' CUndef)
           /\ calls w'
              = calls w
                  ++ entry_calls
                       (L1 ++ (Q ++ [(f, i)], x) :: (Q ++ [(f, i)], y) :: L2).
Proof.
  intros Hx Hy.
  assert (Hx' : reaches (unwrap root) (Q ++ [(f, i)]) x).
  { unfold reaches. destruct Q; simpl app in *; rewrite itemAtPath_unwrap in Hx;
      exact Hx. }
  assert (Hy' : reaches (unwrap root) (Q ++ [(f, i + 1)]) y).
  { unfold reaches. destruct Q; simpl app in *; rewrite itemAtPath_unwrap in Hy;
      exact Hy. }
  destruct (@remove_walk Q (unwrap root) [] f i x y Hx' Hy')
    as (it' & log & ty & l1 & l2 & Hsp & Hc & Hi & Hc' & Hst & Hsep & Hkey & Hrun).
  simpl app in Hsp, Hrun.
  destruct Hsp as (L1 & L1' & L2 & R & -> & Hlist & Hfst & Horig).
  pose proof (unwrap_rewrap root it' Hst Hsep Hkey) as Hun.
  exists (rewrap root it'), ty, l1, l2, L1, L1', L2, R.
  split; [apply parentCollection_collectionAt, Hc|].
  split; [exact Hi|].
  split; [apply parentCollection_collectionAt; rewrite Hun; exact Hc'|].
  split; [exact Horig|].
  split; [rewrite Hun; exact Hlist|].
  split; [exact Hfst|].
  pose proof (once_all it' []) as Hnd. rewrite Hlist, map_app in Hnd.
  simpl in Hnd. apply NoDup_remove_2 in Hnd. rewrite Hfst, in_app_iff in Hnd.
  split; [tauto|]. split; [tauto|].
  intros fuel w Hw Hf.
  destruct (Hrun fuel w Hw Hf) as (w' & E & _ & C).
  exists w'. unfold visit. rewrite E. auto.
Qed.

Lemma remove_then_next_sibling_entered_once_witness :
  exists root' ty l1 l2 L1 L1' L2 R,
    parentCollection (RItem sample_item) ([] ++ [(FKey, 0)])
    = Returned (Coll ty (l1 ++ leaf_item "a" :: leaf_item "b" :: l2))
    /\ Z.of_nat (List.length l1) = 0
    /\ parentCollection root' ([] ++ [(FKey, 0)])
       = Returned (Coll ty (l1 ++ leaf_item "b" :: l2))
    /\ preorder [] (unwrap (RItem sample_item))
       = L1 ++ ([] ++ [(FKey, 0)], leaf_item "a") :: R
    /\ preorder [] (unwrap root') = L1' ++ ([] ++ [(FKey, 0)], leaf_item "b") :: L2
    /\ map fst L1' = map fst L1
    /\ ~ In ([] ++ [(FKey, 0)]) (map fst L1)
    /\ ~ In ([] ++ [(FKey, 0)]) (map fst L2)
    /\ forall fuel w,
         vstate w = false -> (2 * size (unwrap (RItem sample_item)) <= fuel)%nat ->
         exists w',
           visit fuel (RItem sample_item) (remove_once ([] ++ [(FKey, 0)])) w
           = Returned (mkVisited root' w' CUndef)
           /\ calls w'
              = calls w
                  ++ entry_calls
                       (L1 ++ ([] ++ [(FKey, 0)], leaf_item "a")
                           :: ([] ++ [(FKey, 0)], leaf_item "b") :: L2).
Proof.
  apply (@remove_then_next_sibling_entered_once (RItem sample_item) [] FKey 0
           (leaf_item "a") (leaf_item "b")).
  - reflexivity.
  - reflexivity.
Defined.

End CstFacts.

(** * Properties of the stream composer *)

Section ComposeFacts.

Import Compose.

Variable Directives : Type.
Variable Options : Type.
Variable strict : Options -> bool.
Variable Directives_add : Directives -> string -> Directives * list (Z * string * bool).
Variable atDocument : Directives -> Directives * Directives.
Variable Props : Type.
Variable found : Props -> bool.
Variable hasNewline : Props -> bool.
Variable props_end : Props -> Z.
Variable resolveProps : list SourceToken -> PropsQuery -> Props * list Report.
Variable composeNode :
  ComposeContext Directives Options -> Cst.Token -> Props -> Node * list Report.
Variable composeEmptyNode :
  ComposeContext Directives Options -> Z -> list SourceToken -> Props
  -> Node * list Report.
Variable resolveEnd :
  option (list SourceToken) -> Z -> bool -> ResolvedEnd * list Report.
Variable JSON_stringify : string -> string.

Local Abbreviation composeDoc :=
  (composeDoc atDocument found hasNewline props_end resolveProps composeNode
     composeEmptyNode resolveEnd).
Local Abbreviation next :=
  (next strict Directives_add atDocument found hasNewline props_end resolveProps
     composeNode composeEmptyNode resolveEnd JSON_stringify).
Local Abbreviation compose :=
  (compose strict Directives_add atDocument found hasNewline props_end
     resolveProps composeNode composeEmptyNode resolveEnd JSON_stringify).

Let Composer := Composer Directives Options.
Let Doc := Doc Directives Options.

(** ** onError and decorate *)

Lemma onErrors_spec (rs : list Report) (c : Composer) :
  onErrors c rs
  = mkComposer (c_directives c) (c_doc c) (c_options c) (c_atDirectives c)
               (c_prelude c) (c_errors c ++ errors_of rs)
               (c_warnings c ++ warnings_of rs).
Proof.
  revert c. unfold onErrors, errors_of, warnings_of.
  induction rs as [|r rs IH]; intros c; simpl.
  - rewrite !app_nil_r. destruct c; reflexivity.
  - rewrite IH. unfold onError.
    destruct (r_warning r) eqn:E; simpl; rewrite <- ?app_assoc; simpl;
      unfold error_of; rewrite ?E; reflexivity.
Qed.

Lemma decorate_fst (c : Composer) (doc : Doc) b :
  fst (decorate c doc b)
  = mkComposer (c_directives c) (c_doc c) (c_options c) (c_atDirectives c)
               [] [] [].
Proof. unfold decorate. destruct (parsePrelude (c_prelude c)). reflexivity. Qed.

Lemma decorate_kept (c : Composer) (doc : Doc) b :
  let doc' := snd (decorate c doc b) in
  range doc' = range doc /\ directives doc' = directives doc
  /\ options doc' = options doc
  /\ errors doc' = (if b then errors doc ++ c_errors c else c_errors c)
  /\ warnings doc' = (if b then warnings doc ++ c_warnings c else c_warnings c).
Proof.
  unfold decorate. destruct (parsePrelude (c_prelude c)) as [cmt ael].
  destruct (truthy (Some cmt)), b; simpl; auto.
  destruct (ael || docStart (directives doc) || is_null (contents doc));
    simpl; auto.
  destruct (contents doc) as [[cb r s|cb r [|] [|it rest]]|]; simpl; auto.
Qed.

Lemma decorate_drained (c : Composer) (doc : Doc) b :
  drained c ->
  decorate c doc b
  = (c, if b then doc else set_errors doc [] []).
Proof.
  intros (Hp & He & Hw). unfold decorate. rewrite Hp, He, Hw. simpl.
  destruct b.
  - rewrite !app_nil_r. destruct c, doc; simpl in *; subst; reflexivity.
  - destruct c; simpl in *; subst; reflexivity.
Qed.

(** ** decorate *)

(** C7, amended. With the prelude and the stream-level lists drained,
    [decorate] leaves the composer as it is and the document's comments,
    contents, directives and range as they are. Called as after the
    content it leaves the error and warning lists of the document as they
    are too, so that the whole document is unchanged; called as not after
    the content it puts the empty stream-level lists in their place, so
    that they are unchanged only if they were empty. *)
Theorem decorate_again_when_drained (c : Composer) (doc : Doc) (afterDoc : bool) :
  drained c ->
  exists doc',
    decorate c doc afterDoc = (c, doc')
    /\ comment doc' = comment doc
    /\ commentBefore doc' = commentBefore doc
    /\ contents doc' = contents doc
    /\ directives doc' = directives doc
    /\ range doc' = range doc
    /\ (afterDoc = true -> doc' = doc)
    /\ (afterDoc = false -> errors doc' = [] /\ warnings doc' = [])
    /\ (errors doc = [] -> warnings doc = [] -> doc' = doc).
Proof.
  intros H. rewrite (decorate_drained doc afterDoc H).
  eexists. split; [reflexivity|].
  destruct afterDoc; simpl; repeat split; auto; try discriminate.
  intros He Hw. destruct doc; simpl in *; subst; reflexivity.
Qed.

(** ** A doc-end marker with no document before it *)

(** C8. A [doc-end] token that finds no document buffered adds one error
    to the stream-level list, the [UNEXPECTED_TOKEN] error for a stray
    marker at the token's position; no document is composed or yielded and
    nothing else in the composer changes. *)
Theorem doc_end_without_document (c : Composer) (offset : Z) (source : string)
    (end_ : option (list SourceToken)) :
  c_doc c = None ->
  exists c',
    next c (TDocEnd offset source end_) = (c', [])
    /\ c_errors c' = c_errors c ++ [stray_doc_end offset source]
    /\ e_code (stray_doc_end offset source) = "UNEXPECTED_TOKEN"%string
    /\ c_doc c' = None
    /\ c_directives c' = c_directives c
    /\ c_options c' = c_options c
    /\ c_atDirectives c' = c_atDirectives c
    /\ c_prelude c' = c_prelude c
    /\ c_warnings c' = c_warnings c.
Proof.
  intros H. unfold Compose.next. rewrite H.
  eexists. split; [reflexivity|]. simpl. rewrite H. repeat split.
Qed.

(** ** The document assembler *)

(** C9. When the leading span of a document has a directives-end marker,
    [composeDoc] returns a document, with contents and a range, that is
    marked as having an explicit start; and if its value is a block map or
    a block sequence with no newline between the marker and it, the
    [MISSING_CHAR] report for a block collection on the marker's line is
    among the calls made to [onError]. Fed to [next], the document is
    buffered with the errors so reported in its own list. *)
Theorem composeDoc_with_marker (opts : Options) (dirs : Directives)
    (cst : Cst.Document) :
  found (fst (resolveProps (Cst.doc_start cst) (doc_start_query cst))) = true ->
  exists doc dirs' reports,
    composeDoc opts dirs cst = (doc, dirs', reports)
    /\ docStart (directives doc) = true
    /\ contents doc <> None
    /\ range doc <> None
    /\ (forall v,
          Cst.doc_value cst = Some v ->
          is_block_collection v = true ->
          hasNewline (fst (resolveProps (Cst.doc_start cst) (doc_start_query cst)))
          = false ->
          In (same_line_report
                (props_end
                   (fst (resolveProps (Cst.doc_start cst) (doc_start_query cst)))))
             reports
          /\ r_code (same_line_report 0) = "MISSING_CHAR"%string
          /\ forall c : Composer,
               c_options c = opts -> c_directives c = dirs ->
               exists c' doc',
                 fst (next c (TDocument cst)) = c'
                 /\ c_doc c' = Some doc'
                 /\ In (error_of
                          (same_line_report
                             (props_end
                                (fst (resolveProps (Cst.doc_start cst)
                                        (doc_start_query cst))))))
                       (errors doc')).
Proof.
  intros Hfound. unfold Compose.composeDoc, Document_new.
  destruct (atDocument dirs) as [view dirs'] eqn:Ea.
  destruct (resolveProps (Cst.doc_start cst) (doc_start_query cst))
    as [props r1] eqn:Ep.
  simpl in Hfound. rewrite Hfound.
  match goal with
  | |- context [match Cst.doc_value cst with
                | Some v => composeNode ?ctx v props
                | None => ?e
                end] =>
      destruct (match Cst.doc_value cst with
                | Some v => composeNode ctx v props
                | None => e
                end) as [node r3] eqn:En
  end.
  destruct (resolveEnd (Cst.doc_end cst) (third (node_range node)) false)
    as [re r4] eqn:Ee.
  eexists _, _, _. split; [reflexivity|].
  split; [destruct (truthy (Some (re_comment re))); reflexivity|].
  split; [destruct (truthy (Some (re_comment re))); discriminate|].
  split; [discriminate|].
  intros v Hv Hblock Hnl. simpl in Hnl.
  assert (Hin : In (same_line_report (props_end props))
                   (r1 ++ (if true
                              && match Cst.doc_value cst with
                                 | Some v0 => is_block_collection v0
                                 | None => false
                                 end
                              && negb (hasNewline props)
                           then [same_line_report (props_end props)]
                           else []) ++ r3 ++ r4)).
  { rewrite Hv, Hblock, Hnl. simpl. apply in_or_app. right. left. reflexivity. }
  split; [exact Hin|]. split; [reflexivity|].
  intros c Hopts Hdirs.
  unfold Compose.next, Compose.composeDoc, Document_new.
  rewrite Hopts, Hdirs.
  rewrite Ea, Ep, Hfound, En, Ee.
  match goal with
  | |- context [decorate ?cx ?dx false] =>
      pose proof (decorate_kept cx dx false) as Hk;
      destruct (decorate cx dx false) as [c3 d3] eqn:Ed
  end.
  simpl in Hk. destruct Hk as (_ & _ & _ & Herr & _).
  eexists _, d3. split; [reflexivity|]. split; [reflexivity|].
  rewrite Herr.
  match goal with
  | |- In _ (c_errors (if ?b then onError ?cx ?r else _)) =>
      assert (Hc : In (error_of (same_line_report (props_end props)))
                      (c_errors cx))
  end.
  { rewrite onErrors_spec. simpl. apply in_or_app. right.
    unfold errors_of. apply in_map, filter_In. split; [exact Hin | reflexivity]. }
  match goal with
  | |- In _ (c_errors (if ?b then _ else _)) => destruct b
  end; [|exact Hc].
  unfold onError. simpl r_warning. cbv iota. unfold push_error. simpl c_errors.
  apply in_or_app. left. exact Hc.
Qed.

(** ** Documents coming out of the stream *)

Lemma next_document (c : Composer) (d : Cst.Document) doc dirs' reports :
  composeDoc (c_options c) (c_directives c) d = (doc, dirs', reports) ->
  exists doc',
    next c (TDocument d)
    = (mkComposer dirs' (Some doc') (c_options c) false [] [] [],
       match c_doc c with Some old => [old] | None => [] end)
    /\ range doc' = range doc
    /\ directives doc' = directives doc
    /\ errors doc'
       = c_errors c ++ errors_of reports
           ++ (if c_atDirectives c && negb (docStart (directives doc))
               then [missing_doc_start (Cst.doc_offset d)] else [])
    /\ warnings doc' = c_warnings c ++ warnings_of reports.
Proof.
  intros H. unfold Compose.next. rewrite H.
  match goal with
  | |- context [decorate ?cx ?dx false] =>
      pose proof (decorate_kept cx dx false) as Hk;
      pose proof (decorate_fst cx dx false) as Hf;
      destruct (decorate cx dx false) as [c3 d3] eqn:Ed
  end.
  simpl in Hk, Hf. destruct Hk as (Hr & Hd & _ & He & Hw).
  exists d3. subst c3. rewrite onErrors_spec in *. simpl in *.
  destruct (c_atDirectives c && negb (docStart (directives doc))); simpl in *.
  - split; [reflexivity|]. rewrite He, Hw, <- app_assoc. auto.
  - split; [reflexivity|]. rewrite He, Hw, app_nil_r. auto.
Qed.

Lemma next_directive (c : Composer) (offset : Z) (source : string) dirsA cbs :
  Directives_add (c_directives c) source = (dirsA, cbs) ->
  next c (TDirective offset source)
  = (mkComposer dirsA (c_doc c) (c_options c) true (c_prelude c ++ [source])
       (c_errors c ++ errors_of (directive_reports offset source cbs))
       (c_warnings c ++ warnings_of (directive_reports offset source cbs)),
     []).
Proof.
  intros H. unfold Compose.next. rewrite H, onErrors_spec. reflexivity.
Qed.

(** C5, amended. A fresh composer fed a directive and two documents yields
    two documents, the one made of the first span and then the one made of
    the second. The missing-indicator [MISSING_CHAR] error is reported for
    the first document, the one that follows the directive, when it has no
    explicit start; [atDirectives] is cleared by then, and the errors of the
    second document are those reported while it was assembled, whether or
    not it has an explicit start. *)
Theorem directive_then_two_documents (dirs : Directives) (opts : Options)
    (offset : Z) (source : string) (d1 d2 : Cst.Document)
    (forceDoc : bool) (endOffset : Z) :
  let '(dirsA, cbs) := Directives_add dirs source in
  let '(docA, dirsB, repA) := composeDoc opts dirsA d1 in
  let '(docB, dirsC, repB) := composeDoc opts dirsB d2 in
  exists c' docA' docB',
    compose (Composer_new dirs opts)
            [TDirective offset source; TDocument d1; TDocument d2]
            forceDoc endOffset
    = (c', [docA'; docB'])
    /\ range docA' = range docA /\ directives docA' = directives docA
    /\ range docB' = range docB /\ directives docB' = directives docB
    /\ errors docA'
       = errors_of (directive_reports offset source cbs) ++ errors_of repA
           ++ (if docStart (directives docA) then []
               else [missing_doc_start (Cst.doc_offset d1)])
    /\ errors docB' = errors_of repB.
Proof.
  destruct (Directives_add dirs source) as [dirsA cbs] eqn:Ea.
  destruct (composeDoc opts dirsA d1) as [[docA dirsB] repA] eqn:E1.
  destruct (composeDoc opts dirsB d2) as [[docB dirsC] repB] eqn:E2.
  unfold Compose.compose. cbn [compose_tokens].
  rewrite (@next_directive (Composer_new dirs opts) offset source dirsA cbs Ea).
  cbv beta iota.
  match goal with
  | |- context [Compose.next _ _ _ _ _ _ _ _ _ _ _ ?c1 (TDocument d1)] =>
      destruct (@next_document c1 d1 docA dirsB repA E1)
        as (docA' & N1 & R1 & D1 & Er1 & W1)
  end.
  rewrite N1. cbv beta iota.
  match goal with
  | |- context [Compose.next _ _ _ _ _ _ _ _ _ _ _ ?c2 (TDocument d2)] =>
      destruct (@next_document c2 d2 docB dirsC repB E2)
        as (docB' & N2 & R2 & D2 & Er2 & W2)
  end.
  rewrite N2. cbv beta iota.
  unfold Compose.end_. cbn [c_doc]. cbv beta iota.
  rewrite decorate_drained by (repeat split).
  exists (mkComposer dirsC None opts false [] [] []), docA', docB'.
  split; [reflexivity|].
  simpl in Er1, Er2. rewrite app_nil_r in Er2.
  destruct (docStart (directives docA)); simpl in Er1; repeat split; assumption.
Qed.

(** C6, amended. A fresh composer fed one comment token, whose source is
    the [#] marker and a text, and then ended with [forceDoc] yields one
    document, which has no contents; its leading comment is the text that
    follows the marker as it stands, a leading space included, or one
    space when no text follows; its range is
    [[0, endOffset, endOffset]]. *)
Theorem lone_comment_then_end (dirs : Directives) (opts : Options)
    (tok : SourceToken) (text : string) (endOffset : Z) :
  st_type tok = "comment"%string ->
  st_source tok = String "#" text ->
  exists c' doc,
    compose (Composer_new dirs opts) [TSource tok] true endOffset = (c', [doc])
    /\ commentBefore doc = Some (text_after_marker text)
    /\ range doc = Some (0, endOffset, endOffset)
    /\ contents doc = None
    /\ comment doc = None
    /\ errors doc = [].
Proof.
  intros Hty Hsrc.
  assert (N : next (Composer_new dirs opts) (TSource tok)
              = (mkComposer dirs None opts false [String "#" text] [] [], [])).
  { unfold Compose.next. rewrite Hty, Hsrc. reflexivity. }
  assert (Hp : parsePrelude [String "#" text] = (text_after_marker text, false)).
  { unfold parsePrelude, text_after_marker. simpl. destruct text; reflexivity. }
  assert (Ht : truthy (Some (text_after_marker text)) = true)
    by (destruct text; reflexivity).
  unfold Compose.compose. cbn [compose_tokens]. rewrite N. cbv beta iota.
  unfold Compose.end_, Document_new.
  cbn [c_doc c_directives c_options c_atDirectives set_directives].
  destruct (atDocument dirs) as [view dirs'].
  unfold decorate, set_directives.
  cbn [c_doc c_directives c_options c_atDirectives c_prelude c_errors c_warnings].
  rewrite Hp, Ht. cbn [set_range contents].
  eexists _, _. split; [reflexivity|]. repeat split.
Qed.

End ComposeFacts.

(** ** The composer run on the stand-in library *)

Section ComposeRuns.

Import Compose.

(** C7, as stated, fails when the document was decorated as not after its
    content: the first call hands the document the stream-level error, the
    second replaces the document's list by the list that the first call
    left empty. *)
Lemma decorate_twice_drops_errors :
  let c0 := push_error Sample.fresh (missing_doc_start 0) in
  let d0 := fst (Document_new Sample.atDocument true []) in
  let '(c1, d1) := decorate c0 d0 false in
  let '(c2, d2) := decorate c1 d1 false in
  drained c1
  /\ errors d1 = [missing_doc_start 0]
  /\ errors d2 = []
  /\ errors d2 <> errors d1.
Proof.
  simpl. split; [repeat split|]. split; [reflexivity|].
  split; [reflexivity | discriminate].
Qed.

Lemma decorate_again_when_drained_witness :
  exists doc',
    decorate Sample.fresh (fst (Document_new Sample.atDocument true [])) true
    = (Sample.fresh, doc')
    /\ comment doc' = comment (fst (Document_new Sample.atDocument true []))
    /\ commentBefore doc'
       = commentBefore (fst (Document_new Sample.atDocument true []))
    /\ contents doc' = contents (fst (Document_new Sample.atDocument true []))
    /\ directives doc' = directives (fst (Document_new Sample.atDocument true []))
    /\ range doc' = range (fst (Document_new Sample.atDocument true []))
    /\ (true = true -> doc' = fst (Document_new Sample.atDocument true []))
    /\ (true = false -> errors doc' = [] /\ warnings doc' = [])
    /\ (errors (fst (Document_new Sample.atDocument true [])) = [] ->
        warnings (fst (Document_new Sample.atDocument true [])) = [] ->
        doc' = fst (Document_new Sample.atDocument true [])).
Proof.
  apply (@decorate_again_when_drained (list string) bool Sample.fresh
           (fst (Document_new Sample.atDocument true [])) true).
  repeat split.
Defined.

Lemma doc_end_without_document_witness :
  exists c',
    Sample.next Sample.fresh (TDocEnd 7 "..." None) = (c', [])
    /\ c_errors c' = c_errors Sample.fresh ++ [stray_doc_end 7 "..."]
    /\ e_code (stray_doc_end 7 "...") = "UNEXPECTED_TOKEN"%string
    /\ c_doc c' = None
    /\ c_directives c' = c_directives Sample.fresh
    /\ c_options c' = c_options Sample.fresh
    /\ c_atDirectives c' = c_atDirectives Sample.fresh
    /\ c_prelude c' = c_prelude Sample.fresh
    /\ c_warnings c' = c_warnings Sample.fresh.
Proof.
  apply (@doc_end_without_document (list string) bool (fun o => o)
           Sample.Directives_add Sample.atDocument Sample.Props Sample.found
           Sample.hasNewline Sample.props_end Sample.resolveProps
           Sample.composeNode Sample.composeEmptyNode Sample.resolveEnd
           Sample.JSON_stringify Sample.fresh 7 "..."%string None).
  reflexivity.
Defined.

Lemma composeDoc_with_marker_witness :
  exists doc dirs' reports,
    Sample.composeDoc true [] Sample.same_line_document = (doc, dirs', reports)
    /\ docStart (directives doc) = true
    /\ contents doc <> None
    /\ range doc <> None
    /\ (forall v,
          Cst.doc_value Sample.same_line_document = Some v ->
          is_block_collection v = true ->
          Sample.hasNewline
            (fst (Sample.resolveProps (Cst.doc_start Sample.same_line_document)
                    (doc_start_query Sample.same_line_document)))
          = false ->
          In (same_line_report
                (Sample.props_end
                   (fst (Sample.resolveProps
                           (Cst.doc_start Sample.same_line_document)
                           (doc_start_query Sample.same_line_document)))))
             reports
          /\ r_code (same_line_report 0) = "MISSING_CHAR"%string
          /\ forall c : Composer (list string) bool,
               c_options c = true -> c_directives c = [] ->
               exists c' doc',
                 fst (Sample.next c (TDocument Sample.same_line_document)) = c'
                 /\ c_doc c' = Some doc'
                 /\ In (error_of
                          (same_line_report
                             (Sample.props_end
                                (fst (Sample.resolveProps
                                        (Cst.doc_start Sample.same_line_document)
                                        (doc_start_query
                                           Sample.same_line_document))))))
                       (errors doc')).
Proof.
  apply (@composeDoc_with_marker (list string) bool (fun o => o)
           Sample.Directives_add Sample.atDocument Sample.Props Sample.found
           Sample.hasNewline Sample.props_end Sample.resolveProps
           Sample.composeNode Sample.composeEmptyNode Sample.resolveEnd
           Sample.JSON_stringify true [] Sample.same_line_document).
  reflexivity.
Defined.

(** C5, as stated, fails: of two documents without a marker that follow a
    directive, the first is given the missing-indicator error and the
    second, which lacks the marker as well, is given none. *)
Lemma second_document_gets_no_missing_indicator_error :
  exists c' doc1 doc2,
    Sample.compose Sample.fresh
      [TDirective 0 "%YAML 1.2"; TDocument Sample.bare_document;
       TDocument Sample.bare_document] false (-1)
    = (c', [doc1; doc2])
    /\ docStart (directives doc2) = false
    /\ errors doc1 = [missing_doc_start 16]
    /\ errors doc2 = []
    /\ warnings doc2 = []
    /\ c_errors c' = [] /\ c_warnings c' = [].
Proof.
  eexists _, _, _. split; [vm_compute; reflexivity|]. repeat split.
Qed.

(** C6, as stated, fails: the leading comment keeps the space that
    follows the marker. *)
Lemma lone_comment_keeps_leading_space :
  exists c' doc,
    Sample.compose Sample.fresh [TSource (mkSourceToken "comment" 0 0 "# hi")]
                   true 4
    = (c', [doc])
    /\ marker_and_space_stripped "# hi" = "hi"%string
    /\ commentBefore doc = Some " hi"%string
    /\ commentBefore doc <> Some (marker_and_space_stripped "# hi").
Proof.
  eexists _, _. split; [vm_compute; reflexivity|].
  split; [reflexivity|]. split; [reflexivity | discriminate].
Qed.

Lemma lone_comment_then_end_witness :
  exists c' doc,
    Sample.compose (Composer_new [] true)
      [TSource (mkSourceToken "comment" 0 0 "# hi")] true 4
    = (c', [doc])
    /\ commentBefore doc = Some (text_after_marker " hi")
    /\ range doc = Some (0, 4, 4)
    /\ contents doc = None
    /\ comment doc = None
    /\ errors doc = [].
Proof.
  apply (@lone_comment_then_end (list string) bool (fun o => o)
           Sample.Directives_add Sample.atDocument Sample.Props Sample.found
           Sample.hasNewline Sample.props_end Sample.resolveProps
           Sample.composeNode Sample.composeEmptyNode Sample.resolveEnd
           Sample.JSON_stringify [] true (mkSourceToken "comment" 0 0 "# hi")
           " hi"%string 4).
  - reflexivity.
  - reflexivity.
Defined.

End ComposeRuns.

(** * More on the CST visitor *)

Section CstWalks.

Import Cst.

(** ** A visitor that answers a symbol at one path *)

Lemma answer_at_hit P s item st : answer_at P s st item P = (CSym s, st).
Proof.
  unfold answer_at. now rewrite (proj2 (path_eqb_eq P P) eq_refl).
Qed.

Lemma answer_at_miss P s item st path :
  path <> P -> answer_at P s st item path = (CUndef, st).
Proof.
  intros H. unfold answer_at. destruct (path_eqb path P) eqn:E; [|reflexivity].
  apply path_eqb_eq in E. contradiction.
Qed.

Lemma answer_quiet P s path :
  (forall q, path ++ q <> P) ->
  quiet_below (answer_at P s) (fun _ => True) path.
Proof.
  intros H st item q _. rewrite answer_at_miss by apply H. auto.
Qed.

Lemma off_path (cur : VisitPath) f j g k tl q :
  (f, j) <> (g, k) -> (cur ++ [(f, j)]) ++ q <> cur ++ (g, k) :: tl.
Proof.
  intros H E. rewrite <- app_assoc in E. apply app_inv_head in E.
  simpl in E. inversion E. subst. contradiction.
Qed.

(** The loop from index [length pre] to the end, over items below which
    the visitor is quiet. *)
Lemma quiet_suffix (St : Type) (visitor : Visitor St) (Inv : St -> Prop)
    path field l pre fuel w :
  (forall j, (List.length pre <= j < List.length pre + List.length l)%nat ->
             quiet_below visitor Inv (path ++ [(field, Z.of_nat j)])) ->
  Inv (vstate w) -> (1 + 2 * size_items l <= fuel)%nat ->
  exists w',
    visit_items fuel path visitor field (pre ++ l) (Z.of_nat (List.length pre)) w
    = Returned (LDone, pre ++ l, w')
    /\ calls w' = calls w
                  ++ entry_calls (preorder_items path field l
                                    (Z.of_nat (List.length pre)))
    /\ Inv (vstate w').
Proof.
  intros Hq Hw Hf.
  destruct (@quiet_prefix St visitor Inv path field l pre [] fuel w Hq Hw Hf)
    as (w' & E & C & I).
  rewrite app_nil_r in E. exists w'. split; [|auto].
  rewrite E. pose proof (length_le_size_items l) as Hl.
  destruct (fuel - List.length l)%nat as [|f] eqn:Ef; [lia|].
  rewrite visit_items_S.
  destruct (Z.ltb_spec (Z.of_nat (List.length pre + List.length l))
              (Z.of_nat (List.length (pre ++ l)))) as [H|_];
    [rewrite length_app in H; lia | reflexivity].
Qed.

Lemma loop_effect_next (St : Type) (ci : Ctrl St) fuel path
    (visitor : Visitor St) field items i w :
  loop_effect ci = Some LDone ->
  match ci with
  | CNum n => visit_items fuel path visitor field items ((n - 1) + 1) w
  | CSym BREAK => Returned (LBreak, items, w)
  | CSym REMOVE =>
      visit_items fuel path visitor field (splice1 items i) ((i - 1) + 1) w
  | _ => visit_items fuel path visitor field items (i + 1) w
  end
  = visit_items fuel path visitor field items (i + 1) w.
Proof. destruct ci as [|[| | |d]|n|f]; simpl; intros H; try discriminate; reflexivity. Qed.

Lemma loop_effect_break (St : Type) (ci : Ctrl St) :
  loop_effect ci = Some LBreak -> ci = CSym BREAK.
Proof. destruct ci as [|[| | |d]|n|f]; simpl; intros H; try discriminate; reflexivity. Qed.

(** The loop over items of which the one at index [length l1] is on the
    way to [P]; the walk of that item leaves it as it was and returns a
    control that stops the loop or lets it go on. *)
Lemma loop_around_at P s path field l1 c r tl ci ex logc :
  P = path ++ (field, Z.of_nat (List.length l1)) :: tl ->
  loop_effect ci = Some ex ->
  (forall fuel w,
      (2 * size c <= fuel)%nat ->
      exists w',
        _visit fuel (path ++ [(field, Z.of_nat (List.length l1))]) (Some c)
               (answer_at P s) w
        = Returned (ci, Some c, w')
        /\ calls w' = calls w ++ entry_calls logc) ->
  forall fuel w,
    (1 + 2 * size_items (l1 ++ c :: r) <= fuel)%nat ->
    exists w',
      visit_items fuel path (answer_at P s) field (l1 ++ c :: r) 0 w
      = Returned (ex, l1 ++ c :: r, w')
      /\ calls w'
         = calls w
             ++ entry_calls
                  (preorder_items path field l1 0
                     ++ logc
                     ++ match ex with
                        | LDone =>
                            preorder_items path field r
                              (Z.of_nat (List.length l1) + 1)
                        | LBreak => []
                        end).
Proof.
  intros HP Hex Hchild fuel w Hf.
  rewrite size_items_app in Hf. simpl in Hf.
  pose proof (length_le_size_items l1) as Hl1.
  pose proof (size_pos c) as Hc.
  destruct (@quiet_prefix unit (answer_at P s) (fun _ => True)
              path field l1 [] (c :: r) fuel w)
    as (w1 & E1 & C1 & _); [ | exact I | lia | ].
  { intros j Hj. apply answer_quiet. intros q. rewrite HP. apply off_path.
    intros E. inversion E. simpl in Hj. lia. }
  simpl in E1. rewrite E1. clear E1.
  destruct (fuel - List.length l1)%nat as [|f2] eqn:Ef; [lia|].
  rewrite visit_items_S.
  destruct (Z.ltb_spec (Z.of_nat (List.length l1))
              (Z.of_nat (List.length (l1 ++ c :: r)))) as [_|H];
    [|rewrite length_app in H; simpl in H; lia].
  rewrite items_get_app.
  destruct (Hchild f2 w1) as (w2 & E2 & C2); [lia|].
  rewrite E2. cbv zeta iota. rewrite items_put_app.
  destruct ex.
  - apply loop_effect_break in Hex. subst ci.
    exists w2. split; [reflexivity|].
    rewrite C2, C1. unfold entry_calls. rewrite !map_app, <- !app_assoc.
    simpl. rewrite app_nil_r. reflexivity.
  - rewrite loop_effect_next by exact Hex.
    destruct (@quiet_suffix unit (answer_at P s) (fun _ => True)
                path field r (l1 ++ [c]) f2 w2)
      as (w3 & E3 & C3 & _); [ | exact I | lia | ].
    { intros j Hj. apply answer_quiet. intros q. rewrite HP. apply off_path.
      intros E. inversion E. rewrite length_app in Hj. simpl in Hj. lia. }
    rewrite <- app_assoc, length_app in E3. simpl in E3.
    replace (Z.of_nat (List.length l1 + 1)) with (Z.of_nat (List.length l1) + 1)
      in E3 by lia.
    exists w3. split; [exact E3|].
    rewrite C3, C2, C1, length_app. simpl.
    replace (Z.of_nat (List.length l1 + 1)) with (Z.of_nat (List.length l1) + 1)
      by lia.
    unfold entry_calls. rewrite !map_app, <- !app_assoc. reflexivity.
Qed.

(** The walk of an item whose field [f0] holds the way to [P], given what
    the loop over the items of that field does. *)
Lemma item_around_at P s cur it f0 ty items j tl ex logl :
  P = cur ++ (f0, j) :: tl ->
  get_field it f0 = Some (Coll ty items) ->
  (forall fuel w,
      (1 + 2 * size_items items <= fuel)%nat ->
      exists w',
        visit_items fuel cur (answer_at P s) f0 items 0 w
        = Returned (ex, items, w')
        /\ calls w' = calls w ++ entry_calls logl) ->
  forall fuel w,
    (2 * size it <= fuel)%nat ->
    exists w',
      _visit fuel cur (Some it) (answer_at P s) w
      = Returned (match ex with LBreak => CSym BREAK | LDone => CUndef end,
                  Some it, w')
      /\ calls w'
         = calls w
             ++ entry_calls
                  ((cur, it)
                     :: match f0 with
                        | FKey => []
                        | FValue => preorder_field cur FKey (key it)
                        end
                     ++ logl
                     ++ match ex, f0 with
                        | LDone, FKey => preorder_field cur FValue (value it)
                        | _, _ => []
                        end).
Proof.
  intros HP Hget Hloop fuel w Hf.
  assert (Hcur : cur <> P).
  { rewrite HP. intros E. rewrite <- (app_nil_r cur) in E at 1.
    apply app_inv_head in E. discriminate. }
  destruct it as [st k sp v]. rewrite size_eq in Hf.
  destruct fuel as [|f1]; [lia|].
  rewrite _visit_S. unfold invoke. rewrite answer_at_miss by exact Hcur.
  simpl is_symbol. cbv iota.
  destruct f0; simpl in Hget; subst.
  - (* the way to [P] is in the key *)
    unfold visit_field at 1. simpl get_field. cbv beta iota.
    match goal with
    | |- context [visit_items f1 _ _ FKey items 0 ?w0] =>
        destruct (Hloop f1 w0) as (w1 & E1 & C1); [simpl in Hf; lia|]
    end.
    rewrite E1. simpl set_field. destruct ex.
    + exists w1. split; [reflexivity|].
      rewrite C1. simpl. unfold entry_calls. rewrite !map_app.
      simpl. rewrite <- !app_assoc, app_nil_r. reflexivity.
    + destruct (@quiet_children unit (answer_at (cur ++ (FKey, j) :: tl) s)
                  (fun _ => True) cur
                  (MkItem st (Some (Coll ty items)) sp v) FValue CUndef f1 w1)
        as (w2 & E2 & C2 & _);
        [ | exact I | simpl in *; lia | discriminate | ].
      { intros j'. apply answer_quiet. intros q. apply off_path. discriminate. }
      rewrite E2. exists w2. split; [reflexivity|].
      rewrite C2, C1. simpl. unfold entry_calls. rewrite !map_app.
      simpl. rewrite <- !app_assoc. reflexivity.
  - (* the way to [P] is in the value *)
    match goal with
    | |- context [visit_field _ cur ?it0 FKey CUndef ?w0] =>
        destruct (@quiet_children unit (answer_at (cur ++ (FValue, j) :: tl) s)
                    (fun _ => True) cur it0 FKey CUndef f1 w0)
          as (w1 & E1 & C1 & _)
    end.
    { intros j'. apply answer_quiet. intros q. apply off_path. discriminate. }
    { exact I. }
    { simpl in *. lia. }
    { discriminate. }
    rewrite E1. unfold visit_field. simpl get_field. cbv beta iota.
    destruct (Hloop f1 w1) as (w2 & E2 & C2); [simpl in Hf; lia|].
    rewrite E2. simpl set_field.
    exists w2. destruct ex; (split; [reflexivity|]);
      rewrite C2, C1; simpl; unfold entry_calls; rewrite !map_app;
      simpl; rewrite <- !app_assoc, ?app_nil_r; reflexivity.
Qed.

Lemma loop_effect_walk_ctrl P s ex :
  loop_effect (CSym s : Ctrl unit) = Some ex ->
  loop_effect (walk_ctrl P s ex) = Some ex.
Proof.
  intros H. destruct P; [exact H|]. destruct ex; reflexivity.
Qed.

Lemma answer_walk s ex P :
  loop_effect (CSym s : Ctrl unit) = Some ex ->
  forall it cur x,
    reaches it P x ->
    exists L R,
      preorder cur it = L ++ preorder (cur ++ P) x ++ R
      /\ forall fuel w,
           (2 * size it <= fuel)%nat ->
           exists w',
             _visit fuel cur (Some it) (answer_at (cur ++ P) s) w
             = Returned (walk_ctrl P s ex, Some it, w')
             /\ calls w'
                = calls w
                    ++ entry_calls
                         (L ++ (cur ++ P, x)
                            :: match ex with LDone => R | LBreak => [] end).
Proof.
  intros Hs. induction P as [|[f0 j] P IH]; intros it cur x Hx.
  - apply reaches_nil in Hx. subst x. rewrite app_nil_r.
    exists [], []. split; [now rewrite app_nil_r|].
    intros fuel w Hf. pose proof (size_pos it).
    destruct fuel as [|f1]; [lia|].
    rewrite _visit_S. unfold invoke. rewrite answer_at_hit. simpl.
    eexists. split; [reflexivity|]. destruct ex; reflexivity.
  - apply reaches_cons in Hx as (c & Hgc & Hx).
    destruct (children_get _ _ _ Hgc) as (ty & Hf0).
    destruct (items_get_split _ _ Hgc) as (l1 & r & El & Ej).
    rewrite El in Hf0. subst j.
    destruct (IH c (cur ++ [(f0, Z.of_nat (List.length l1))]) x Hx)
      as (Lc & Rc & Hpre & Hrun).
    assert (EP : (cur ++ [(f0, Z.of_nat (List.length l1))]) ++ P
                 = cur ++ (f0, Z.of_nat (List.length l1)) :: P)
      by (rewrite <- app_assoc; reflexivity).
    rewrite EP in Hpre, Hrun.
    pose proof (@loop_around_at _ s cur f0 l1 c r P (walk_ctrl P s ex) ex _
                  eq_refl (@loop_effect_walk_ctrl P s ex Hs) Hrun) as Hloop.
    pose proof (@item_around_at _ s cur it f0 ty _ _ P ex _ eq_refl Hf0 Hloop)
      as Hitem.
    destruct it as [st k sp v].
    assert (Hlist : preorder_items cur f0 (l1 ++ c :: r) 0
                    = preorder_items cur f0 l1 0
                        ++ (Lc ++ preorder (cur ++ (f0, Z.of_nat (List.length l1)) :: P) x
                               ++ Rc)
                        ++ preorder_items cur f0 r (Z.of_nat (List.length l1) + 1)).
    { rewrite preorder_items_app. simpl. rewrite Hpre. reflexivity. }
    destruct f0; simpl in Hf0; subst.
    + exists ((cur, MkItem st (Some (Coll ty (l1 ++ c :: r))) sp v)
                :: preorder_items cur FKey l1 0 ++ Lc),
             (Rc ++ preorder_items cur FKey r (Z.of_nat (List.length l1) + 1)
                 ++ preorder_field cur FValue v).
      split.
      * rewrite preorder_eq.
        change (preorder_field cur FKey (Some (Coll ty (l1 ++ c :: r))))
          with (preorder_items cur FKey (l1 ++ c :: r) 0).
        rewrite Hlist. simpl. rewrite <- !app_assoc. reflexivity.
      * intros fuel w Hf. destruct (Hitem fuel w Hf) as (w' & E & C).
        exists w'. split; [destruct ex; exact E|].
        rewrite C. f_equal. f_equal. destruct ex; simpl;
          rewrite <- ?app_assoc; simpl; rewrite <- ?app_assoc, ?app_nil_r;
          reflexivity.
    + exists ((cur, MkItem st k sp (Some (Coll ty (l1 ++ c :: r))))
                :: preorder_field cur FKey k
                ++ preorder_items cur FValue l1 0 ++ Lc),
             (Rc ++ preorder_items cur FValue r (Z.of_nat (List.length l1) + 1)).
      split.
      * rewrite preorder_eq.
        change (preorder_field cur FValue (Some (Coll ty (l1 ++ c :: r))))
          with (preorder_items cur FValue (l1 ++ c :: r) 0).
        rewrite Hlist. simpl. rewrite <- !app_assoc. reflexivity.
      * intros fuel w Hf. destruct (Hitem fuel w Hf) as (w' & E & C).
        exists w'. split; [destruct ex; exact E|].
        rewrite C. f_equal. f_equal. destruct ex; simpl;
          rewrite <- ?app_assoc; simpl; rewrite <- ?app_assoc, ?app_nil_r;
          reflexivity.
Qed.

(** X1. When the visitor answers [BREAK] at the item [x] found at the path
    [P] (and [undefined] elsewhere), the walk ends there: its calls are
    the entries of the listing of the tree up to and including that of
    [x], so that nothing below [x] and nothing after it is entered; the
    tree is left as it was and [visit] returns [undefined]. *)
Theorem break_ends_the_walk (root : Root) (P : VisitPath) (x : Item) :
  itemAtPath (RItem (unwrap root)) P = Some (RItem x) ->
  exists L R,
    preorder [] (unwrap root) = L ++ preorder P x ++ R
    /\ forall fuel w,
         (2 * size (unwrap root) <= fuel)%nat ->
         exists w',
           visit fuel root (answer_at P BREAK) w
           = Returned (mkVisited root w' CUndef)
           /\ calls w' = calls w ++ entry_calls (L ++ [(P, x)]).
Proof.
  intros Hx.
  destruct (@answer_walk BREAK LBreak P eq_refl (unwrap root) [] x Hx)
    as (L & R & Hpre & Hrun).
  exists L, R. split; [exact Hpre|].
  intros fuel w Hf. destruct (Hrun fuel w Hf) as (w' & E & C).
  exists w'. unfold visit. simpl app in E. rewrite E, rewrap_unwrap. auto.
Qed.

Lemma break_ends_the_walk_witness :
  exists L R,
    preorder [] (unwrap (RItem sample_item))
    = L ++ preorder [(FKey, 1)] (leaf_item "b") ++ R
    /\ forall fuel w,
         (2 * size (unwrap (RItem sample_item)) <= fuel)%nat ->
         exists w',
           visit fuel (RItem sample_item) (answer_at [(FKey, 1)] BREAK) w
           = Returned (mkVisited (RItem sample_item) w' CUndef)
           /\ calls w'
              = calls w ++ entry_calls (L ++ [([(FKey, 1)], leaf_item "b")]).
Proof.
  apply (@break_ends_the_walk (RItem sample_item) [(FKey, 1)] (leaf_item "b")).
  reflexivity.
Defined.

(** X2. When the visitor answers [SKIP] (or a symbol that is none of
    [BREAK], [SKIP] and [REMOVE]) at the item [x] found at the path [P],
    and [undefined] elsewhere, the calls are the entries of the listing of
    the tree without those of the items below [x]: [x] is entered, its
    children are not, and the walk goes on with what follows; the tree is
    left as it was. *)
Theorem skip_passes_over_the_children (root : Root) (P : VisitPath) (x : Item)
    (s : Sym) :
  s <> BREAK -> s <> REMOVE ->
  itemAtPath (RItem (unwrap root)) P = Some (RItem x) ->
  exists L R,
    preorder [] (unwrap root) = L ++ preorder P x ++ R
    /\ forall fuel w,
         (2 * size (unwrap root) <= fuel)%nat ->
         exists w',
           visit fuel root (answer_at P s) w
           = Returned (mkVisited root w' CUndef)
           /\ calls w' = calls w ++ entry_calls (L ++ (P, x) :: R).
Proof.
  intros Hb Hr Hx.
  assert (Hs : loop_effect (CSym s : Ctrl unit) = Some LDone)
    by (destruct s; simpl; congruence).
  destruct (@answer_walk s LDone P Hs (unwrap root) [] x Hx)
    as (L & R & Hpre & Hrun).
  exists L, R. split; [exact Hpre|].
  intros fuel w Hf. destruct (Hrun fuel w Hf) as (w' & E & C).
  exists w'. unfold visit. simpl app in E. rewrite E, rewrap_unwrap. auto.
Qed.

Lemma skip_passes_over_the_children_witness :
  exists L R,
    preorder [] (unwrap (RItem sample_item)) = L ++ preorder [] sample_item ++ R
    /\ forall fuel w,
         (2 * size (unwrap (RItem sample_item)) <= fuel)%nat ->
         exists w',
           visit fuel (RItem sample_item) (answer_at [] SKIP) w
           = Returned (mkVisited (RItem sample_item) w' CUndef)
           /\ calls w' = calls w ++ entry_calls (L ++ ([], sample_item) :: R).
Proof.
  apply (@skip_passes_over_the_children (RItem sample_item) [] sample_item SKIP).
  - discriminate.
  - discriminate.
  - reflexivity.
Defined.

(** X3. A symbol that the visitor answers at the root, [REMOVE] included,
    is dropped: [visit] makes that one call, leaves the root and the tree
    as they are and returns [undefined]. *)
Theorem symbol_at_the_root_is_dropped (St : Type) (visitor : Visitor St)
    (root : Root) (w : World St) (s : Sym) (st : St) (fuel : nat) :
  visitor (vstate w) (Some (unwrap root)) [] = (CSym s, st) ->
  visit (S fuel) root visitor w
  = Returned
      (mkVisited root
         (mkWorld st (calls w ++ [mkCall Entry [] (Some (unwrap root))]))
         CUndef).
Proof.
  intros H. unfold visit. rewrite _visit_S. unfold invoke. rewrite H.
  simpl. now rewrite rewrap_unwrap.
Qed.

Lemma symbol_at_the_root_is_dropped_witness :
  visit 1 (RItem sample_item) (answer_at [] REMOVE) (mkWorld tt [])
  = Returned
      (mkVisited (RItem sample_item)
         (mkWorld tt ([] ++ [mkCall Entry [] (Some (unwrap (RItem sample_item)))]))
         CUndef).
Proof.
  apply (@symbol_at_the_root_is_dropped unit (answer_at [] REMOVE)
           (RItem sample_item) (mkWorld tt []) REMOVE tt 0%nat).
  reflexivity.
Defined.

(** ** Paths, items and parent collections *)

(** X4. Resolving a path made of two parts is resolving the second part
    from the item that the first part leads to, and finds nothing when the
    first part finds nothing. *)
Theorem itemAtPath_of_joined_paths (root : Root) (p q : VisitPath) :
  itemAtPath root (p ++ q)
  = match itemAtPath root p with
    | Some r => itemAtPath r q
    | None => None
    end.
Proof.
  unfold itemAtPath. rewrite itemAtPath_from_app.
  destruct (itemAtPath_from (Some root) p); [reflexivity|].
  apply itemAtPath_from_None.
Qed.

(** X5. For a path that ends with the step [(f, i)], [parentCollection]
    either returns a collection, and then [itemAtPath] finds what that
    collection holds at index [i] (nothing, if [i] is outside it), or it
    throws the 'Parent collection not found' error, and then [itemAtPath]
    finds nothing. It returns no token that has no items. *)
Theorem parentCollection_holds_the_item (root : Root) (Q : VisitPath)
    (f : Field) (i : Z) :
  match parentCollection root (Q ++ [(f, i)]) with
  | Returned (Coll ty items) =>
      itemAtPath root (Q ++ [(f, i)]) = option_map RItem (items_get items i)
  | Returned (Leaf _ _) => False
  | Threw e =>
      e = Error "Parent collection not found"
      /\ itemAtPath root (Q ++ [(f, i)]) = None
  | OutOfFuel => False
  end.
Proof.
  unfold parentCollection. rewrite removelast_last, last_step_app.
  unfold itemAtPath. rewrite itemAtPath_from_app. simpl.
  destruct (root_field (itemAtPath_from (Some root) Q) f) as [[ty s|ty l]|];
    auto.
Qed.

(** X6. The paths that a walk hands to the visitor resolve against the
    root as it was given, a document included: with a visitor that only
    looks, every call but the one for the root carries an item and a path
    at which [itemAtPath] finds that item in the root; and no path that
    starts with a [key] step finds anything in a document. *)
Theorem paths_of_calls_resolve (St : Type) (visitor : Visitor St) (root : Root)
    (w : World St) (fuel : nat) :
  (forall s item path, fst (visitor s item path) = CUndef) ->
  (2 * size (unwrap root) <= fuel)%nat ->
  exists w' new,
    visit fuel root visitor w = Returned (mkVisited root w' CUndef)
    /\ calls w' = calls w ++ new
    /\ (forall c,
          In c new ->
          c_path c = [] /\ c_item c = Some (unwrap root)
          \/ exists it,
               c_item c = Some it
               /\ itemAtPath root (c_path c) = Some (RItem it))
    /\ (forall d i p, itemAtPath (RDoc d) ((FKey, i) :: p) = None).
Proof.
  intros Hnoop Hfuel.
  destruct (@quiet_walk_all St visitor (fun _ => True) (unwrap root) fuel [] w)
    as (w' & E & C & _); auto.
  { intros s item q _. split; [apply Hnoop | exact I]. }
  exists w', (entry_calls (preorder [] (unwrap root))).
  unfold visit. rewrite E, rewrap_unwrap.
  split; [reflexivity|]. split; [exact C|]. split; [|reflexivity].
  intros c Hc. unfold entry_calls in Hc.
  apply in_map_iff in Hc as ([path it] & <- & Hin). simpl.
  apply (listed_all (unwrap root) [] path it) in Hin as (p & -> & Hp).
  simpl. destruct p as [|st p].
  - left. apply reaches_nil in Hp. subst. auto.
  - right. exists it. split; [reflexivity|].
    rewrite itemAtPath_unwrap. exact Hp.
Qed.

Lemma paths_of_calls_resolve_witness :
  exists w' new,
    visit 12 (RItem sample_item) never_steers (mkWorld tt [])
    = Returned (mkVisited (RItem sample_item) w' CUndef)
    /\ calls w' = calls (mkWorld tt []) ++ new
    /\ (forall c,
          In c new ->
          c_path c = [] /\ c_item c = Some (unwrap (RItem sample_item))
          \/ exists it,
               c_item c = Some it
               /\ itemAtPath (RItem sample_item) (c_path c) = Some (RItem it))
    /\ (forall d i p, itemAtPath (RDoc d) ((FKey, i) :: p) = None).
Proof.
  apply (@paths_of_calls_resolve unit never_steers (RItem sample_item)
           (mkWorld tt []) 12%nat).
  - intros s item path. reflexivity.
  - vm_compute. lia.
Defined.

(** ** Numbers as control values *)

Lemma items_put_nonempty items i c : items <> [] -> items_put items i c <> [].
Proof.
  destruct items as [|a r]; [congruence|]. intros _.
  unfold items_put. destruct c as [c|]; [|discriminate].
  destruct (i <? 0); [discriminate|]. destruct (Z.to_nat i); discriminate.
Qed.

Lemma back_to_start_below st item s p :
  back_to_start st item (s :: p) = (CNum 0, st).
Proof. reflexivity. Qed.

(** With the visitor that answers 0 below the root, a loop over items that
    starts at index 0 does not come to an end, and the walk of an item
    below the root returns 0 if it returns. *)
Lemma back_to_start_loops fuel :
  (forall path s item w,
      _visit fuel (path ++ [s]) (Some item) back_to_start w = OutOfFuel
      \/ exists item' w',
           _visit fuel (path ++ [s]) (Some item) back_to_start w
           = Returned (CNum 0, Some item', w'))
  /\ (forall path field items w,
        items <> [] ->
        visit_items fuel path back_to_start field items 0 w = OutOfFuel).
Proof.
  induction fuel as [|fuel [IHv IHl]]; [split; intros; [left|]; reflexivity|].
  assert (Hfield : forall path it field (c : Ctrl unit) w,
             (forall f, c <> CFun f) ->
             (visit_field (visit_items fuel path back_to_start) path it field c w
              = OutOfFuel
              \/ exists it' w',
                   visit_field (visit_items fuel path back_to_start) path it
                               field c w
                   = Returned (FNext c it' w'))
             /\ (children (get_field it field) <> [] ->
                 visit_field (visit_items fuel path back_to_start) path it
                             field c w
                 = OutOfFuel)).
  { intros path it field c w Hc. unfold visit_field.
    destruct (get_field it field) as [[ty src|ty l]|]; simpl.
    - split; [right; eauto | congruence].
    - destruct l as [|a r].
      + split; [|congruence]. destruct fuel as [|f]; [left; reflexivity|].
        right. rewrite visit_items_S. simpl.
        destruct c; try (eexists _, _; reflexivity).
        exfalso. eapply Hc; reflexivity.
      + rewrite IHl by discriminate. split; [left|]; reflexivity.
    - split; [right; eauto | congruence]. }
  split.
  - intros path s item w. rewrite _visit_S. unfold invoke.
    destruct (path ++ [s]) as [|s0 p0] eqn:Ep;
      [destruct path; discriminate|].
    rewrite back_to_start_below. simpl is_symbol. cbv iota.
    match goal with
    | |- context [visit_field _ ?pp item FKey (CNum 0) ?w0] =>
        destruct (proj1 (Hfield pp item FKey (CNum 0) w0
                           ltac:(intros f H; discriminate H)))
          as [E1|(it1 & w1 & E1)]
    end; rewrite E1; [left; reflexivity|].
    match goal with
    | |- context [visit_field _ ?pp it1 FValue (CNum 0) w1] =>
        destruct (proj1 (Hfield pp it1 FValue (CNum 0) w1
                           ltac:(intros f H; discriminate H)))
          as [E2|(it2 & w2 & E2)]
    end; rewrite E2; [left; reflexivity|].
    right. eauto.
  - intros path field items w Hne. rewrite visit_items_S.
    destruct items as [|a r]; [congruence|].
    change (0 <? Z.of_nat (List.length (a :: r))) with true. cbv iota.
    change (items_get (a :: r) 0) with (Some a).
    destruct (IHv path (field, 0) a w) as [E|(a' & w' & E)]; rewrite E;
      [reflexivity|].
    cbv zeta iota. apply IHl. apply items_put_nonempty. discriminate.
Qed.

(** X7. Nothing bounds the walk when the visitor sets the index: with the
    visitor that answers the number 0 at every item below the root, the
    walk of a tree whose root has an item in its key or in its value never
    returns, however much fuel it is given. *)
Theorem index_zero_forever (root : Root) (w : World unit) (fuel : nat) :
  children (key (unwrap root)) <> [] \/ children (value (unwrap root)) <> [] ->
  visit fuel root back_to_start w = OutOfFuel.
Proof.
  intros H. unfold visit.
  destruct fuel as [|fuel]; [reflexivity|].
  rewrite _visit_S. unfold invoke. simpl back_to_start. simpl is_symbol.
  cbv iota.
  destruct (back_to_start_loops fuel) as [_ Hl].
  destruct (unwrap root) as [st k sp v]. simpl in H.
  unfold visit_field at 1. simpl get_field.
  destruct k as [[ty src|ty [|a r]]|].
  - destruct H as [H|H]; [simpl in H; congruence|].
    unfold visit_field. simpl get_field.
    destruct v as [[ty' src'|ty' [|a' r']]|]; simpl in H; try congruence.
    now rewrite Hl.
  - destruct H as [H|H]; [simpl in H; congruence|].
    destruct fuel as [|f]; [reflexivity|].
    rewrite visit_items_S.
    change (0 <? Z.of_nat (List.length (@nil Item))) with false. cbv iota beta.
    unfold visit_field. simpl get_field.
    destruct v as [[ty' src'|ty' [|a' r']]|]; simpl in H; try congruence.
    now rewrite Hl.
  - now rewrite Hl.
  - destruct H as [H|H]; [simpl in H; congruence|].
    unfold visit_field. simpl get_field.
    destruct v as [[ty' src'|ty' [|a' r']]|]; simpl in H; try congruence.
    now rewrite Hl.
Qed.

Lemma index_zero_forever_witness :
  visit 1000 (RItem sample_item) back_to_start (mkWorld tt []) = OutOfFuel.
Proof.
  apply (@index_zero_forever (RItem sample_item) (mkWorld tt []) 1000%nat).
  left. discriminate.
Defined.

(** X8. A number that is outside the items ends the loop or breaks the
    walk: when the walk of the item at index [i] returns a number at or
    beyond the length of the items, the loop ends and none of the items
    after [i] is entered; when it returns a number below zero, the visitor
    is called next with [undefined] for the item, and unless it answers a
    symbol the walk throws a [TypeError]. *)
Theorem number_outside_the_items (St : Type) (visitor : Visitor St)
    (path : VisitPath) (field : Field) (items : list Item) (i n : Z)
    (child : option Item) (w w1 : World St) (fuel : nat) :
  i < Z.of_nat (List.length items) ->
  _visit (S (S fuel)) (path ++ [(field, i)]) (items_get items i) visitor w
  = Returned (CNum n, child, w1) ->
  (Z.of_nat (List.length items) <= n ->
   visit_items (S (S (S fuel))) path visitor field items i w
   = Returned (LDone, items_put items i child, w1))
  /\ (n < 0 ->
      is_symbol (fst (visitor (vstate w1) None (path ++ [(field, n)]))) = false ->
      visit_items (S (S (S fuel))) path visitor field items i w
      = Threw TypeError).
Proof.
  intros Hi Hrun.
  assert (Hlen : List.length (items_put items i child) = List.length items).
  { unfold items_put. destruct child as [c|]; [|reflexivity].
    destruct (i <? 0); [reflexivity|].
    generalize (Z.to_nat i). clear. induction items as [|a r IH]; intros k;
      [reflexivity|]. destruct k; simpl; [reflexivity | now rewrite IH]. }
  split.
  - intros Hn. rewrite visit_items_S.
    destruct (Z.ltb_spec i (Z.of_nat (List.length items))) as [_|H]; [|lia].
    rewrite Hrun. cbv zeta iota. rewrite visit_items_S, Hlen.
    destruct (Z.ltb_spec (n - 1 + 1) (Z.of_nat (List.length items))) as [H|_];
      [lia | reflexivity].
  - intros Hn Hsym. rewrite visit_items_S.
    destruct (Z.ltb_spec i (Z.of_nat (List.length items))) as [_|H]; [|lia].
    rewrite Hrun. cbv zeta iota. rewrite visit_items_S, Hlen.
    replace (n - 1 + 1) with n by lia.
    destruct (Z.ltb_spec n (Z.of_nat (List.length items))) as [_|H]; [|lia].
    assert (Hget : items_get (items_put items i child) n = None).
    { unfold items_get. destruct (Z.ltb_spec n 0); [reflexivity | lia]. }
    rewrite Hget, _visit_S. unfold invoke.
    destruct (visitor (vstate w1) None (path ++ [(field, n)])) as [c st].
    simpl in Hsym. rewrite Hsym. reflexivity.
Qed.

Lemma number_outside_the_items_witness :
  (exists w1,
      visit_items 4 [] (answers_number 2) FValue
        [leaf_item "a"; leaf_item "b"] 0 (mkWorld tt [])
      = Returned (LDone, [leaf_item "a"; leaf_item "b"], w1)
      /\ List.length (calls w1) = 1%nat)
  /\ visit_items 4 [] (answers_number (-1)) FValue
       [leaf_item "a"; leaf_item "b"] 0 (mkWorld tt [])
     = Threw TypeError.
Proof.
  split.
  - eexists. split.
    + refine (proj1 (@number_outside_the_items unit (answers_number 2) []
                       FValue [leaf_item "a"; leaf_item "b"] 0 2
                       (Some (leaf_item "a"))
                       (mkWorld tt []) _ 1%nat _ _) _).
      * simpl. lia.
      * reflexivity.
      * simpl. lia.
    + reflexivity.
  - refine (proj2 (@number_outside_the_items unit (answers_number (-1)) []
                     FValue [leaf_item "a"; leaf_item "b"] 0 (-1)
                     (Some (leaf_item "a"))
                     (mkWorld tt []) _ 1%nat _ _) _ _).
    + simpl. lia.
    + reflexivity.
    + lia.
    + reflexivity.
Defined.

End CstWalks.

(** * More on the stream composer *)

Section PreludeFacts.

Import Compose.

Local Open Scope string_scope.
Local Open Scope list_scope.

(** ** parsePrelude *)

Lemma append_assoc (a b c : string) :
  String.append (String.append a b) c = String.append a (String.append b c).
Proof. induction a as [|x a IH]; simpl; [reflexivity | now rewrite IH]. Qed.

Lemma append_nil_r (a : string) : String.append a "" = a.
Proof. induction a as [|x a IH]; simpl; [reflexivity | now rewrite IH]. Qed.

Lemma text_after_marker_truthy t : truthy (Some (text_after_marker t)) = true.
Proof. destruct t; reflexivity. Qed.

Lemma truthy_append_r a b : truthy (Some b) = true ->
  truthy (Some (String.append a b)) = true.
Proof. destruct a, b; simpl; congruence. Qed.

(** One comment line, from any state. *)
Lemma parsePrelude_comment t rest c a e :
  parsePrelude_from (String "#" t :: rest) c a e
  = parsePrelude_from rest
      (String.append c
         (String.append
            (if truthy (Some c) then if e then String.append newline newline
                                     else newline
             else "")
            (text_after_marker t)))
      true false.
Proof.
  simpl. unfold text_after_marker. destruct c; reflexivity.
Qed.

(** Lines that are neither comments nor directives. *)
Lemma parsePrelude_plain gap rest c a e :
  forallb plain gap = true ->
  parsePrelude_from (gap ++ rest) c a e
  = parsePrelude_from rest c
      (match gap with [] => a | _ => false end)
      (match gap with
       | [] => e
       | [_] => if a then e else true
       | _ => true
       end).
Proof.
  revert a e. induction gap as [|x gap IH]; intros a e H; [reflexivity|].
  simpl in H. apply andb_true_iff in H as [Hx Hg].
  assert (Hstep : forall l, parsePrelude_from (x :: l) c a e
                            = parsePrelude_from l c false (if a then e else true)).
  { intros l. destruct x as [|ch x']; [reflexivity|].
    destruct ch as [[|] [|] [|] [|] [|] [|] [|] [|]]; try reflexivity;
      discriminate Hx. }
  simpl app. rewrite Hstep, IH by exact Hg.
  destruct gap as [|y gap]; [reflexivity|]. destruct gap; reflexivity.
Qed.

(** X9. A prelude of comment lines only gives their texts, the marker taken
    off each and one space standing for an empty text, joined by single
    newlines; and it does not count as ending after an empty line. *)
Theorem parsePrelude_of_comments (texts : list string) :
  parsePrelude (comment_lines texts)
  = (String.concat newline (map text_after_marker texts), false).
Proof.
  unfold parsePrelude, comment_lines.
  assert (H : forall ts c a,
             truthy (Some c) = true ->
             parsePrelude_from (map (String "#") ts) c a false
             = (String.append c
                  (String.concat ""
                     (map (fun t => String.append newline (text_after_marker t))
                          ts)),
                false)).
  { induction ts as [|t ts IH]; intros c a Hc.
    - simpl. now rewrite append_nil_r.
    - simpl map. rewrite parsePrelude_comment, Hc.
      rewrite IH by (apply truthy_append_r, truthy_append_r,
                       text_after_marker_truthy).
      f_equal. rewrite append_assoc. f_equal.
      destruct ts as [|t' ts]; simpl; rewrite ?append_nil_r; reflexivity. }
  destruct texts as [|t ts]; [reflexivity|].
  simpl map. rewrite parsePrelude_comment. simpl truthy. cbv iota.
  cbn [String.append].
  rewrite H by apply text_after_marker_truthy.
  f_equal. clear H. revert t. induction ts as [|t' ts IH]; intros t.
  - simpl. apply append_nil_r.
  - simpl map.
    change (String.concat newline
              (text_after_marker t :: text_after_marker t'
                 :: map text_after_marker ts))
      with (String.append (text_after_marker t)
              (String.append newline
                 (String.concat newline
                    (text_after_marker t' :: map text_after_marker ts)))).
    rewrite <- (IH t').
    destruct ts; simpl; rewrite ?append_nil_r; reflexivity.
Qed.

(** X10. Between two comment lines, one line that is neither a comment nor
    a directive (the line end of the first comment) keeps them a single
    newline apart in the comment; two such lines or more (a blank line)
    put an empty line between them. *)
Theorem parsePrelude_gap (a b : string) (gap : list string) :
  forallb plain gap = true ->
  parsePrelude (String "#" a :: gap ++ [String "#" b])
  = (String.append (text_after_marker a)
       (String.append
          (if (2 <=? List.length gap)%nat then String.append newline newline
           else newline)
          (text_after_marker b)),
     false).
Proof.
  intros H. unfold parsePrelude.
  rewrite parsePrelude_comment. simpl truthy. cbv iota.
  cbn [String.append].
  rewrite parsePrelude_plain by exact H.
  rewrite parsePrelude_comment, text_after_marker_truthy.
  destruct gap as [|x [|y gap]]; reflexivity.
Qed.

Lemma parsePrelude_gap_witness :
  parsePrelude (String "#" " a" :: [newline; newline] ++ [String "#" " b"])
  = (String.append (text_after_marker " a")
       (String.append
          (if (2 <=? List.length [newline; newline])%nat
           then String.append newline newline else newline)
          (text_after_marker " b")),
     false).
Proof.
  apply (@parsePrelude_gap " a" " b" [newline; newline]). reflexivity.
Defined.

(** A directive line takes the line after it along, unless that line is a
    comment. *)
Lemma parsePrelude_directive d x rest c a e :
  not_comment x = true ->
  parsePrelude_from (String "%" d :: x :: rest) c a e
  = parsePrelude_from rest c false e.
Proof.
  intros H. simpl. destruct x as [|ch x']; [reflexivity|].
  destruct ch as [[|] [|] [|] [|] [|] [|] [|] [|]]; try reflexivity;
    discriminate H.
Qed.

(** X11. Directive lines at the head of the prelude, each with the line
    that follows it, leave no trace in the result: neither text in the
    comment nor an empty line. A comment line that follows a directive
    directly is not taken along. *)
Theorem parsePrelude_skips_directives (ds : list (string * string))
    (rest : list string) :
  forallb (fun d => not_comment (snd d)) ds = true ->
  parsePrelude (directive_lines ds ++ rest) = parsePrelude rest
  /\ forall d t, parsePrelude (String "%" d :: String "#" t :: rest)
                 = parsePrelude (String "#" t :: rest).
Proof.
  intros H. split; [|reflexivity].
  unfold parsePrelude, directive_lines.
  induction ds as [|[d x] ds IH]; [reflexivity|].
  simpl in H. apply andb_true_iff in H as [Hx Hd].
  simpl. fold (parsePrelude_from (x :: flat_map (fun d0 => [String "%" (fst d0); snd d0]) ds ++ rest)).
  change (parsePrelude_from
            (String "%" d :: x
               :: flat_map (fun d0 => [String "%" (fst d0); snd d0]) ds ++ rest)
            "" false false
          = parsePrelude_from rest "" false false).
  rewrite parsePrelude_directive by exact Hx. apply IH, Hd.
Qed.

Lemma parsePrelude_skips_directives_witness :
  parsePrelude (directive_lines [("YAML 1.2", newline)] ++ [String "#" " c"])
  = parsePrelude [String "#" " c"]
  /\ forall d t, parsePrelude (String "%" d :: String "#" t :: [String "#" " c"])
                 = parsePrelude (String "#" t :: [String "#" " c"]).
Proof.
  apply (@parsePrelude_skips_directives [("YAML 1.2", newline)] [String "#" " c"]).
  reflexivity.
Defined.

(** Whatever comes before it, a comment line leaves the loop at a comment
    that ends with its text and is not empty. *)
Lemma parsePrelude_up_to_comment n :
  forall l t c a e,
    (List.length l <= n)%nat ->
    exists pre,
      forall tail,
        parsePrelude_from (l ++ String "#" t :: tail) c a e
        = parsePrelude_from tail (String.append pre (text_after_marker t))
                            true false.
Proof.
  induction n as [|n IH]; intros l t c a e Hn.
  - destruct l; [|simpl in Hn; lia].
    eexists. intros tail. simpl app. rewrite parsePrelude_comment.
    rewrite <- append_assoc. reflexivity.
  - destruct l as [|x l].
    + eexists. intros tail. simpl app. rewrite parsePrelude_comment.
      rewrite <- append_assoc. reflexivity.
    + simpl in Hn. destruct x as [|ch x'].
      * destruct (IH l t c false (if a then e else true)) as (pre & Hpre); [lia|].
        exists pre. intros tail. simpl. apply Hpre.
      * destruct (Ascii.ascii_dec ch "#") as [->|Hc];
          [|destruct (Ascii.ascii_dec ch "%") as [->|Hd]].
        -- destruct (IH l t
                       (String.append c
                          (String.append
                             (if truthy (Some c)
                              then if e then String.append newline newline
                                   else newline
                              else "")
                             (text_after_marker x')))
                       true false) as (pre & Hpre); [lia|].
           exists pre. intros tail. simpl app.
           rewrite parsePrelude_comment. apply Hpre.
        -- destruct l as [|y l].
           ++ eexists. intros tail. simpl app.
              change (parsePrelude_from (String "%" x' :: String "#" t :: tail) c a e)
                with (parsePrelude_from (String "#" t :: tail) c false e).
              rewrite parsePrelude_comment, <- append_assoc. reflexivity.
           ++ destruct (not_comment y) eqn:Ey.
              ** destruct (IH l t c false e) as (pre & Hpre); [simpl in Hn; lia|].
                 exists pre. intros tail. simpl app.
                 rewrite parsePrelude_directive by exact Ey. apply Hpre.
              ** destruct y as [|chy y']; [discriminate|].
                 assert (chy = "#"%char) as ->.
                 { destruct chy as [[|] [|] [|] [|] [|] [|] [|] [|]];
                     try discriminate Ey; reflexivity. }
                 destruct (IH (String "#" y' :: l) t c false e) as (pre & Hpre);
                   [simpl in *; lia|].
                 exists pre. intros tail. apply Hpre.
        -- destruct (IH l t c false (if a then e else true)) as (pre & Hpre); [lia|].
           exists pre. intros tail.
           assert (Hplain : plain (String ch x') = true).
           { destruct ch as [[|] [|] [|] [|] [|] [|] [|] [|]]; try reflexivity;
               congruence. }
           change ((String ch x' :: l) ++ String "#" t :: tail)
             with ([String ch x'] ++ (l ++ String "#" t :: tail)).
           rewrite parsePrelude_plain
             by (cbn [forallb]; rewrite Hplain; reflexivity).
           apply Hpre.
Qed.

Lemma parsePrelude_tail (l : list string) (t : string) (tail : list string) :
  forallb plain tail = true ->
  exists pre,
    parsePrelude (l ++ String "#" t :: tail)
    = (String.append pre (text_after_marker t), (2 <=? List.length tail)%nat)
    /\ truthy (Some (String.append pre (text_after_marker t))) = true.
Proof.
  intros H. unfold parsePrelude.
  destruct (@parsePrelude_up_to_comment (List.length l) l t "" false false
              (Nat.le_refl _)) as (pre & Hpre).
  exists pre. split; [|apply truthy_append_r, text_after_marker_truthy].
  rewrite Hpre. rewrite <- (app_nil_r tail) at 1.
  rewrite parsePrelude_plain by exact H.
  destruct tail as [|x [|y tail]]; reflexivity.
Qed.

(** X12. When the last comment line of the prelude is followed only by
    lines that are neither comments nor directives, the result tells
    whether at least two of them follow it: the line end of the comment
    alone does not make an empty line, a blank line after it does. The
    comment is then not empty and ends with the text of that line. *)
Theorem parsePrelude_after_last_comment (l : list string) (t : string)
    (tail : list string) :
  forallb plain tail = true ->
  exists pre,
    parsePrelude (l ++ String "#" t :: tail)
    = (String.append pre (text_after_marker t), (2 <=? List.length tail)%nat)
    /\ truthy (Some (String.append pre (text_after_marker t))) = true.
Proof. apply parsePrelude_tail. Qed.

Lemma parsePrelude_after_last_comment_witness :
  exists pre,
    parsePrelude ([newline; newline] ++ String "#" " c" :: [newline])
    = (String.append pre (text_after_marker " c"),
       (2 <=? List.length [newline])%nat)
    /\ truthy (Some (String.append pre (text_after_marker " c"))) = true.
Proof.
  apply (@parsePrelude_after_last_comment [newline; newline] " c" [newline]).
  reflexivity.
Defined.

End PreludeFacts.

Section StreamFacts.

Import Compose.

Variable Directives : Type.
Variable Options : Type.
Variable strict : Options -> bool.
Variable Directives_add : Directives -> string -> Directives * list (Z * string * bool).
Variable atDocument : Directives -> Directives * Directives.
Variable Props : Type.
Variable found : Props -> bool.
Variable hasNewline : Props -> bool.
Variable props_end : Props -> Z.
Variable resolveProps : list SourceToken -> PropsQuery -> Props * list Report.
Variable composeNode :
  ComposeContext Directives Options -> Cst.Token -> Props -> Node * list Report.
Variable composeEmptyNode :
  ComposeContext Directives Options -> Z -> list SourceToken -> Props
  -> Node * list Report.
Variable resolveEnd :
  option (list SourceToken) -> Z -> bool -> ResolvedEnd * list Report.
Variable JSON_stringify : string -> string.

Local Abbreviation composeDoc :=
  (composeDoc atDocument found hasNewline props_end resolveProps composeNode
     composeEmptyNode resolveEnd).
Local Abbreviation next :=
  (next strict Directives_add atDocument found hasNewline props_end resolveProps
     composeNode composeEmptyNode resolveEnd JSON_stringify).
Local Abbreviation compose_tokens :=
  (compose_tokens strict Directives_add atDocument found hasNewline props_end
     resolveProps composeNode composeEmptyNode resolveEnd JSON_stringify).
Local Abbreviation compose :=
  (compose strict Directives_add atDocument found hasNewline props_end
     resolveProps composeNode composeEmptyNode resolveEnd JSON_stringify).
Local Abbreviation end_ := (end_ atDocument).

Let Composer := Composer Directives Options.
Let Doc := Doc Directives Options.

(** ** decorate, closer *)

Lemma set_comment_same (doc : Doc) : set_comment doc (comment doc) = doc.
Proof. destruct doc; reflexivity. Qed.

Lemma append_comment_some (old : option string) (added : string) :
  truthy (Some added) = true ->
  append_comment old added
  = Some (if truthy old
          then String.append (or_empty old) (String.append newline added)
          else added).
Proof. intros E. unfold append_comment. now rewrite E. Qed.

Lemma append_comment_none (old : option string) (added : string) :
  truthy (Some added) = false -> append_comment old added = old.
Proof. intros E. unfold append_comment. now rewrite E. Qed.

Lemma decorate_trailing (c : Composer) (doc : Doc) :
  snd (decorate c doc true)
  = set_errors
      (set_comment doc
         (append_comment (comment doc) (fst (parsePrelude (c_prelude c)))))
      (errors doc ++ c_errors c) (warnings doc ++ c_warnings c).
Proof.
  unfold decorate, append_comment.
  destruct (parsePrelude (c_prelude c)) as [cmt ael]. cbn [fst snd].
  destruct (truthy (Some cmt)); [reflexivity|].
  now rewrite set_comment_same.
Qed.

Lemma decorate_leading (c : Composer) (doc : Doc) cmt ael :
  parsePrelude (c_prelude c) = (cmt, ael) ->
  truthy (Some cmt) = true ->
  snd (decorate c doc false)
  = set_errors
      (if ael || docStart (directives doc) || is_null (contents doc)
       then set_commentBefore doc (Some cmt)
       else set_contents doc
              (option_map (comment_on_contents cmt) (contents doc)))
      (c_errors c) (c_warnings c).
Proof.
  intros Hp Ht. unfold decorate. rewrite Hp, Ht. simpl.
  destruct (ael || docStart (directives doc) || is_null (contents doc)) eqn:E;
    [reflexivity|].
  destruct (contents doc) as [[cb r src|cb r [|] [|it rest]]|]; try reflexivity.
  rewrite !orb_false_iff in E. destruct E as [_ E]. discriminate E.
Qed.

(** X13. A comment at the end of the prelude goes to the document itself
    when a blank line parts it from the document or the document has an
    explicit start; otherwise, the document having contents, it goes to
    the contents: to the first item (or its key) of a block collection
    that has items, to the contents node otherwise, in front of a comment
    that is already there. The trailing comment of the document is never
    touched. *)
Theorem leading_comment_placement (c : Composer) (doc : Doc)
    (l : list string) (t : string) (tail : list string) (dc : Node) :
  c_prelude c = l ++ String "#" t :: tail ->
  forallb plain tail = true ->
  contents doc = Some dc ->
  exists cmt,
    fst (parsePrelude (c_prelude c)) = cmt
    /\ truthy (Some cmt) = true
    /\ comment (snd (decorate c doc false)) = comment doc
    /\ if (2 <=? List.length tail)%nat || docStart (directives doc)
       then commentBefore (snd (decorate c doc false)) = Some cmt
            /\ contents (snd (decorate c doc false)) = Some dc
       else commentBefore (snd (decorate c doc false)) = commentBefore doc
            /\ contents (snd (decorate c doc false))
               = Some (comment_on_contents cmt dc).
Proof.
  intros Hp Hplain Hdc.
  destruct (parsePrelude_tail l t tail Hplain) as (pre & Hpp & Ht).
  rewrite <- Hp in Hpp.
  exists (String.append pre (text_after_marker t)).
  rewrite Hpp. split; [reflexivity|]. split; [exact Ht|].
  rewrite (decorate_leading c doc Hpp Ht), Hdc. simpl is_null.
  rewrite orb_false_r.
  destruct ((2 <=? List.length tail)%nat || docStart (directives doc));
    simpl; rewrite ?Hdc; auto.
Qed.

(** ** composeDoc, closer *)

Lemma composeDoc_fields (opts : Options) (dirs : Directives)
    (cst : Cst.Document) :
  exists doc reports node e,
    composeDoc opts dirs cst = (doc, snd (atDocument dirs), reports)
    /\ contents doc = Some node
    /\ range doc = Some (Cst.doc_offset cst, third (node_range node), e)
    /\ docStart (directives doc)
       = found (fst (resolveProps (Cst.doc_start cst) (doc_start_query cst)))
    /\ docEnd (directives doc) = false
    /\ dd_view (directives doc) = fst (atDocument dirs)
    /\ options doc = opts
    /\ errors doc = [] /\ warnings doc = []
    /\ commentBefore doc = None.
Proof.
  unfold Compose.composeDoc, Document_new.
  destruct (atDocument dirs) as [view dirs'].
  destruct (resolveProps (Cst.doc_start cst) (doc_start_query cst))
    as [props r1].
  match goal with
  | |- context [match Cst.doc_value cst with
                | Some v => composeNode ?ctx v props
                | None => ?e
                end] =>
      destruct (match Cst.doc_value cst with
                | Some v => composeNode ctx v props
                | None => e
                end) as [node r3]
  end.
  destruct (resolveEnd (Cst.doc_end cst) (third (node_range node)) false)
    as [re r4].
  eexists _, _, node, (re_offset re). split; [reflexivity|].
  cbn [fst].
  destruct (found props) eqn:Ef, (truthy (Some (re_comment re)));
    repeat split; simpl; rewrite ?Ef; reflexivity.
Qed.

(** X14. The document that [composeDoc] hands back has contents, a range
    that starts at the offset of the span and whose content end is the end
    of the range of the contents, an explicit start exactly when a marker
    was found and no explicit end; its error and warning lists are empty
    and it has no leading comment: what is found wrong while it is
    assembled goes to [onError] and nowhere else. *)
Theorem composeDoc_document (opts : Options) (dirs : Directives)
    (cst : Cst.Document) :
  exists doc reports node e,
    composeDoc opts dirs cst = (doc, snd (atDocument dirs), reports)
    /\ contents doc = Some node
    /\ range doc = Some (Cst.doc_offset cst, third (node_range node), e)
    /\ docStart (directives doc)
       = found (fst (resolveProps (Cst.doc_start cst) (doc_start_query cst)))
    /\ docEnd (directives doc) = false
    /\ dd_view (directives doc) = fst (atDocument dirs)
    /\ options doc = opts
    /\ errors doc = [] /\ warnings doc = []
    /\ commentBefore doc = None.
Proof. apply composeDoc_fields. Qed.

Lemma composeDoc_range_start opts dirs cst doc dirs' reports :
  composeDoc opts dirs cst = (doc, dirs', reports) ->
  range_start doc = Some (Cst.doc_offset cst).
Proof.
  intros H. destruct (composeDoc_fields opts dirs cst)
    as (doc0 & rep0 & node & e & E & _ & Hr & _).
  rewrite E in H. inversion H; subst. unfold range_start. now rewrite Hr.
Qed.

(** ** One token at a time *)

Lemma next_doc_end (c : Composer) (doc : Doc) offset source end0 e reports :
  c_doc c = Some doc ->
  resolveEnd end0 (offset + Z.of_nat (String.length source))
             (strict (options doc)) = (e, reports) ->
  exists doc',
    next c (TDocEnd offset source end0)
    = (mkComposer (c_directives c) (Some doc') (c_options c) (c_atDirectives c)
                  [] [] [], [])
    /\ docEnd (directives doc') = true
    /\ docStart (directives doc') = docStart (directives doc)
    /\ comment doc'
       = append_comment
           (append_comment (comment doc) (fst (parsePrelude (c_prelude c))))
           (re_comment e)
    /\ commentBefore doc' = commentBefore doc
    /\ contents doc' = contents doc
    /\ errors doc' = errors doc ++ c_errors c ++ errors_of reports
    /\ warnings doc' = warnings doc ++ c_warnings c ++ warnings_of reports
    /\ range doc'
       = option_map (fun r : Range => (fst (fst r), snd (fst r), re_offset e))
                    (range doc).
Proof.
  intros Hdoc He. unfold Compose.next. rewrite Hdoc.
  change (options (set_docEnd doc)) with (options doc). rewrite He.
  match goal with
  | |- context [decorate ?cx ?dx true] =>
      pose proof (decorate_trailing cx dx) as Hs;
      pose proof (decorate_fst cx dx true) as Hf;
      destruct (decorate cx dx true) as [c3 d3]
  end.
  simpl in Hs, Hf. subst c3 d3. rewrite onErrors_spec.
  cbn [c_prelude c_errors c_warnings c_directives c_doc c_options
       c_atDirectives fst snd].
  eexists. split; [reflexivity|].
  destruct (truthy (Some (re_comment e))) eqn:E; simpl;
    rewrite <- ?app_assoc; repeat split; auto.
  - now rewrite (@append_comment_some _ _ E).
  - now rewrite (@append_comment_none _ _ E).
Qed.

(** X15. A [doc-end] token that finds a document buffered, with the range
    it was composed with, yields nothing and keeps the document buffered,
    now marked as having an explicit end; the end of its range becomes the
    offset where the marker's trailing span ends, the start and the
    content end of the range staying as they are. The comment of the
    prelude and then the comment found after the marker are added to the
    trailing comment of the document, each on a new line; the pending
    errors and warnings and those reported for the marker are added to the
    lists of the document, and the prelude and the pending lists are left
    empty. *)
Theorem doc_end_with_document (c : Composer) (doc : Doc) (offset : Z)
    (source : string) (end0 : option (list SourceToken)) (e : ResolvedEnd)
    (reports : list Report) (r : Range) :
  c_doc c = Some doc ->
  range doc = Some r ->
  resolveEnd end0 (offset + Z.of_nat (String.length source))
             (strict (options doc)) = (e, reports) ->
  exists doc',
    next c (TDocEnd offset source end0)
    = (mkComposer (c_directives c) (Some doc') (c_options c) (c_atDirectives c)
                  [] [] [], [])
    /\ docEnd (directives doc') = true
    /\ docStart (directives doc') = docStart (directives doc)
    /\ comment doc'
       = append_comment
           (append_comment (comment doc) (fst (parsePrelude (c_prelude c))))
           (re_comment e)
    /\ commentBefore doc' = commentBefore doc
    /\ contents doc' = contents doc
    /\ errors doc' = errors doc ++ c_errors c ++ errors_of reports
    /\ warnings doc' = warnings doc ++ c_warnings c ++ warnings_of reports
    /\ range doc' = Some (fst (fst r), snd (fst r), re_offset e).
Proof.
  intros Hdoc Hr He.
  destruct (@next_doc_end c doc offset source end0 e reports Hdoc He)
    as (doc' & Hn & H1 & H2 & H3 & H4 & H5 & H6 & H7 & H8).
  exists doc'. rewrite Hr in H8. repeat (split; [assumption|]). exact H8.
Qed.

(** ** The documents of a stream *)

Lemma next_order (c : Composer) (t : Token) :
  map (@range_start _ _) (snd (next c t) ++ buffered (fst (next c t)))
  = map (@range_start _ _) (buffered c)
    ++ map (fun d => Some (Cst.doc_offset d)) (doc_spans [t]).
Proof.
  destruct t as [off src|d|s|off src msg|off src e0|ty off src].
  - unfold Compose.next.
    destruct (Directives_add (c_directives c) src) as [dA cbs].
    rewrite onErrors_spec. simpl. now rewrite app_nil_r.
  - destruct (composeDoc (c_options c) (c_directives c) d)
      as [[doc dirs'] reports] eqn:E.
    destruct (next_document strict Directives_add atDocument found hasNewline
                props_end resolveProps composeNode composeEmptyNode resolveEnd
                JSON_stringify c d E)
      as (doc' & Hn & Hr & _).
    rewrite Hn. cbn [fst snd doc_spans map]. unfold buffered at 1.
    cbn [c_doc]. fold (buffered c). rewrite map_app. f_equal.
    cbn [map]. unfold range_start at 1. rewrite Hr.
    fold (range_start doc). now rewrite (composeDoc_range_start _ _ _ E).
  - unfold Compose.next.
    destruct (String.eqb (st_type s) "byte-order-mark"
              || String.eqb (st_type s) "space");
      [|destruct (String.eqb (st_type s) "comment"
                  || String.eqb (st_type s) "newline")];
      simpl; now rewrite app_nil_r.
  - unfold Compose.next, buffered.
    destruct (c_atDirectives c), (c_doc c) as [doc|] eqn:Hd; simpl;
      rewrite ?Hd; reflexivity.
  - destruct (c_doc c) as [doc|] eqn:Hd.
    + destruct (resolveEnd e0 (off + Z.of_nat (String.length src))
                           (strict (options doc))) as [e reports] eqn:He.
      destruct (@next_doc_end c doc off src e0 e reports Hd He) as (doc' & Hn & H).
      decompose [and] H. rewrite Hn. unfold buffered. rewrite Hd. simpl.
      unfold range_start.
      match goal with Hr : range doc' = _ |- _ => rewrite Hr end.
      destruct (range doc); reflexivity.
    + unfold Compose.next, buffered. rewrite Hd. simpl. now rewrite Hd.
  - simpl. now rewrite app_nil_r.
Qed.

Lemma doc_spans_cons (t : Token) (rest : list Token) :
  doc_spans (t :: rest) = doc_spans [t] ++ doc_spans rest.
Proof. destruct t; reflexivity. Qed.

Lemma compose_tokens_order (tokens : list Token) (c : Composer) :
  map (@range_start _ _)
      (snd (compose_tokens c tokens) ++ buffered (fst (compose_tokens c tokens)))
  = map (@range_start _ _) (buffered c)
    ++ map (fun d => Some (Cst.doc_offset d)) (doc_spans tokens).
Proof.
  revert c. induction tokens as [|t rest IH]; intros c.
  - simpl. now rewrite app_nil_r.
  - cbn [Compose.compose_tokens]. pose proof (next_order c t) as Hn.
    destruct (next c t) as [c1 o1]. specialize (IH c1).
    destruct (compose_tokens c1 rest) as [c2 o2].
    cbn [fst snd] in *.
    rewrite <- app_assoc, map_app, IH, app_assoc, <- map_app, Hn.
    now rewrite (doc_spans_cons t rest), map_app, app_assoc.
Qed.

(** The buffer is filled by a document span and never emptied by a
    token. *)
Lemma next_buffer (c : Composer) (t : Token) :
  buffered (fst (next c t)) = [] <-> buffered c = [] /\ doc_spans [t] = [].
Proof.
  destruct t as [off src|d|s|off src msg|off src e0|ty off src].
  - unfold Compose.next.
    destruct (Directives_add (c_directives c) src) as [dA cbs].
    rewrite onErrors_spec. simpl. tauto.
  - destruct (composeDoc (c_options c) (c_directives c) d)
      as [[doc dirs'] reports] eqn:E.
    destruct (next_document strict Directives_add atDocument found hasNewline
                props_end resolveProps composeNode composeEmptyNode resolveEnd
                JSON_stringify c d E)
      as (doc' & Hn & _).
    rewrite Hn. simpl. split; [discriminate | intros [_ H]; discriminate H].
  - unfold Compose.next.
    destruct (String.eqb (st_type s) "byte-order-mark"
              || String.eqb (st_type s) "space");
      [|destruct (String.eqb (st_type s) "comment"
                  || String.eqb (st_type s) "newline")];
      simpl; tauto.
  - unfold Compose.next, buffered.
    destruct (c_atDirectives c), (c_doc c) as [doc|] eqn:Hd; simpl;
      rewrite ?Hd; try tauto.
    split; [discriminate | intros [H _]; discriminate H].
  - destruct (c_doc c) as [doc|] eqn:Hd.
    + destruct (resolveEnd e0 (off + Z.of_nat (String.length src))
                           (strict (options doc))) as [e reports] eqn:He.
      destruct (@next_doc_end c doc off src e0 e reports Hd He) as (doc' & Hn & _).
      rewrite Hn. unfold buffered. rewrite Hd. simpl.
      split; [discriminate | intros [H _]; discriminate H].
    + unfold Compose.next, buffered. rewrite Hd. simpl. rewrite Hd. tauto.
  - simpl. tauto.
Qed.

Lemma compose_tokens_buffer (tokens : list Token) (c : Composer) :
  buffered (fst (compose_tokens c tokens)) = []
  <-> buffered c = [] /\ doc_spans tokens = [].
Proof.
  revert c. induction tokens as [|t rest IH]; intros c.
  - simpl. tauto.
  - cbn [Compose.compose_tokens]. pose proof (next_buffer c t) as Hn.
    destruct (next c t) as [c1 o1]. specialize (IH c1).
    destruct (compose_tokens c1 rest) as [c2 o2].
    cbn [fst snd] in *. rewrite (doc_spans_cons t rest).
    rewrite IH, Hn. split.
    + intros [[H1 H2] H3]. now rewrite H2, H3.
    + intros [H1 H2]. apply app_eq_nil in H2. tauto.
Qed.

(** A token yields a document only out of the buffer, which a span fills
    again. *)
Lemma next_yields (c : Composer) (t : Token) :
  snd (next c t) = [] \/ buffered (fst (next c t)) <> [].
Proof.
  destruct t as [off src|d|s|off src msg|off src e0|ty off src];
    try (left; unfold Compose.next;
         repeat match goal with
                | |- context [let '(_, _) := ?x in _] => destruct x
                | |- context [if ?b then _ else _] => destruct b
                | |- context [match ?x with _ => _ end] => destruct x
                end; reflexivity).
  right. intros H. apply next_buffer in H. destruct H as [_ H].
  discriminate H.
Qed.

Lemma compose_tokens_yields (tokens : list Token) (c : Composer) :
  snd (compose_tokens c tokens) = []
  \/ buffered (fst (compose_tokens c tokens)) <> [].
Proof.
  revert c. induction tokens as [|t rest IH]; intros c.
  - left. reflexivity.
  - cbn [Compose.compose_tokens]. pose proof (next_yields c t) as Hn.
    pose proof (next_buffer c t) as Hb.
    destruct (next c t) as [c1 o1]. specialize (IH c1).
    pose proof (compose_tokens_buffer rest c1) as Hr.
    destruct (compose_tokens c1 rest) as [c2 o2].
    cbn [fst snd] in *.
    destruct IH as [IH|IH]; [|now right].
    destruct Hn as [Hn|Hn]; [left; now rewrite Hn, IH|].
    right. intros H. apply Hn. apply Hr in H. tauto.
Qed.

Lemma end_buffered (c : Composer) (doc : Doc) (forceDoc : bool) (e : Z) :
  c_doc c = Some doc ->
  end_ c forceDoc e
  = (mkComposer (c_directives c) None (c_options c) (c_atDirectives c) [] [] [],
     [snd (decorate c doc true)]).
Proof.
  intros Hd. unfold Compose.end_. rewrite Hd.
  pose proof (decorate_fst c doc true) as Hf.
  destruct (decorate c doc true) as [c3 d3]. simpl in *. now subst c3.
Qed.

Lemma end_forced (c : Composer) (e : Z) :
  c_doc c = None ->
  exists doc,
    end_ c true e
    = (mkComposer (snd (atDocument (c_directives c))) None (c_options c)
         (c_atDirectives c) [] [] [], [doc])
    /\ range doc = Some (0, e, e)
    /\ contents doc = None
    /\ comment doc = None
    /\ commentBefore doc
       = append_comment None (fst (parsePrelude (c_prelude c)))
    /\ errors doc
       = c_errors c
         ++ (if c_atDirectives c then [missing_directives_end e] else [])
    /\ warnings doc = c_warnings c
    /\ docStart (directives doc) = false
    /\ docEnd (directives doc) = false.
Proof.
  intros Hd. unfold Compose.end_, Document_new, decorate. rewrite Hd.
  destruct (atDocument (c_directives c)) as [view dirs'].
  cbn [snd set_directives c_atDirectives c_options c_directives c_doc
       c_prelude c_errors c_warnings].
  destruct (c_atDirectives c) eqn:Ea; unfold onError; cbn -[parsePrelude truthy];
    destruct (parsePrelude (c_prelude c)) as [cmt ael];
    unfold append_comment; cbn -[truthy];
    destruct (truthy (Some cmt));
    rewrite ?orb_true_r; cbn;
    (eexists; split; [rewrite ?Hd, ?Ea; reflexivity|]);
    rewrite ?app_nil_r; repeat split.
Qed.

(** X16. The documents that [compose] yields are, in this order, the one
    the composer had buffered, one for each document span among the
    tokens, its range starting at the offset of the span, and, only if
    there is none of these and a document is forced, one that starts at
    offset 0: no span is dropped, doubled or overtaken, whatever else is
    in the stream. *)
Theorem compose_yields_the_documents_in_order (c : Composer)
    (tokens : list Token) (forceDoc : bool) (endOffset : Z) :
  map (@range_start _ _) (snd (compose c tokens forceDoc endOffset))
  = map (@range_start _ _) (buffered c)
    ++ map (fun d => Some (Cst.doc_offset d)) (doc_spans tokens)
    ++ match buffered c, doc_spans tokens with
       | [], [] => if forceDoc then [Some 0] else []
       | _, _ => []
       end.
Proof.
  unfold Compose.compose.
  pose proof (compose_tokens_order tokens c) as Ho.
  pose proof (compose_tokens_buffer tokens c) as Hb.
  destruct (compose_tokens c tokens) as [c1 o1]. cbn [fst snd] in *.
  destruct (c_doc c1) as [doc|] eqn:Hd.
  - rewrite (@end_buffered c1 doc forceDoc endOffset Hd). cbn [snd].
    unfold buffered at 1 in Ho. rewrite Hd in Ho.
    assert (Hne : ~ (buffered c = [] /\ doc_spans tokens = [])).
    { intros H. apply Hb in H. unfold buffered in H. rewrite Hd in H.
      discriminate H. }
    assert (Ht : match buffered c, doc_spans tokens with
                 | [], [] => if forceDoc then [Some 0] else []
                 | _, _ => @nil (option Z)
                 end = []).
    { destruct (buffered c), (doc_spans tokens); try reflexivity.
      exfalso. apply Hne. split; reflexivity. }
    rewrite Ht, app_nil_r, <- Ho, !map_app. f_equal. cbn [map].
    unfold range_start. destruct (decorate_kept c1 doc true) as (Hr & _).
    now rewrite Hr.
  - assert (Hb1 : buffered c1 = []) by (unfold buffered; now rewrite Hd).
    apply Hb in Hb1. destruct Hb1 as [H1 H2].
    unfold buffered at 1 in Ho. rewrite Hd in Ho. rewrite app_nil_r in Ho.
    rewrite H1, H2 in *. cbn [map app] in *.
    destruct forceDoc.
    + destruct (@end_forced c1 endOffset Hd) as (doc & He & Hr & _).
      rewrite He. cbn [snd]. rewrite map_app, Ho. cbn [map app].
      unfold range_start. now rewrite Hr.
    + unfold Compose.end_. rewrite Hd. cbn [snd].
      now rewrite app_nil_r.
Qed.

(** X17. After [compose] no document is buffered; and either nothing was
    yielded, or the prelude and the pending errors and warnings are empty:
    they went to a document that was yielded. *)
Theorem compose_leaves_nothing_behind (c : Composer) (tokens : list Token)
    (forceDoc : bool) (endOffset : Z) :
  c_doc (fst (compose c tokens forceDoc endOffset)) = None
  /\ (snd (compose c tokens forceDoc endOffset) = []
      \/ drained (fst (compose c tokens forceDoc endOffset))).
Proof.
  unfold Compose.compose.
  pose proof (compose_tokens_yields tokens c) as Hy.
  destruct (compose_tokens c tokens) as [c1 o1]. cbn [fst snd] in *.
  destruct (c_doc c1) as [doc|] eqn:Hd.
  - rewrite (@end_buffered c1 doc forceDoc endOffset Hd). cbn [fst snd].
    split; [reflexivity|]. right. repeat split.
  - destruct Hy as [Hy|Hy];
      [|exfalso; apply Hy; unfold buffered; now rewrite Hd].
    subst o1. destruct forceDoc.
    + destruct (@end_forced c1 endOffset Hd) as (doc & He & _).
      rewrite He. cbn [fst snd]. split; [reflexivity|]. right. repeat split.
    + unfold Compose.end_. rewrite Hd. cbn [fst snd]. split; [exact Hd|].
      left. reflexivity.
Qed.

(** X18. With no document buffered, [end] without [forceDoc] yields
    nothing and leaves the composer as it is. With [forceDoc] it yields
    one document with no contents and range [0, endOffset, endOffset],
    which takes the comment of the prelude as its leading comment and the
    pending errors and warnings as its own, with a [MISSING_CHAR] error at
    [endOffset] after them when directives were left waiting for a
    document; the directives are renewed and the prelude and the pending
    lists emptied. *)
Theorem end_without_document (c : Composer) (endOffset : Z) :
  c_doc c = None ->
  end_ c false endOffset = (c, [])
  /\ exists doc,
       end_ c true endOffset
       = (mkComposer (snd (atDocument (c_directives c))) None (c_options c)
            (c_atDirectives c) [] [] [], [doc])
       /\ range doc = Some (0, endOffset, endOffset)
       /\ contents doc = None
       /\ comment doc = None
       /\ commentBefore doc
          = append_comment None (fst (parsePrelude (c_prelude c)))
       /\ errors doc
          = c_errors c
            ++ (if c_atDirectives c
                then [missing_directives_end endOffset] else [])
       /\ warnings doc = c_warnings c
       /\ docStart (directives doc) = false
       /\ docEnd (directives doc) = false.
Proof.
  intros Hd. split.
  - unfold Compose.end_. now rewrite Hd.
  - now apply end_forced.
Qed.

Lemma compose_tokens_prelude (tokens : list Token) (c : Composer) :
  forallb prelude_only tokens = true ->
  compose_tokens c tokens
  = (mkComposer (c_directives c) (c_doc c) (c_options c) (c_atDirectives c)
       (c_prelude c ++ prelude_sources tokens) (c_errors c) (c_warnings c),
     []).
Proof.
  revert c. induction tokens as [|t rest IH]; intros c H.
  - simpl. rewrite app_nil_r. destruct c; reflexivity.
  - cbn [forallb] in H. apply andb_prop in H. destruct H as [Ht Hr].
    destruct t as [| |s| | |]; try discriminate Ht.
    cbn [Compose.compose_tokens Compose.next prelude_sources].
    cbn [prelude_only] in Ht.
    destruct (String.eqb (st_type s) "byte-order-mark"
              || String.eqb (st_type s) "space") eqn:E1.
    + rewrite (IH c Hr).
      destruct (String.eqb (st_type s) "comment"
                || String.eqb (st_type s) "newline") eqn:E2; [|reflexivity].
      exfalso. clear - E1 E2.
      apply orb_prop in E1, E2.
      destruct E1 as [E1|E1], E2 as [E2|E2]; apply String.eqb_eq in E1, E2;
        rewrite E1 in E2; discriminate E2.
    + cbn [orb] in Ht.
      rewrite Ht. rewrite (IH _ Hr). unfold push_prelude.
      cbn [c_directives c_doc c_options c_atDirectives c_prelude c_errors
           c_warnings app].
      now rewrite <- app_assoc.
Qed.

(** X19. Tokens that are all byte-order marks, spaces, comments or
    newlines make [compose], without a forced document and with none
    buffered, yield nothing: the sources of the comments and newlines
    are added to the prelude, in order, and nothing else of the composer
    changes, so that [streamInfo] gives the comment they make. *)
Theorem compose_of_comments_only (c : Composer) (tokens : list Token)
    (endOffset : Z) :
  forallb prelude_only tokens = true ->
  c_doc c = None ->
  compose c tokens false endOffset
  = (mkComposer (c_directives c) None (c_options c) (c_atDirectives c)
       (c_prelude c ++ prelude_sources tokens) (c_errors c) (c_warnings c),
     [])
  /\ streamInfo (fst (compose c tokens false endOffset))
     = (fst (parsePrelude (c_prelude c ++ prelude_sources tokens)),
        c_directives c, c_errors c, c_warnings c).
Proof.
  intros H Hd. unfold Compose.compose.
  rewrite (@compose_tokens_prelude tokens c H), Hd. unfold Compose.end_.
  cbn [c_doc fst snd app]. split; reflexivity.
Qed.

(** X20. An [error] token yields nothing. With a document buffered and no
    directive seen since, its error is added to the errors of that
    document; otherwise, with no document buffered or a directive seen
    after it, it is the document made of the next document span that
    gets it, after the errors that were pending and before those reported
    while that document is assembled. *)
Theorem error_token_goes_to_a_document (c : Composer) (offset : Z)
    (source message : string) (d : Cst.Document) (doc : Doc)
    (dirs' : Directives) (reports : list Report) :
  composeDoc (c_options c) (c_directives c) d = (doc, dirs', reports) ->
  snd (next c (TError offset source message)) = []
  /\ (forall old,
        c_atDirectives c = false -> c_doc c = Some old ->
        fst (next c (TError offset source message))
        = set_doc c
            (Some (set_errors old
                     (errors old
                      ++ [unexpected_token JSON_stringify offset source message])
                     (warnings old))))
  /\ (c_atDirectives c = true \/ c_doc c = None ->
      exists doc',
        next (fst (next c (TError offset source message))) (TDocument d)
        = (mkComposer dirs' (Some doc') (c_options c) false [] [] [],
           buffered c)
        /\ errors doc'
           = c_errors c
             ++ [unexpected_token JSON_stringify offset source message]
             ++ errors_of reports
             ++ (if c_atDirectives c && negb (docStart (directives doc))
                 then [missing_doc_start (Cst.doc_offset d)] else [])).
Proof.
  intros Hcd. split; [|split].
  - unfold Compose.next. destruct (c_atDirectives c), (c_doc c); reflexivity.
  - intros old Ha Hd. unfold Compose.next. rewrite Ha, Hd. reflexivity.
  - intros Hor.
    assert (Hn : next c (TError offset source message)
                 = (push_error c
                      (unexpected_token JSON_stringify offset source message),
                    [])).
    { unfold Compose.next.
      destruct Hor as [H|H]; rewrite H;
        [|destruct (c_atDirectives c)]; reflexivity. }
    rewrite Hn. cbn [fst].
    destruct (next_document strict Directives_add atDocument found hasNewline
                props_end resolveProps composeNode composeEmptyNode resolveEnd
                JSON_stringify
                (push_error c
                   (unexpected_token JSON_stringify offset source message))
                d Hcd) as (doc' & Hnd & _ & _ & He & _).
    exists doc'. split; [exact Hnd|].
    rewrite He. cbn [push_error c_errors c_atDirectives].
    now rewrite <- app_assoc.
Qed.

End StreamFacts.

Section StreamRuns.

Import Compose.

Lemma leading_comment_placement_witness :
  exists cmt,
    fst (parsePrelude (c_prelude Sample.commented)) = cmt
    /\ truthy (Some cmt) = true
    /\ comment (snd (decorate Sample.commented Sample.scalar_doc false))
       = comment Sample.scalar_doc
    /\ commentBefore (snd (decorate Sample.commented Sample.scalar_doc false))
       = commentBefore Sample.scalar_doc
    /\ contents (snd (decorate Sample.commented Sample.scalar_doc false))
       = Some (comment_on_contents cmt (Scalar None (0, 1, 1) "x")).
Proof.
  apply (@leading_comment_placement (list string) bool Sample.commented
           Sample.scalar_doc [] " note"%string [""%string]
           (Scalar None (0, 1, 1) "x")); reflexivity.
Defined.

Lemma doc_end_with_document_witness :
  exists doc',
    Sample.next Sample.composed (TDocEnd 18 "..." None)
    = (mkComposer [] (Some doc') true false [] [] [], [])
    /\ docEnd (directives doc') = true
    /\ docStart (directives doc') = false
    /\ comment doc' = Some " tail"%string
    /\ commentBefore doc' = None
    /\ contents doc' = Some (Scalar None (16, 17, 17) "scalar")
    /\ errors doc' = []
    /\ warnings doc' = []
    /\ range doc' = Some (16, 17, 21).
Proof.
  apply (@doc_end_with_document (list string) bool (fun o => o)
           Sample.Directives_add Sample.atDocument Sample.Props Sample.found
           Sample.hasNewline Sample.props_end Sample.resolveProps
           Sample.composeNode Sample.composeEmptyNode Sample.resolveEnd
           Sample.JSON_stringify Sample.composed Sample.buffered_doc 18
           "..."%string None (mkResolvedEnd "" 21) [] (16, 17, 17));
    reflexivity.
Defined.

Lemma end_without_document_witness :
  end_ Sample.atDocument Sample.commented false 9 = (Sample.commented, [])
  /\ exists doc,
       end_ Sample.atDocument Sample.commented true 9
       = (mkComposer [] None true false [] [] [], [doc])
       /\ range doc = Some (0, 9, 9)
       /\ contents doc = None
       /\ comment doc = None
       /\ commentBefore doc = Some " note"%string
       /\ errors doc = []
       /\ warnings doc = []
       /\ docStart (directives doc) = false
       /\ docEnd (directives doc) = false.
Proof.
  apply (@end_without_document (list string) bool Sample.atDocument
           Sample.commented 9).
  reflexivity.
Defined.

Lemma compose_of_comments_only_witness :
  Sample.compose Sample.fresh Sample.comment_tokens false 6
  = (mkComposer [] None true false ["# a"%string; ""%string] [] [], [])
  /\ streamInfo (fst (Sample.compose Sample.fresh Sample.comment_tokens false 6))
     = (" a"%string, [], [], []).
Proof.
  apply (@compose_of_comments_only (list string) bool (fun o => o)
           Sample.Directives_add Sample.atDocument Sample.Props Sample.found
           Sample.hasNewline Sample.props_end Sample.resolveProps
           Sample.composeNode Sample.composeEmptyNode Sample.resolveEnd
           Sample.JSON_stringify Sample.fresh Sample.comment_tokens 6);
    reflexivity.
Defined.

Lemma error_token_goes_to_a_document_witness :
  exists doc',
    Sample.next
      (fst (Sample.next Sample.fresh
              (TError 0 "@" "Plain value cannot start here")))
      (TDocument Sample.bare_document)
    = (mkComposer [] (Some doc') true false [] [] [], [])
    /\ errors doc'
       = [mkYAMLError YAMLParseError (0, 1) "UNEXPECTED_TOKEN"
            (String.append "Plain value cannot start here: "
               (String Sample.double_quote
                  (String "@" (String Sample.double_quote ""))))].
Proof.
  refine (proj2 (proj2
    (@error_token_goes_to_a_document (list string) bool (fun o => o)
       Sample.Directives_add Sample.atDocument Sample.Props Sample.found
       Sample.hasNewline Sample.props_end Sample.resolveProps
       Sample.composeNode Sample.composeEmptyNode Sample.resolveEnd
       Sample.JSON_stringify Sample.fresh 0 "@"%string
       "Plain value cannot start here"%string Sample.bare_document
       (fst (fst (Sample.composeDoc true [] Sample.bare_document)))
       [] [] _)) _).
  - reflexivity.
  - right. reflexivity.
Defined.

End StreamRuns.

(** * Properties of the tag registry *)

Section TagFacts.

Import Tags.

Local Open Scope string_scope.
Local Open Scope list_scope.

Variable T : Type.
Variable lib : Imports T.
Variable inherited : string -> bool.

Local Abbreviation getTags := (getTags lib inherited).
Local Abbreviation resolve := (resolve lib inherited).
Local Abbreviation resolve_all := (resolve_all lib inherited).
Local Abbreviation accepted := (accepted lib inherited).

Lemma fold_concat (custom tags : list (Tag T)) :
  fold_left (fun tags tag => tags ++ [tag]) custom tags = tags ++ custom.
Proof.
  revert tags. induction custom as [|t r IH]; intros tags; simpl.
  - now rewrite app_nil_r.
  - rewrite IH, <- app_assoc. reflexivity.
Qed.

Lemma resolve_all_app (l1 l2 : list (Tag T)) (es : list (Entry T)) :
  resolve_all l1 = Returned es ->
  resolve_all (l1 ++ l2)
  = match resolve_all l2 with
    | Returned es2 => Returned (es ++ es2)
    | Threw x => Threw x
    | OutOfFuel => OutOfFuel
    end.
Proof.
  revert es. induction l1 as [|t r IH]; intros es H; simpl in *.
  - inversion H; subst. destruct (resolve_all l2); reflexivity.
  - destruct (resolve t) as [e|x|]; try discriminate H.
    destruct (Tags.resolve_all lib inherited r) as [es1|x|]; try discriminate H.
    inversion H; subst. rewrite (IH es1 eq_refl).
    destruct (resolve_all l2); reflexivity.
Qed.

Lemma resolve_all_objs (ts : list T) :
  resolve_all (map (@Obj T) ts) = Returned (map (@TagObject T) ts).
Proof.
  induction ts as [|t r IH]; simpl; [reflexivity|]. now rewrite IH.
Qed.

Lemma resolve_accepted (t : Tag T) :
  accepted t = true -> exists e, resolve t = Returned e.
Proof.
  destruct t as [o|id]; unfold Tags.resolve, Tags.accepted; [eauto|].
  destruct (lookup id (tagsByName lib)); [eauto|].
  intros ->. eauto.
Qed.

Lemma resolve_all_accepted (l : list (Tag T)) :
  forallb accepted l = true ->
  exists es,
    resolve_all l = Returned es
    /\ Forall2 (fun t e => resolve t = Returned e) l es.
Proof.
  induction l as [|t r IH]; intros H.
  - exists []. split; [reflexivity | constructor].
  - cbn [forallb] in H. apply andb_prop in H. destruct H as [Ht Hr].
    destruct (resolve_accepted t Ht) as [e He].
    destruct (IH Hr) as (es & Hes & Hall).
    exists (e :: es). cbn [Tags.resolve_all]. rewrite He, Hes.
    split; [reflexivity | now constructor].
Qed.

Lemma getTags_array (custom : list (Tag T)) (schemaName : string) :
  getTags (TagArray custom) schemaName
  = resolve_all (map (@Obj T) (schema_tags lib schemaName) ++ custom).
Proof.
  unfold Tags.getTags, schema_tags.
  destruct (lookup schemaName (schemas lib)); cbv beta iota zeta;
    now rewrite fold_concat.
Qed.

(** X21. With an array of custom tags, [getTags] returns the tags of the schema
    (none when the name is not that of a schema, which is then no error)
    followed by the custom tags in their order, each identifier replaced
    by what [tagsByName] holds under it; this when every identifier is one
    that [tagsByName] answers. *)
Theorem custom_tags_follow_the_schema (custom : list (Tag T))
    (schemaName : string) :
  forallb accepted custom = true ->
  exists es,
    getTags (TagArray custom) schemaName
    = Returned (map (@TagObject T) (schema_tags lib schemaName) ++ es)
    /\ Forall2 (fun t e => resolve t = Returned e) custom es.
Proof.
  intros H. destruct (resolve_all_accepted custom H) as (es & Hes & Hall).
  exists es. split; [|exact Hall].
  rewrite getTags_array,
    (@resolve_all_app _ custom _ (resolve_all_objs _)), Hes.
  reflexivity.
Qed.

(** X22. The first identifier of the custom tags that [tagsByName] does not
    answer makes [getTags] throw, whatever the schema name and whatever
    comes after it; the message names it and lists the seventeen own keys
    of [tagsByName]. *)
Theorem first_unknown_tag_is_reported (before after : list (Tag T))
    (id schemaName : string) :
  forallb accepted before = true ->
  accepted (Name T id) = false ->
  getTags (TagArray (before ++ Name T id :: after)) schemaName
  = Threw (Error (unknown_custom_tag lib id))
  /\ unknown_custom_tag lib id
     = String.append "Unknown custom tag "
         (String.append quote (String.append id (String.append quote
            (String.append "; use one of "
               (listed_keys
                  ["binary"; "bool"; "float"; "floatExp"; "floatNaN";
                   "floatTime"; "int"; "intHex"; "intOct"; "intTime"; "map";
                   "null"; "omap"; "pairs"; "seq"; "set"; "timestamp"]))))).
Proof.
  intros Hb Hid. split; [|reflexivity].
  destruct (resolve_all_accepted before Hb) as (es & Hes & _).
  rewrite getTags_array, app_assoc.
  assert (Hpre : resolve_all (map (@Obj T) (schema_tags lib schemaName) ++ before)
                 = Returned (map (@TagObject T) (schema_tags lib schemaName) ++ es)).
  { rewrite (@resolve_all_app _ before _ (resolve_all_objs _)), Hes.
    reflexivity. }
  rewrite (@resolve_all_app _ (Name T id :: after) _ Hpre).
  cbn [Tags.resolve_all]. unfold Tags.resolve, Tags.accepted in *.
  destruct (lookup id (tagsByName lib)); [discriminate Hid|].
  rewrite Hid. reflexivity.
Qed.

(** X23. A name that is not that of a schema makes [getTags] throw unless the
    custom tags are an array; the message lists the names [core],
    [failsafe], [json] and [yaml-1.1]. The name [yaml11], which it does
    not list, is a schema name too, with the tags of [yaml-1.1]. *)
Theorem unknown_schema_is_reported (customTags : CustomTags T)
    (schemaName : string) :
  lookup schemaName (schemas lib) = None ->
  is_array customTags = false ->
  getTags customTags schemaName
  = Threw (Error
      (String.append "Unknown schema "
         (String.append quote (String.append schemaName (String.append quote
            (String.append "; use one of "
               (String.append
                  (listed_keys ["core"; "failsafe"; "json"; "yaml-1.1"])
                  " or define customTags array")))))))
  /\ getTags customTags "yaml11" = getTags customTags "yaml-1.1".
Proof.
  intros Hs Ha. split; [|reflexivity].
  unfold Tags.getTags. rewrite Hs.
  destruct customTags; [reflexivity | discriminate Ha | reflexivity].
Qed.

End TagFacts.

Section TagRuns.

Import Tags.

Local Open Scope string_scope.
Local Open Scope list_scope.

Lemma custom_tags_follow_the_schema_witness :
  exists es,
    Sample.getTags
      (TagArray [Name string "binary"; Obj "mine"; Name string "toString"])
      "failsafe"
    = Returned (map (@TagObject string) (schema_tags Sample.lib "failsafe") ++ es)
    /\ Forall2
         (fun t e =>
            Tags.resolve Sample.lib Sample.Object_prototype t = Returned e)
         [Name string "binary"; Obj "mine"; Name string "toString"] es.
Proof.
  apply (@custom_tags_follow_the_schema string Sample.lib
           Sample.Object_prototype
           [Name string "binary"; Obj "mine"; Name string "toString"]
           "failsafe").
  reflexivity.
Defined.

Lemma first_unknown_tag_is_reported_witness :
  Sample.getTags
    (TagArray ([Name string "set"] ++ Name string "str" :: [Obj "mine"]))
    "no such schema"
  = Threw (Error (unknown_custom_tag Sample.lib "str"))
  /\ unknown_custom_tag Sample.lib "str"
     = String.append "Unknown custom tag "
         (String.append quote (String.append "str" (String.append quote
            (String.append "; use one of "
               (listed_keys
                  ["binary"; "bool"; "float"; "floatExp"; "floatNaN";
                   "floatTime"; "int"; "intHex"; "intOct"; "intTime"; "map";
                   "null"; "omap"; "pairs"; "seq"; "set"; "timestamp"]))))).
Proof.
  apply (@first_unknown_tag_is_reported string Sample.lib
           Sample.Object_prototype [Name string "set"] [Obj "mine"] "str"
           "no such schema"); reflexivity.
Defined.

Lemma unknown_schema_is_reported_witness :
  Sample.getTags (NoCustomTags string) "yaml-1.2"
  = Threw (Error
      (String.append "Unknown schema "
         (String.append quote (String.append "yaml-1.2" (String.append quote
            (String.append "; use one of "
               (String.append
                  (listed_keys ["core"; "failsafe"; "json"; "yaml-1.1"])
                  " or define customTags array")))))))
  /\ Sample.getTags (NoCustomTags string) "yaml11"
     = Sample.getTags (NoCustomTags string) "yaml-1.1".
Proof.
  apply (@unknown_schema_is_reported string Sample.lib Sample.Object_prototype
           (NoCustomTags string) "yaml-1.2"); reflexivity.
Defined.

End TagRuns.

(** * Properties of the boolean tags of YAML 1.1 *)

Section BoolFacts.

Import Bool11.

Local Open Scope string_scope.
Local Open Scope list_scope.

Lemma test_true_not_false (s : string) :
  trueTag_test s = true -> falseTag_test s = false.
Proof.
  unfold trueTag_test, matches. cbn [existsb]. intros E.
  repeat (apply orb_prop in E; destruct E as [E|E];
          [apply String.eqb_eq in E; subst s; reflexivity|]).
  discriminate E.
Qed.

(** X24. No string is a spelling of both booleans: the tests of [trueTag] and
    of [falseTag] never both accept. *)
Theorem bool_tests_are_disjoint (s : string) :
  trueTag_test s && falseTag_test s = false.
Proof.
  destruct (trueTag_test s) eqn:E; [|reflexivity].
  now rewrite (test_true_not_false s E).
Qed.

(** X25. When the configured [trueStr] and [falseStr] are spellings of true and
    of false, what [boolStringify] writes is a spelling of the value and
    not of the other boolean, whatever the source of the node says: a
    source is kept only if it spells the value. *)
Theorem boolStringify_reads_back (value : bool) (source : option string)
    (options : Options) :
  trueTag_test (trueStr options) = true ->
  falseTag_test (falseStr options) = true ->
  test_for value (boolStringify value source options) = true
  /\ test_for (negb value) (boolStringify value source options) = false.
Proof.
  intros Ht Hf.
  assert (H : test_for value (boolStringify value source options) = true).
  { unfold boolStringify, test_for.
    destruct (Compose.truthy source
              && (if value then trueTag_test else falseTag_test)
                   (Compose.or_empty source)) eqn:E.
    - apply andb_prop in E. exact (proj2 E).
    - destruct value; assumption. }
  split; [exact H|].
  destruct value; unfold test_for in *; cbn [negb].
  - now apply test_true_not_false.
  - destruct (trueTag_test (boolStringify false source options)) eqn:E;
      [|reflexivity].
    apply test_true_not_false in E. rewrite E in H. discriminate H.
Qed.

Lemma boolStringify_reads_back_witness :
  test_for true (boolStringify true (Some "no") (mkOptions "true" "false"))
  = true
  /\ test_for false (boolStringify true (Some "no") (mkOptions "true" "false"))
     = false.
Proof.
  apply (@boolStringify_reads_back true (Some "no")
           (mkOptions "true" "false")); reflexivity.
Defined.

End BoolFacts.

(** * Properties of the float tag *)

Section FloatFacts.

Import Float.

Local Open Scope string_scope.

Lemma indexOf_found (c : ascii) (pre rest : string) :
  without c pre = true ->
  indexOf c (String.append pre (String c rest))
  = Z.of_nat (String.length pre).
Proof.
  induction pre as [|a pre IH]; intros H.
  - simpl. now rewrite Ascii.eqb_refl.
  - cbn [without] in H. apply andb_prop in H. destruct H as [Ha Hp].
    apply negb_true_iff in Ha.
    cbn [String.append indexOf String.length]. rewrite Ha, (IH Hp).
    destruct (Z.eqb_spec (Z.of_nat (String.length pre)) (-1)) as [E|_]; lia.
Qed.

Lemma last_char_append (pre : string) (x : ascii) (rest : string) :
  last_char (String.append pre (String x rest)) = last_char (String x rest).
Proof.
  induction pre as [|a pre IH]; [reflexivity|].
  cbn [String.append]. rewrite <- IH.
  destruct pre; reflexivity.
Qed.

Lemma length_append (a b : string) :
  String.length (String.append a b) = (String.length a + String.length b)%nat.
Proof. induction a as [|x a IH]; simpl; [reflexivity | now rewrite IH]. Qed.

(** X26. For a literal with a decimal point, [float.resolve] sets
    [minFractionDigits] exactly when the literal ends in the digit 0, and
    then to the number of characters after the point: the trailing zeros
    of the source are counted, nothing is set when the literal ends in
    another digit or in the point. *)
Theorem digits_after_the_point (Number : Type) (parseFloat : string -> Number)
    (pre fraction : string) :
  without "." pre = true ->
  minFractionDigits
    (resolve parseFloat (String.append pre (String "." fraction)))
  = if is_char "0" (last_char fraction)
    then Some (Z.of_nat (String.length fraction))
    else None.
Proof.
  intros H. unfold resolve.
  rewrite (indexOf_found "." pre fraction H), last_char_append, length_append.
  destruct (Z.eqb_spec (Z.of_nat (String.length pre)) (-1)) as [E|_]; [lia|].
  cbn [negb andb].
  assert (Hl : is_char "0" (last_char (String "." fraction))
               = is_char "0" (last_char fraction)).
  { destruct fraction; reflexivity. }
  rewrite Hl. destruct (is_char "0" (last_char fraction)); [|reflexivity].
  cbn [minFractionDigits String.length]. f_equal. lia.
Qed.

Lemma digits_after_the_point_witness :
  minFractionDigits (resolve (fun s : string => s) "-1.50") = Some 2.
Proof.
  apply (@digits_after_the_point string (fun s => s) "-1" "50").
  reflexivity.
Defined.

End FloatFacts.
